(** * Laghost: quadrature update kernel, rate evaluator, adaptive step driver

    A shallow embedding of the Lagrangian operator of [laghos_solver.cpp]
    (namespace [hydrodynamics]: [LagrangianHydroOperator], [QUpdate],
    [RK2AvgSolver]) and of the time loop of [laghost.cpp] ([main]).  The
    two files are not linked: [main] runs an operator and a solver of
    classes declared in a header that is not among the sources, and the
    time loop takes their members as parameters.
    Further modules embed the index arithmetic of the kernels and of the
    stress solve, the layout of the state vector, the choice of the kernel,
    and parts of the set-up in [main]: boundary types, material lists, the
    lists of the parameter file and the remapping of the stress at
    remeshing.

    A C++ [double] is an IEEE-754 binary64 number, which is exactly Rocq's
    primitive [float]: every arithmetic expression below is written with the
    operators, the operand order and the parenthesisation of the source, so
    that infinities, NaN and signed zeros behave as they do in the program.
    MFEM routines whose code is outside the repository (determinants,
    inverses, singular values, eigen-decompositions, assembly and mass
    solves) enter either as fields of the records that describe a quadrature
    point or as variables of the section that contains the operator. *)

From Stdlib Require Import Ascii Floats ZArith List Bool Lia.
From Stdlib Require Uint63.
Import ListNotations.

Set Warnings "-inexact-float".
Local Open Scope float_scope.

(** ** C library functions on doubles *)

Module Dbl.

(** [fmin] and [fmax] of <cmath>: a NaN argument is treated as missing. *)
Definition fmin (x y : float) : float :=
  if is_nan x then y else if is_nan y then x else if y <? x then y else x.

Definition fmax (x y : float) : float :=
  if is_nan x then y else if is_nan y then x else if x <? y then y else x.

Definition fabs (x : float) : float := abs x.

(** Conversion [(double) n] of a non-negative [int]. *)
Definition of_int (n : nat) : float := of_uint63 (Uint63.of_Z (Z.of_nat n)).

(** [x > y] of C. *)
Definition gt (x y : float) : bool := y <? x.

End Dbl.

(** ** Small dense matrices ([mfem::DenseMatrix], [mfem::kernels])

    A [dim] x [dim] matrix is the function giving its entry [(i, j)]; entries
    outside [dim] x [dim] carry no meaning.  Sums accumulate from [0.0] in
    increasing index order, as the loops of [kernels::Mult] do. *)

Module DenseMatrix.

Definition t : Type := nat -> nat -> float.

(** [A = c] *)
Definition const (c : float) : t := fun _ _ => c.

(** [for (d = 0; d < dim; d++) A(d, d) = c] *)
Definition set_diag (dim : nat) (c : float) (A : t) : t :=
  fun i j => if (i =? j)%nat && (i <? dim)%nat then c else A i j.

(** [A.Add(c, B)]: [A(i,j) += c * B(i,j)] *)
Definition Add (c : float) (B A : t) : t := fun i j => A i j + c * B i j.

(** [kernels::Add(h, w, B, A)]: [A(i,j) += B(i,j)] *)
Definition plus (B A : t) : t := fun i j => A i j + B i j.

(** [A.Set(c, B)]: [A(i,j) = c * B(i,j)] *)
Definition Set_ (c : float) (B : t) : t := fun i j => c * B i j.

(** [A *= c] *)
Definition scale (c : float) (A : t) : t := fun i j => A i j * c.

(** [A.Symmetrize()], [kernels::Symmetrize]: an entry above the diagonal and
    its mirror image both become half the sum of the two, the upper entry
    being the first operand. *)
Definition Symmetrize (A : t) : t :=
  fun i j =>
    if (i =? j)%nat then A i j
    else if (i <? j)%nat then 0.5 * (A i j + A j i)
    else 0.5 * (A j i + A i j).

Definition sum (dim : nat) (f : nat -> float) : float :=
  fold_left (fun s k => s + f k) (seq 0 dim) 0.

(** [A.Trace()], and [Trace<H,W>] of the source: [t = 0.0; t += A(i,i)]. *)
Definition Trace (dim : nat) (A : t) : float := sum dim (fun i => A i i).

(** [mfem::Mult(B, C, A)]: [A = B * C]. *)
Definition Mult (dim : nat) (B C : t) : t :=
  fun i j => sum dim (fun k => B i k * C k j).

(** [MultABt(A, B, ABt)]: [ABt = A * B^T]. *)
Definition MultABt (dim : nat) (A B : t) : t :=
  fun i j => sum dim (fun k => A i k * B j k).

(** The identity as the kernels build it: zero, then [1.0] on the diagonal. *)
Definition identity (dim : nat) : t := set_diag dim 1 (const 0).

End DenseMatrix.

Definition Mat : Type := DenseMatrix.t.

(** ** Configuration of the operator (constructor arguments) *)

Record Config : Type := mkConfig {
  dim : nat;                (* pmesh->Dimension() *)
  NE : nat;                 (* pmesh->GetNE() *)
  order : nat;              (* H1.GetOrder(0) *)
  cfl : float;
  use_viscosity : bool;
  use_vorticity : bool;
  p_assembly : bool;
  source_type : Z
}.

(** [smooth_step_01]: smooth transition between 0 and 1 for x in [-eps, eps]. *)
Definition smooth_step_01 (x eps : float) : float :=
  let y := (x + eps) / (2.0 * eps) in
  if y <? 0.0 then 0.0
  else if Dbl.gt y 1.0 then 1.0
  else (3.0 - 2.0 * y) * y * y.

(** ** Data sampled at the quadrature points

    What the finite-element library returns at one quadrature point of one
    zone for the trial state: geometry of the reference-to-physical map at
    the current node positions, the fields of the state, and the results of
    the dense linear-algebra routines applied to them. *)

Record QPoint : Type := mkQPoint {
  detJ : float;        (* Jpr.Det(), kernels::Det<DIM>(J) *)
  Jinv : Mat;          (* CalcInverse(Jpr, Jinv) *)
  sv_min : float;      (* Jpr.CalcSingularvalue(dim-1) *)
  weight : float;      (* ir.IntPoint(q).weight, d_weights[q] *)
  rho0DetJ0w : float;  (* qdata.rho0DetJ0w(z_id*nqp + q) *)
  e_val : float;       (* e_vals(q), d_e_quads[eq] *)
  sgrad_v : Mat;       (* v.GetVectorGradient(T, sgrad_v) *)
  grad_v_ext : Mat;    (* d_grad_v_ext + DIM2*(NQ*e + q), reference gradient *)
  sxx : float; sxy : float; sxz : float;   (* sig.GetValues(z_id, ir, ., k) at q *)
  syy : float; syz : float; szz : float;
  grad_norm : float;   (* sgrad_v.FNorm() *)
  eig_val0 : float;    (* eig_val_data[0] after CalcEigenvalues *)
  ph_norm : float;     (* ph_dir.Norml2(), ph_dir = Jpr * Jac0inv * compr_dir *)
  compr_norm : float   (* compr_dir.Norml2() *)
}.

Record Zone : Type := mkZone {
  gamma : float;       (* gamma_gf(z_id) *)
  lambda : float;      (* lambda_gf(z_id) *)
  mu : float;          (* mu_gf(z_id) *)
  points : list QPoint
}.

(** The two flux tensors the kernel writes for one quadrature point:
    [qdata.stressJinvT(vd)(z_id*nqp + q, gd)] and
    [qdata.tauJinvT(vd)(z_id*nqp + q, gd)], as matrices in [(vd, gd)]. *)
Record PointFlux : Type := mkPointFlux {
  stressJiT : Mat;
  tauJiT : Mat
}.

(** [struct QuadratureData], the material-point cache.  The caches are
    indexed by zone, then by quadrature point. *)
Record QuadratureData : Type := mkQuadratureData {
  h0 : float;
  dt_est : float;
  flux : list (list PointFlux)
}.

(** The three diagnostics the full-assembly loop keeps in [old_stress[0..2]]:
    smallest [h_min], largest sound speed and largest viscous rate seen. *)
Record Diag : Type := mkDiag {
  d_hmin : float;      (* old_stress[0] *)
  d_cs : float;        (* old_stress[1] *)
  d_smooth : float     (* old_stress[2] *)
}.

(** ** The full-assembly kernel: [UpdateQuadratureData(S, dt)], 1D/FA mode *)

Module FA.
Section Kernel.

Variable cfg : Config.

(** [ComputeMaterialProperties], declared in the header: from
    [gamma_b, rho_b, e_b, pmod_b] at a point to [(p_b, cs_b)] there. *)
Variable ComputeMaterialProperties : float -> float -> float -> float -> float * float.

Definition rho_of (pt : QPoint) : float := rho0DetJ0w pt / detJ pt / weight pt.

Definition e_of (pt : QPoint) : float := Dbl.fmax 0.0 (e_val pt).

Definition pmod_of (z : Zone) : float := lambda z + 2 * mu z.

Definition material (z : Zone) (pt : QPoint) : float * float :=
  ComputeMaterialProperties (gamma z) (rho_of pt) (e_of pt) (pmod_of z).

Definition p_of (z : Zone) (pt : QPoint) : float := fst (material z pt).
Definition sound_speed_of (z : Zone) (pt : QPoint) : float := snd (material z pt).

(** First loop of a batch: [min_detJ = fmin(min_detJ, detJ)] over every
    quadrature point of every zone of the batch, from [+infinity]. *)
Definition zone_min_detJ (m : float) (z : Zone) : float :=
  fold_left (fun m pt => Dbl.fmin m (detJ pt)) (points z) m.

Definition batch_min_detJ (b : list Zone) : float :=
  fold_left zone_min_detJ b infinity.

(** Deviatoric stress components read from the state, by dimension. *)
Definition old_sig_of (pt : QPoint) : Mat :=
  match dim cfg with
  | 2%nat => fun i j =>
      match i, j with
      | 0%nat, 0%nat => sxx pt | 0%nat, 1%nat => sxy pt
      | 1%nat, 0%nat => sxy pt | 1%nat, 1%nat => syy pt
      | _, _ => 0
      end
  | 3%nat => fun i j =>
      match i, j with
      | 0%nat, 0%nat => sxx pt | 0%nat, 1%nat => sxy pt | 0%nat, 2%nat => sxz pt
      | 1%nat, 0%nat => sxy pt | 1%nat, 1%nat => syy pt | 1%nat, 2%nat => syz pt
      | 2%nat, 0%nat => sxz pt | 2%nat, 1%nat => syz pt | 2%nat, 2%nat => szz pt
      | _, _ => 0
      end
  | _ => DenseMatrix.const 0
  end.

Definition vorticity_coeff_of (pt : QPoint) : float :=
  if use_vorticity cfg then
    let div_v := Dbl.fabs (DenseMatrix.Trace (dim cfg) (sgrad_v pt)) in
    if Dbl.gt (grad_norm pt) 0.0 then div_v / grad_norm pt else 1.0
  else 1.0.

Definition srate_of (pt : QPoint) : Mat := DenseMatrix.Symmetrize (sgrad_v pt).

Definition spin_of (pt : QPoint) : Mat :=
  DenseMatrix.Add (-1.0) (srate_of pt) (sgrad_v pt).

(** Measure of maximal compression, [mu = eig_val_data[0]]. *)
Definition compression_of (pt : QPoint) : float :=
  if (dim cfg =? 1)%nat then sgrad_v pt 0%nat 0%nat else eig_val0 pt.

Definition visc_coeff_of (h0 : float) (z : Zone) (pt : QPoint) : float :=
  if use_viscosity cfg then
    let rho := rho_of pt in
    let sound_speed := sound_speed_of z pt in
    let h := h0 * ph_norm pt / compr_norm pt in
    let mu := compression_of pt in
    let visc_coeff := 2.0 * rho * h * h * Dbl.fabs mu in
    let eps := 1e-12 in
    visc_coeff + 0.5 * rho * h * sound_speed * vorticity_coeff_of pt *
                 (1.0 - smooth_step_01 (mu - 2.0 * eps) eps)
  else 0.0.

(** The matrix [stress] at the point, before the contraction with [Jinv]. *)
Definition stress_of (h0 : float) (z : Zone) (pt : QPoint) : Mat :=
  let stress := DenseMatrix.set_diag (dim cfg) 0 (DenseMatrix.const 0.0) in
  if use_viscosity cfg then
    DenseMatrix.Add 1.0 (old_sig_of pt)
      (DenseMatrix.Add (visc_coeff_of h0 z pt) (sgrad_v pt) stress)
  else stress.

(** The matrix [tau0] at the point, before the scaling by
    [rho * weight * detJ]. *)
Definition tau0_of (z : Zone) (pt : QPoint) : Mat :=
  let tau0 := DenseMatrix.const 0.0 in
  let tau1 := DenseMatrix.set_diag (dim cfg) 1.0 (DenseMatrix.const 0.0) in
  if use_viscosity cfg then
    let lame1 := lambda z in
    let lame2 := mu z in
    let srate := srate_of pt in
    let spin := spin_of pt in
    let old_sig := old_sig_of pt in
    let tau0 := DenseMatrix.Set_ (2 * lame2) srate in
    let tau1 :=
      DenseMatrix.Set_
        (2 * lame1 * DenseMatrix.Trace (dim cfg) srate / Dbl.of_int (dim cfg)) tau1 in
    let tau0 := DenseMatrix.Add 1.0 tau1 tau0 in
    let crot1 := DenseMatrix.Mult (dim cfg) old_sig spin in
    let crot2 := DenseMatrix.Mult (dim cfg) spin old_sig in
    let tau0 := DenseMatrix.Add 1.0 crot1 tau0 in
    DenseMatrix.Add (-1.0) crot2 tau0
  else tau0.

Definition h_min_of (pt : QPoint) : float := sv_min pt / Dbl.of_int (order cfg).

Definition inv_dt_of (h0 : float) (z : Zone) (pt : QPoint) : float :=
  let h_min := h_min_of pt in
  sound_speed_of z pt / h_min
  + 2.5 * visc_coeff_of h0 z pt / rho_of pt / h_min / h_min.

Definition smooth_of (h0 : float) (z : Zone) (pt : QPoint) : float :=
  let h_min := h_min_of pt in
  2.5 * visc_coeff_of h0 z pt / rho_of pt / h_min / h_min.

(** The local stable-step bound [cfl*(1.0/inv_dt)]. *)
Definition dt_local (h0 : float) (z : Zone) (pt : QPoint) : float :=
  cfl cfg * (1.0 / inv_dt_of h0 z pt).

(** Time step estimate at the point: the new value of [qdata.dt_est]. *)
Definition point_estimate (h0 min_detJ : float) (z : Zone) (pt : QPoint)
    (est : float) : float :=
  if min_detJ <? 0.0 then
    (* This will force repetition of the step with smaller dt. *)
    0.0
  else if Dbl.gt (inv_dt_of h0 z pt) 0.0 then
    Dbl.fmin est (dt_local h0 z pt)
  else est.

(** The same statement on [old_stress[0..2]]. *)
Definition point_diag (h0 min_detJ : float) (z : Zone) (pt : QPoint)
    (d : Diag) : Diag :=
  if min_detJ <? 0.0 then d
  else if Dbl.gt (inv_dt_of h0 z pt) 0.0 then
    mkDiag (Dbl.fmin (d_hmin d) (h_min_of pt))
           (Dbl.fmax (d_cs d) (sound_speed_of z pt))
           (Dbl.fmax (d_smooth d) (smooth_of h0 z pt))
  else d.

(** Quadrature data for partial assembly of the force operator. *)
Definition point_flux (h0 : float) (z : Zone) (pt : QPoint) : PointFlux :=
  let stressJiT := DenseMatrix.MultABt (dim cfg) (stress_of h0 z pt) (Jinv pt) in
  mkPointFlux
    (DenseMatrix.scale (weight pt * detJ pt) stressJiT)
    (DenseMatrix.scale (rho_of pt * weight pt * detJ pt) (tau0_of z pt)).

(** Second loop of a batch, over the points of one zone. *)
Definition zone_estimate (h0 min_detJ : float) (est : float) (z : Zone) : float :=
  fold_left (fun est pt => point_estimate h0 min_detJ z pt est) (points z) est.

Definition zone_diag (h0 min_detJ : float) (d : Diag) (z : Zone) : Diag :=
  fold_left (fun d pt => point_diag h0 min_detJ z pt d) (points z) d.

Definition zone_flux (h0 : float) (z : Zone) : list PointFlux :=
  map (point_flux h0 z) (points z).

Definition batch_estimate (h0 : float) (est : float) (b : list Zone) : float :=
  fold_left (zone_estimate h0 (batch_min_detJ b)) b est.

Definition batch_diag (h0 : float) (d : Diag) (b : list Zone) : Diag :=
  fold_left (zone_diag h0 (batch_min_detJ b)) b d.

(** Batches of [nzones_batch = 3] zones; the last batch might not be full. *)
Fixpoint batches (zs : list Zone) : list (list Zone) :=
  match zs with
  | z1 :: z2 :: z3 :: rest => [z1; z2; z3] :: batches rest
  | [] => []
  | _ => [zs]
  end.

(** The batched loop of [UpdateQuadratureData(S, dt)] over the zones sampled
    at the trial state. *)
Definition update (zones : list Zone) (qd : QuadratureData) (d : Diag)
    : QuadratureData * Diag :=
  (mkQuadratureData (h0 qd)
     (fold_left (batch_estimate (h0 qd)) (batches zones) (dt_est qd))
     (map (zone_flux (h0 qd)) zones),
   fold_left (batch_diag (h0 qd)) (batches zones) d).

End Kernel.
End FA.

(** ** The partial-assembly kernel: [QUpdateBody<DIM>] (variant with [dt])
    and [QUpdate::UpdateQuadratureData(S, qdata, dt)] *)

Module PA.
Section Kernel.

Variable cfg : Config.

(** Entry [k] of the column-major array of a matrix. *)
Definition flat (A : Mat) (k : nat) : float :=
  A (k mod dim cfg)%nat (k / dim cfg)%nat.

(** [SFNorm<H,W>] and [FNorm<H,W>] of the source. *)
Definition SFNorm (A : Mat) : float * float :=
  let hw := (dim cfg * dim cfg)%nat in
  let max_norm :=
    fold_left (fun m i => let entry := Dbl.fabs (flat A i) in
                          if Dbl.gt entry m then entry else m)
              (seq 0 hw) 0.0 in
  if max_norm =? 0.0 then (0.0, 0.0)
  else
    let fnorm2 :=
      fold_left (fun s i => let entry := flat A i / max_norm in s + entry * entry)
                (seq 0 hw) 0.0 in
    (max_norm, fnorm2).

Definition FNorm (A : Mat) : float :=
  let (s, n2) := SFNorm A in s * PrimFloat.sqrt n2.

Definition R_of (pt : QPoint) : float :=
  let inv_weight := 1.0 / weight pt in
  inv_weight * rho0DetJ0w pt / detJ pt.

Definition E_of (pt : QPoint) : float := Dbl.fmax 0.0 (e_val pt).

Definition P_of (z : Zone) (pt : QPoint) : float :=
  (gamma z - 1.0) * R_of pt * E_of pt.

Definition S_of (z : Zone) (pt : QPoint) : float :=
  PrimFloat.sqrt (gamma z * (gamma z - 1.0) * E_of pt).

(** [sgrad_v = dV * Jinv], before it is symmetrised. *)
Definition sgrad_v0 (pt : QPoint) : Mat :=
  DenseMatrix.Mult (dim cfg) (grad_v_ext pt) (Jinv pt).

Definition vorticity_coeff_of (pt : QPoint) : float :=
  if use_vorticity cfg then
    let grad_norm := FNorm (sgrad_v0 pt) in
    let div_v := Dbl.fabs (DenseMatrix.Trace (dim cfg) (sgrad_v0 pt)) in
    if Dbl.gt grad_norm 0.0 then div_v / grad_norm else 1.0
  else 1.0.

(** [sgrad_v] is now the (symmetric) strain rate. *)
Definition srate_of (pt : QPoint) : Mat := DenseMatrix.Symmetrize (sgrad_v0 pt).

Definition spin_of (pt : QPoint) : Mat :=
  DenseMatrix.Add (-1.0) (srate_of pt) (sgrad_v0 pt).

Definition compression_of (pt : QPoint) : float :=
  if (dim cfg =? 1)%nat then srate_of pt 0%nat 0%nat else eig_val0 pt.

Definition visc_coeff_of (h0 : float) (z : Zone) (pt : QPoint) : float :=
  if use_viscosity cfg then
    let R := R_of pt in
    let H := h0 * ph_norm pt / compr_norm pt in
    let mu := compression_of pt in
    let visc_coeff := 2.0 * R * H * H * Dbl.fabs mu in
    let eps := 1e-12 in
    visc_coeff + 0.5 * R * H * S_of z pt * vorticity_coeff_of pt *
                 (1.0 - smooth_step_01 (mu - 2.0 * eps) eps)
  else 0.0.

(** The array [stress]: [-P] on the diagonal, plus the viscous term. *)
Definition stress_of (h0 : float) (z : Zone) (pt : QPoint) : Mat :=
  let stress := DenseMatrix.set_diag (dim cfg) (- P_of z pt) (DenseMatrix.const 0.0) in
  if use_viscosity cfg then
    DenseMatrix.Add (visc_coeff_of h0 z pt) (srate_of pt) stress
  else stress.

(** The array [tau0].  It is a local of the caller that the body never
    clears: [stale] is what it holds on entry, of which only the diagonal is
    overwritten (with [1.0]). *)
Definition tau0_of (stale : Mat) (z : Zone) (pt : QPoint) : Mat :=
  let tau0 := DenseMatrix.set_diag (dim cfg) 1.0 stale in
  let d_mu := 1e-1 in
  let tau0 :=
    if use_viscosity cfg then
      let div_vel := DenseMatrix.Trace (dim cfg) (srate_of pt) in
      let tau0 := DenseMatrix.Set_ (-2 * d_mu * div_vel / 3) tau0 in
      let tau1 := DenseMatrix.Set_ (2 * d_mu) (srate_of pt) in
      DenseMatrix.plus tau1 tau0
    else tau0 in
  DenseMatrix.scale (R_of pt * weight pt * detJ pt) tau0.

Definition idt_of (h0 : float) (z : Zone) (pt : QPoint) : float :=
  let sv := sv_min pt in
  let h_min := sv / Dbl.of_int (order cfg) in
  let ih_min := 1.0 / h_min in
  let irho_ih_min_sq := ih_min * ih_min / R_of pt in
  S_of z pt * ih_min + 2.5 * visc_coeff_of h0 z pt * irho_ih_min_sq.

(** The entry [d_dt_est[eq]] after the body ran on point [eq]. *)
Definition point_estimate (h0 : float) (z : Zone) (pt : QPoint) (d : float) : float :=
  let min_detJ := Dbl.fmin infinity (detJ pt) in
  if min_detJ <? 0.0 then 0.0
  else if Dbl.gt (idt_of h0 z pt) 0.0 then
    let cfl_inv_dt := cfl cfg / idt_of h0 z pt in
    Dbl.fmin d cfl_inv_dt
  else d.

(** What the body writes to [d_stressJinvT] and [d_tauJinvT] at the point. *)
Definition point_flux (h0 : float) (stale : Mat) (z : Zone) (pt : QPoint) : PointFlux :=
  let stressJiT := DenseMatrix.MultABt (dim cfg) (stress_of h0 z pt) (Jinv pt) in
  let tau0 := tau0_of stale z pt in
  mkPointFlux
    (DenseMatrix.scale (weight pt * detJ pt) stressJiT)
    (DenseMatrix.const 0.0).

(** [Vector::Min()] of MFEM. *)
Definition Vector_Min (v : list float) : float :=
  match v with
  | [] => infinity
  | x :: rest => fold_left (fun m d => if d <? m then d else m) rest x
  end.

(** [QUpdate::UpdateQuadratureData(S, qdata, dt)]: every entry of
    [q_dt_est] starts at [qdata.dt_est]; the kernel runs on every point;
    [qdata.dt_est = q_dt_est.Min()]. *)
Definition update (stale : Mat) (zones : list Zone) (qd : QuadratureData)
    : QuadratureData :=
  let q_dt_est :=
    concat (map (fun z => map (fun pt => point_estimate (h0 qd) z pt (dt_est qd))
                              (points z)) zones) in
  mkQuadratureData (h0 qd) (Vector_Min q_dt_est)
    (map (fun z => map (point_flux (h0 qd) stale z) (points z)) zones).

End Kernel.
End PA.

(** ** State vectors *)

Definition Vector : Type := list float.

(** The monolithic [BlockVector], with the blocks of [block_offsets]:
    position, velocity, specific internal energy, stress. *)
Record BlockVector : Type := mkBlockVector {
  blk_x : Vector;
  blk_v : Vector;
  blk_e : Vector;
  blk_sig : Vector
}.

Definition zip_with (f : float -> float -> float) (a b : Vector) : Vector :=
  map (fun xy => f (fst xy) (snd xy)) (combine a b).

(** [rhs.Neg()] *)
Definition Neg (v : Vector) : Vector := map (fun x => - x) v.

(** [v = c] *)
Definition fill (c : float) (v : Vector) : Vector := map (fun _ => c) v.

(** [y.Add(a, x)]: [y[i] += a * x[i]], skipped when [a == 0.0]. *)
Definition Vector_Add (a : float) (x y : Vector) : Vector :=
  if a =? 0.0 then y else zip_with (fun yi xi => yi + a * xi) y x.

(** [y += x] *)
Definition Vector_plus (x y : Vector) : Vector := zip_with (fun yi xi => yi + xi) y x.

(** [add(v1, alpha, v2, v)]: [v = v1 + alpha * v2], with MFEM's shortcuts
    for [alpha == 0.0] and [alpha == 1.0]. *)
Definition add (v1 : Vector) (alpha : float) (v2 : Vector) : Vector :=
  if alpha =? 0.0 then v1
  else if alpha =? 1.0 then zip_with (fun a b => a + b) v1 v2
  else zip_with (fun a b => a + alpha * b) v1 v2.

Definition add_blocks (S0 : BlockVector) (alpha : float) (dS : BlockVector) : BlockVector :=
  mkBlockVector (add (blk_x S0) alpha (blk_x dS)) (add (blk_v S0) alpha (blk_v dS))
                (add (blk_e S0) alpha (blk_e dS)) (add (blk_sig S0) alpha (blk_sig dS)).

(** [MPI_Allreduce(&local, &glob, 1, MPI_DOUBLE, MPI_MIN, comm)]: the
    minimum of the value of this rank and of the values the other ranks
    contribute to the collective. *)
Definition MPI_Allreduce_MIN (local : float) (others : list float) : float :=
  fold_left Dbl.fmin others local.

(** ** The rate evaluator: [LagrangianHydroOperator] *)

(** The assembled force matrix [Force]: it is determined by the node
    coordinates and the stress cache it was assembled from. *)
Inductive ForceMatrix : Type :=
| Unassembled
| Assembled (nodes : Vector) (qd : QuadratureData).

(** The mutable members of the operator. *)
Record Oper : Type := mkOper {
  qdata : QuadratureData;
  qdata_is_current : bool;
  forcemat_is_assembled : bool;
  gmat_is_assembled : bool;
  nodes : Vector;          (* the mesh nodes, aliased by x_gf *)
  Force : ForceMatrix;
  old_stress : Diag;
  quad_tstep : Z           (* timer.quad_tstep *)
}.

(** Collaborators outside the repository. *)
Record Collaborators : Type := mkCollaborators {
  (* equation of state of the header: (gamma, rho, e, pmod) to (p, cs) *)
  ComputeMaterialProperties : float -> float -> float -> float -> float * float;
  (* sampling of the mesh (at its current node coordinates) and of the trial
     state at the quadrature points, for the full-assembly loop *)
  sample : Vector -> BlockVector -> list Zone;
  (* sampling through the quadrature interpolators of QUpdate, which read
     the node coordinates from the state itself *)
  sample_PA : BlockVector -> list Zone;
  (* content of the caller's local array tau0 when QUpdateBody starts *)
  tau0_stale : Mat;
  (* Force.Mult, Force.MultTranspose, ForcePA->Mult, ForcePA->MultTranspose *)
  Force_Mult : ForceMatrix -> Vector -> Vector;
  Force_MultTranspose : ForceMatrix -> Vector -> Vector;
  ForcePA_Mult : Vector -> QuadratureData -> Vector -> Vector;
  ForcePA_MultTranspose : Vector -> QuadratureData -> Vector -> Vector;
  (* velocity mass solves: FormLinearSystem, CG, RecoverFEMSolution; and the
     component loop of the partial-assembly branch *)
  Mv_solve : Vector -> Vector;
  VMassPA_solve : Vector -> Vector -> Vector;
  (* sources: Mv_spmat_copy.Mult(accel_src_gf, .) and the Taylor-Green form *)
  accel_rhs : Vector -> Vector;
  e_source : Vector -> Vector;
  (* energy mass solves: CG_EMass.Mult and the loop of Me_inv(e).Mult *)
  CG_EMass_Mult : Vector -> Vector;
  Me_inv_Mult : Vector -> Vector;
  (* stress-rate projection: SigmaIntegrator, Me_inv(e).Mult, SetSubVector *)
  Sigma_solve : Vector -> QuadratureData -> Vector -> Vector;
  (* ResetQuadratureData(), an inline member of the header *)
  ResetQuadratureData : Oper -> Oper;
  (* size of the vector one *)
  L2Vsize : nat
}.

(** Members of [RK2AvgSolver]: the work vectors [V], [dS_dt] and [S0]. *)
Record RK2Avg : Type := mkRK2Avg {
  rk_V : Vector;
  rk_dS_dt : BlockVector;
  rk_S0 : BlockVector
}.

(** The result of [RK2AvgSolver::Step(S, t, dt)]. *)
Record Stepped : Type := mkStepped {
  st_oper : Oper;
  st_solver : RK2Avg;
  st_S : BlockVector;
  st_t : float
}.

(** [Getdamping(S, _v_damping)], on the velocity block [v] of [S]. *)
Fixpoint Getdamping (v : Vector) (_v_damping : Vector) : Vector :=
  match v, _v_damping with
  | vi :: v', d :: ds =>
      (if 0 <=? vi then 0.00 * Dbl.fabs d else -0.00 * Dbl.fabs d)
        :: Getdamping v' ds
  | _, _ => _v_damping
  end.

(** The force residual of the full-assembly branch of [SolveVelocity], from
    [v_damping = 0.0] up to and including [rhs.Add(-1.0, v_damping)]. *)
Definition damped_rhs (S : BlockVector) (rhs : Vector) : Vector :=
  let v_damping := fill 0.0 rhs in
  let v_damping := Vector_Add 1.0 rhs v_damping in
  let v_damping := Getdamping (blk_v S) v_damping in
  Vector_Add (-1.0) v_damping rhs.

Module Hydro.
Section Operator.

Variable cfg : Config.
Variable mf : Collaborators.

(** The vector [one], all entries [1.0]. *)
Definition one : Vector := repeat 1.0 (L2Vsize mf).

Definition set_qdata (qd : QuadratureData) (op : Oper) : Oper :=
  mkOper qd (qdata_is_current op) (forcemat_is_assembled op) (gmat_is_assembled op)
         (nodes op) (Force op) (old_stress op) (quad_tstep op).

Definition set_current (b : bool) (op : Oper) : Oper :=
  mkOper (qdata op) b (forcemat_is_assembled op) (gmat_is_assembled op)
         (nodes op) (Force op) (old_stress op) (quad_tstep op).

(** [UpdateMesh(S)]: the mesh nodes are redirected to the position block. *)
Definition UpdateMesh (S : BlockVector) (op : Oper) : Oper :=
  mkOper (qdata op) (qdata_is_current op) (forcemat_is_assembled op)
         (gmat_is_assembled op) (blk_x S) (Force op) (old_stress op) (quad_tstep op).

(** The recomputation of [UpdateQuadratureData(S, dt)], once the freshness
    test has failed. *)
Definition refresh (S : BlockVector) (dt : float) (op : Oper) : Oper :=
  if (1 <? dim cfg)%nat && p_assembly cfg then
    mkOper (PA.update cfg (tau0_stale mf) (sample_PA mf S) (qdata op))
           true false false (nodes op) (Force op) (old_stress op)
           (quad_tstep op + Z.of_nat (NE cfg))
  else
    let (qd, d) := FA.update cfg (ComputeMaterialProperties mf)
                             (sample mf (nodes op) S) (qdata op) (old_stress op) in
    mkOper qd true false false (nodes op) (Force op) d
           (quad_tstep op + Z.of_nat (NE cfg)).

(** [UpdateQuadratureData(S, dt)] *)
Definition UpdateQuadratureData (S : BlockVector) (dt : float) (op : Oper) : Oper :=
  if qdata_is_current op then op else refresh S dt op.

(** [AssembleForceMatrix()] *)
Definition AssembleForceMatrix (op : Oper) : Oper :=
  if forcemat_is_assembled op || p_assembly cfg then op
  else
    mkOper (qdata op) (qdata_is_current op) true (gmat_is_assembled op)
           (nodes op) (Assembled (nodes op) (qdata op)) (old_stress op)
           (quad_tstep op).

Definition velocity_rhs (S : BlockVector) (op : Oper) : Vector :=
  let rhs := Neg (Force_Mult mf (Force op) one) in
  let rhs := damped_rhs S rhs in
  if (source_type cfg =? 2)%Z then Vector_plus (accel_rhs mf (nodes op)) rhs else rhs.

(** [SolveVelocity(S, dS_dt, dt)] *)
Definition SolveVelocity (S dS_dt : BlockVector) (dt : float) (op : Oper)
    : Oper * BlockVector :=
  let op := UpdateQuadratureData S dt op in
  let op := AssembleForceMatrix op in
  let dv :=
    if p_assembly cfg then
      VMassPA_solve mf (nodes op) (Neg (ForcePA_Mult mf (nodes op) (qdata op) one))
    else Mv_solve mf (velocity_rhs S op) in
  (op, mkBlockVector (blk_x dS_dt) dv (blk_e dS_dt) (blk_sig dS_dt)).

(** [SolveEnergy(S, v, dS_dt, dt)] *)
Definition SolveEnergy (S : BlockVector) (v : Vector) (dS_dt : BlockVector)
    (dt : float) (op : Oper) : Oper * BlockVector :=
  let op := UpdateQuadratureData S dt op in
  let op := AssembleForceMatrix op in
  let with_source (e_rhs : Vector) : Vector :=
    if (source_type cfg =? 1)%Z then Vector_plus (e_source mf (nodes op)) e_rhs
    else e_rhs in
  let de :=
    if p_assembly cfg then
      CG_EMass_Mult mf (with_source (ForcePA_MultTranspose mf (nodes op) (qdata op) v))
    else Me_inv_Mult mf (with_source (Force_MultTranspose mf (Force op) v)) in
  (op, mkBlockVector (blk_x dS_dt) (blk_v dS_dt) de (blk_sig dS_dt)).

(** [SolveStress(S, dS_dt, dt)] *)
Definition SolveStress (S dS_dt : BlockVector) (dt : float) (op : Oper)
    : Oper * BlockVector :=
  let op := UpdateQuadratureData S dt op in
  let dsig :=
    if ((dim cfg =? 2) || (dim cfg =? 3))%nat then
      Sigma_solve mf (nodes op) (qdata op) (blk_sig dS_dt)
    else blk_sig dS_dt in
  (op, mkBlockVector (blk_x dS_dt) (blk_v dS_dt) (blk_e dS_dt) dsig).

(** [Mult(S, dS_dt, dt)] *)
Definition Mult (S dS_dt : BlockVector) (dt : float) (op : Oper)
    : Oper * BlockVector :=
  let op := UpdateMesh S op in
  let v := blk_v S in
  (* Set dx_dt = v (explicit). *)
  let dS_dt := mkBlockVector v (blk_v dS_dt) (blk_e dS_dt) (blk_sig dS_dt) in
  let (op, dS_dt) := SolveVelocity S dS_dt dt op in
  let (op, dS_dt) := SolveEnergy S v dS_dt dt op in
  (set_current false op, dS_dt).

(** [GetTimeStepEstimate(S, dt)]; [others] are the estimates the other
    ranks bring to the reduction. *)
Definition GetTimeStepEstimate (S : BlockVector) (dt : float) (others : list float)
    (op : Oper) : Oper * float :=
  let op := UpdateMesh S op in
  let op := UpdateQuadratureData S dt op in
  (op, MPI_Allreduce_MIN (dt_est (qdata op)) others).

(** [ResetTimeStepEstimate()] *)
Definition ResetTimeStepEstimate (op : Oper) : Oper :=
  set_qdata (mkQuadratureData (h0 (qdata op)) infinity (flux (qdata op))) op.

(** One stage of [RK2AvgSolver::Step]: the velocity solve at [S], the
    half-step velocity [V = v0 + 0.5 * dt * dv_dt], the energy and stress
    solves, [dx_dt = V]. *)
Definition stage (v0 : Vector) (S dS_dt : BlockVector) (dt : float) (op : Oper)
    : Oper * Vector * BlockVector :=
  let op := UpdateMesh S op in
  let (op, dS_dt) := SolveVelocity S dS_dt dt op in
  let V := add v0 (0.5 * dt) (blk_v dS_dt) in
  let (op, dS_dt) := SolveEnergy S V dS_dt dt op in
  let (op, dS_dt) := SolveStress S dS_dt dt op in
  (op, V, mkBlockVector V (blk_v dS_dt) (blk_e dS_dt) (blk_sig dS_dt)).

(** [RK2AvgSolver::Step(S, t, dt)] *)
Definition RK2AvgSolver_Step (rk : RK2Avg) (op : Oper) (S : BlockVector)
    (t dt : float) : Stepped :=
  let S0 := S in
  let v0 := blk_v S0 in
  (* -- 1. S is S0. *)
  let '(op, V, dS_dt) := stage v0 S (rk_dS_dt rk) dt op in
  (* -- 2. S = S0 + 0.5 * dt * dS_dt *)
  let S := add_blocks S0 (0.5 * dt) dS_dt in
  let op := ResetQuadratureData mf op in
  let '(op, V, dS_dt) := stage v0 S dS_dt dt op in
  (* -- 3. S = S0 + dt * dS_dt. *)
  let S := add_blocks S0 dt dS_dt in
  let op := ResetQuadratureData mf op in
  mkStepped op (mkRK2Avg V dS_dt S0) S (t + dt).

End Operator.
End Hydro.

(** ** The adaptive step driver: the time loop of [main]

    [main] of laghost.cpp builds its operator [geo] as a
    [geodynamics::LagrangianGeoOperator], declared in [laghost_solver.hpp],
    and picks [ode_solver] by [ode_solver_type] among the explicit solvers
    of MFEM and the [RK2AvgSolver] of that header.  The header, and the
    headers of [Returnmapping], [HR_adaptivity] and [Remapping], are not
    among the sources (the operator of laghos_solver.cpp is of another class
    and is not the one [main] runs).  The members of the two objects and
    these routines are therefore parameters of the loop: each is a function
    of the objects and of the vectors it is handed, and returns those it can
    write.  The mesh nodes
    alias the position block of [S]: a member that is handed [S] sees the
    nodes [S] holds at that moment.  [int] counters are integers; the loop
    never brings them near the bounds of the type. *)

(** Checkpoint output: [SetCycle(cycle); SetTime(time); Save()] on the VisIt
    or on the ParaView data collection. *)
Inductive Output : Type :=
| VisitSave (cycle : Z) (time : float)
| ParaviewSave (cycle : Z) (time : float).

Record Params : Type := mkParams {
  t_final : float;             (* param.sim.t_final *)
  max_tsteps : Z;              (* param.sim.max_tsteps *)
  visit : bool;                (* param.sim.visit *)
  paraview : bool;             (* param.sim.paraview *)
  plastic : bool;              (* param.mat.plastic *)
  winkler_foundation : bool;   (* param.control.winkler_foundation *)
  winkler_flat : bool;         (* param.control.winkler_flat *)
  tmop : bool;                 (* param.tmop.tmop *)
  remesh_steps : Z;            (* param.tmop.remesh_steps, not zero *)
  time_reduction : float;      (* param.tmop.time_reduction *)
  amr : bool                   (* param.tmop.amr *)
}.

(** The state vector [S] of [main], with the five blocks of [offset]: the
    grid functions [x_gf], [v_gf], [e_gf], [s_gf] and [x_ini_gf] refer to
    them. *)
Record MainState : Type := mkMainState {
  x_gf : Vector;
  v_gf : Vector;
  e_gf : Vector;
  s_gf : Vector;
  x_ini_gf : Vector
}.

(** The fields a rollback restores: [S], [p_gf] and [ini_p_gf]. *)
Record Fields : Type := mkFields {
  f_S : MainState;
  f_p_gf : Vector;
  f_ini_p_gf : Vector
}.

(** The variables of the time loop.  [objects] stands for [geo],
    [ode_solver], the mesh, the finite element spaces and the grid functions
    that are not listed: the data only these classes and MFEM read. *)
Record Loop (Objects : Type) : Type := mkLoop {
  objects : Objects;
  cur : Fields;            (* S, p_gf, ini_p_gf *)
  old : Fields;            (* S_old, p_gf_old, ini_p_old_gf *)
  n_p_gf : Vector;
  flattening : Vector;
  t : float;
  dt : float;
  t_old : float;
  dt_old : float;
  h_min : float;
  itime : float;
  ti : Z;
  steps : Z;
  last_step : bool;
  mesh_changed : bool;
  saved : list Output      (* checkpoints written so far, oldest first *)
}.

Arguments mkLoop {Objects}.
Arguments objects {Objects}.
Arguments cur {Objects}.
Arguments old {Objects}.
Arguments n_p_gf {Objects}.
Arguments flattening {Objects}.
Arguments t {Objects}.
Arguments dt {Objects}.
Arguments t_old {Objects}.
Arguments dt_old {Objects}.
Arguments h_min {Objects}.
Arguments itime {Objects}.
Arguments ti {Objects}.
Arguments steps {Objects}.
Arguments last_step {Objects}.
Arguments mesh_changed {Objects}.
Arguments saved {Objects}.

(** How one pass through the body of the loop ends at the time step control. *)
Inductive Outcome (Objects : Type) : Type :=
| Aborted (l : Loop Objects)       (* MFEM_ABORT("The time step crashed!") *)
| Repeated (l : Loop Objects)      (* ti--; continue; *)
| Accepted (l : Loop Objects).     (* the body goes on with the accepted step *)

Arguments Aborted {Objects}.
Arguments Repeated {Objects}.
Arguments Accepted {Objects}.

Module Driver.

(** The variables [TMOPUpdate] receives by reference and writes. *)
Record Refs (Objects : Type) : Type := mkRefs {
  r_objects : Objects;     (* the spaces and the other grid functions *)
  r_cur : Fields;          (* S, p_gf, ini_p_gf *)
  r_S_old : MainState;     (* S_old *)
  r_n_p_gf : Vector;
  r_flattening : Vector
}.

Arguments mkRefs {Objects}.
Arguments r_objects {Objects}.
Arguments r_cur {Objects}.
Arguments r_S_old {Objects}.
Arguments r_n_p_gf {Objects}.
Arguments r_flattening {Objects}.

(** The code [main] calls whose effect the sources do not fix: members of
    the operator and of the solver, routines of absent headers, and code
    made of calls of MFEM. *)
Record Members (Objects : Type) : Type := mkMembers {
  (* geo.ResetTimeStepEstimate() *)
  ResetTimeStepEstimate : Objects -> Objects;
  (* ode_solver->Step(S, t, dt): S, t and dt go by reference *)
  Step : Objects -> MainState -> float -> float
         -> Objects * MainState * float * float;
  (* geo.GetTimeStepEstimate(S, dt), the reduction over the ranks included *)
  GetTimeStepEstimate : Objects -> MainState -> float -> Objects * float;
  (* geo.GetLengthEstimate(S, dt) *)
  GetLengthEstimate : Objects -> MainState -> float -> Objects * float;
  (* geo.ResetQuadratureData() *)
  ResetQuadratureData : Objects -> Objects;
  (* geo.TMOPUpdate(S, flag) *)
  geo_TMOPUpdate : Objects -> MainState -> bool -> Objects * MainState;
  (* ode_solver->Init(geo) *)
  Init : Objects -> Objects;
  (* Returnmapping(s_gf, s_old_gf, p_gf, mat_gf, ..., dt_old): from the
     objects, s_gf, p_gf and dt_old *)
  Returnmapping : Objects -> Vector -> Vector -> float
                  -> Objects * Vector * Vector;
  (* the body of the remeshing branch from HR_adaptivity to the
     interpolation of v_gf and u_gf: the mesh optimiser, the blend of the
     nodes, Remapping and FindPointsGSLIB *)
  remesh : Objects -> Fields -> Objects * Fields;
  (* TMOPUpdate(S, S_old, offset, ...) of laghost.cpp: but for the offsets
     (Layout.main_offset) and for S_old = S, which precedes the resizing,
     its body is MFEM's Update of the spaces, of the block vectors, of the
     grid functions and of the linear form *)
  TMOPUpdate : Refs Objects -> Refs Objects;
  (* pmesh->Rebalance() *)
  Rebalance : Objects -> Objects
}.

Arguments mkMembers {Objects}.
Arguments ResetTimeStepEstimate {Objects}.
Arguments Step {Objects}.
Arguments GetTimeStepEstimate {Objects}.
Arguments GetLengthEstimate {Objects}.
Arguments ResetQuadratureData {Objects}.
Arguments geo_TMOPUpdate {Objects}.
Arguments Init {Objects}.
Arguments Returnmapping {Objects}.
Arguments remesh {Objects}.
Arguments TMOPUpdate {Objects}.
Arguments Rebalance {Objects}.

(** [for i < x_gf.Size(): if(flattening[i] > 0.0){x_gf[i] = x_ini_gf[i];}];
    the three vectors have the size of the kinematic space. *)
Fixpoint flatten (flattening x x_ini : Vector) : Vector :=
  match x, flattening, x_ini with
  | xi :: x', f :: fs, ini :: inis =>
      (if Dbl.gt f 0.0 then ini else xi) :: flatten fs x' inis
  | _, _, _ => x
  end.

Section TimeLoop.

Variable Objects : Type.
Variable mem : Members Objects.
Variable param : Params.


(** Head of the body: clipping of the final step, the snapshot, the reset
    of the running estimate. *)
Definition begin_step (l : Loop Objects) : Loop Objects :=
  let clip := t_final param <=? t l + dt l in
  let dt1 := if clip then t_final param - t l else dt l in
  let last1 := if clip then true else last_step l in
  let last2 := if (steps l =? max_tsteps param)%Z then true else last1 in
  mkLoop (ResetTimeStepEstimate mem (objects l))
         (cur l) (cur l) (n_p_gf l) (flattening l)
         (t l) dt1 (t l) (dt_old l) (h_min l)
         (if (ti l =? 50000)%Z then dt1 else itime l)
         (ti l) (steps l) last2 (mesh_changed l) (saved l).

(** [ode_solver->Step(S, t, dt)] *)
Definition trial_step (l : Loop Objects) : Loop Objects :=
  let '(o, S1, t1, dt1) := Step mem (objects l) (f_S (cur l)) (t l) (dt l) in
  mkLoop o (mkFields S1 (f_p_gf (cur l)) (f_ini_p_gf (cur l))) (old l)
         (n_p_gf l) (flattening l)
         t1 dt1 (t_old l) (dt_old l) (h_min l) (itime l)
         (ti l) (steps l) (last_step l) (mesh_changed l) (saved l).

(** [if(param.mat.plastic) { Returnmapping(...); n_p_gf = ini_p_gf;
    n_p_gf -= p_gf; n_p_gf.Neg(); }] *)
Definition plastic_update (l : Loop Objects) : Loop Objects :=
  if plastic param then
    let S := f_S (cur l) in
    let '(o, s, p) :=
      Returnmapping mem (objects l) (s_gf S) (f_p_gf (cur l)) (dt_old l) in
    let ini_p := f_ini_p_gf (cur l) in
    mkLoop o
           (mkFields (mkMainState (x_gf S) (v_gf S) (e_gf S) s (x_ini_gf S))
                     p ini_p)
           (old l)
           (Neg (zip_with (fun a b => a - b) ini_p p)) (flattening l)
           (t l) (dt l) (t_old l) (dt_old l) (h_min l) (itime l)
           (ti l) (steps l) (last_step l) (mesh_changed l) (saved l)
  else l.

(** [if(param.control.winkler_foundation & param.control.winkler_flat)]: the
    nodes the linear form [flattening] marks go back to where they
    started. *)
Definition flatten_update (l : Loop Objects) : Loop Objects :=
  if winkler_foundation param && winkler_flat param then
    let S := f_S (cur l) in
    mkLoop (objects l)
           (mkFields (mkMainState (flatten (flattening l) (x_gf S) (x_ini_gf S))
                                  (v_gf S) (e_gf S) (s_gf S) (x_ini_gf S))
                     (f_p_gf (cur l)) (f_ini_p_gf (cur l)))
           (old l) (n_p_gf l) (flattening l)
           (t l) (dt l) (t_old l) (dt_old l) (h_min l) (itime l)
           (ti l) (steps l) (last_step l) (mesh_changed l) (saved l)
  else l.

(** [(ti % param.tmop.remesh_steps) == 0 ||
     (dt / itime) < param.tmop.time_reduction] *)
Definition remesh_due (l : Loop Objects) : bool :=
  (Z.rem (ti l) (remesh_steps param) =? 0)%Z
  || (dt l / itime l <? time_reduction param).

(** The checkpoints saved before the mesh is optimised, between [ti = ti-1]
    and [ti = ti+1]. *)
Definition remesh_output (l : Loop Objects) : list Output :=
  (if visit param then [VisitSave (ti l - 1)%Z (t l * 0.995)] else [])
  ++ (if paraview param then [ParaviewSave (ti l - 1)%Z (t l * 0.995)] else []).

(** The body of [if (mesh_changed & param.tmop.amr)]: [TMOPUpdate],
    [geo.TMOPUpdate(S, true)], [pmesh->Rebalance()], [TMOPUpdate],
    [geo.TMOPUpdate(S, false)], [ode_solver->Init(geo)].  [p_gf_old] and
    [ini_p_old_gf] are not handed to [TMOPUpdate]. *)
Definition amr_update (l : Loop Objects) : Loop Objects :=
  let r1 := TMOPUpdate mem (mkRefs (objects l) (cur l) (f_S (old l))
                                   (n_p_gf l) (flattening l)) in
  let (o2, S2) := geo_TMOPUpdate mem (r_objects r1) (f_S (r_cur r1)) true in
  let o3 := Rebalance mem o2 in
  let r4 := TMOPUpdate mem
              (mkRefs o3 (mkFields S2 (f_p_gf (r_cur r1)) (f_ini_p_gf (r_cur r1)))
                      (r_S_old r1) (r_n_p_gf r1) (r_flattening r1)) in
  let (o5, S5) := geo_TMOPUpdate mem (r_objects r4) (f_S (r_cur r4)) false in
  let o6 := Init mem o5 in
  mkLoop o6 (mkFields S5 (f_p_gf (r_cur r4)) (f_ini_p_gf (r_cur r4)))
         (mkFields (r_S_old r4) (f_p_gf (old l)) (f_ini_p_gf (old l)))
         (r_n_p_gf r4) (r_flattening r4)
         (t l) (dt l) (t_old l) (dt_old l) (h_min l) (itime l)
         (ti l) (steps l) (last_step l) (mesh_changed l) (saved l).

(** [if (param.tmop.tmop) { if (...) { ... } }]: the remeshing branch. *)
Definition remesh_update (l : Loop Objects) : Loop Objects :=
  if tmop param && remesh_due l then
    let (o, f) := remesh mem (objects l) (cur l) in
    let l1 := mkLoop o f (old l) (n_p_gf l) (flattening l)
                     (t l) (dt l) (t_old l) (dt_old l) (h_min l) (itime l)
                     (ti l) (steps l) (last_step l)
                     true                        (* mesh_changed = true *)
                     (saved l ++ remesh_output l) in
    if mesh_changed l1 && amr param then amr_update l1 else l1
  else l.

(** Plasticity, flattening and remeshing of the stepped fields. *)
Definition material_update (l : Loop Objects) : Loop Objects :=
  remesh_update (flatten_update (plastic_update l)).

(** Checkpoints flushed before the abort. *)
Definition crash_output (l : Loop Objects) : list Output :=
  (if visit param then [VisitSave (ti l) (t l)] else [])
  ++ (if paraview param then [ParaviewSave (ti l) (t l)] else []).

(** Adaptive time step control, from [steps++]. *)
Definition time_step_control (l : Loop Objects) : Outcome Objects :=
  let steps1 := (steps l + 1)%Z in
  let dt_old1 := dt l in
  let (o1, dt_est) := GetTimeStepEstimate mem (objects l) (f_S (cur l)) (dt l) in
  let (o2, h_min1) := GetLengthEstimate mem o1 (f_S (cur l)) (dt l) in
  if mesh_changed l then
    Accepted (mkLoop o2 (cur l) (old l) (n_p_gf l) (flattening l)
                     (t l) (dt l) (t_old l)
                     dt_old1 h_min1 (itime l) (ti l) steps1 (last_step l) false
                     (saved l))
  else if dt_est <? dt l then
    (* Repeat (solve again) with a decreased time step *)
    let dt1 := dt l * 0.50 in
    if dt1 <? 1.0E-38 then
      Aborted (mkLoop o2 (cur l) (old l) (n_p_gf l) (flattening l)
                      (t l) dt1 (t_old l)
                      dt_old1 h_min1 (itime l) (ti l) steps1 (last_step l) false
                      (saved l ++ crash_output l))
    else
      Repeated (mkLoop (ResetQuadratureData mem o2)
                       (old l) (old l) (n_p_gf l) (flattening l)
                       (t_old l) dt1 (t_old l)
                       dt_old1 h_min1 (itime l) (ti l - 1)%Z steps1
                       (if (steps1 <? max_tsteps param)%Z then false else last_step l)
                       false (saved l))
  else if Dbl.gt dt_est (1.25 * dt l) then
    Accepted (mkLoop o2 (cur l) (old l) (n_p_gf l) (flattening l)
                     (t l) (dt l * 1.02) (t_old l)
                     dt_old1 h_min1 (itime l) (ti l) steps1 (last_step l) false
                     (saved l))
  else
    Accepted (mkLoop o2 (cur l) (old l) (n_p_gf l) (flattening l)
                     (t l) (dt l) (t_old l)
                     dt_old1 h_min1 (itime l) (ti l) steps1 (last_step l) false
                     (saved l)).

(** The increment [ti++] of the [for] statement. *)
Definition next_index (l : Loop Objects) : Loop Objects :=
  mkLoop (objects l) (cur l) (old l) (n_p_gf l) (flattening l)
         (t l) (dt l) (t_old l)
         (dt_old l) (h_min l) (itime l) (ti l + 1)%Z (steps l) (last_step l)
         (mesh_changed l) (saved l).

(** One pass through the loop, up to the time step control and, for a
    repeated step, through [continue] and the increment of the [for]. *)
Definition iteration (l : Loop Objects) : Outcome Objects :=
  match time_step_control (material_update (trial_step (begin_step l))) with
  | Aborted l' => Aborted l'
  | Repeated l' => Repeated (next_index l')
  | Accepted l' => Accepted l'
  end.

End TimeLoop.

Arguments begin_step {Objects}.
Arguments trial_step {Objects}.
Arguments plastic_update {Objects}.
Arguments flatten_update {Objects}.
Arguments remesh_due {Objects}.
Arguments remesh_output {Objects}.
Arguments amr_update {Objects}.
Arguments remesh_update {Objects}.
Arguments material_update {Objects}.
Arguments crash_output {Objects}.
Arguments time_step_control {Objects}.
Arguments next_index {Objects}.
Arguments iteration {Objects}.

End Driver.

(** ** Index arithmetic of the kernels and layout of the state vector

    [int] indices, counts and sizes are integers: the program keeps them far
    from the bounds of the type. *)

Module Layout.

(** The loop over batches of [UpdateQuadratureData(S, dt)], 1D/FA mode, on
    the values [bs] that [b] still has to take and on the current value of
    the variable [nzones_batch]: for every batch that runs, [z_id] at its
    start and the [nzones_batch] it runs with.  [NE - z_id] is evaluated
    when [z_id + nzones_batch > NE]; were it negative the batch would run no
    zone, as it does here with [0]. *)
Fixpoint batch_loop (NE : nat) (bs : list nat) (nzones_batch : nat)
    : list (nat * nat) :=
  match bs with
  | [] => []
  | b :: bs' =>
      let z_id := (b * nzones_batch)%nat in
      (* The last batch might not be full. *)
      if (z_id =? NE)%nat then []
      else
        let nzones_batch :=
          if (NE <? z_id + nzones_batch)%nat then (NE - z_id)%nat
          else nzones_batch in
        (z_id, nzones_batch) :: batch_loop NE bs' nzones_batch
  end.

Definition zone_batches (NE : nat) : list (nat * nat) :=
  let nzones_batch := 3%nat in
  let nbatches := (NE / nzones_batch + 1)%nat in
  batch_loop NE (seq 0 nbatches) nzones_batch.

(** The zones one batch visits in each of its two loops: [z_id], then
    [++z_id] after every zone. *)
Definition batch_ids (b : nat * nat) : list nat := seq (fst b) (snd b).

(** The zones of one batch, out of the zones of the mesh. *)
Definition batch_zones {A : Type} (zones : list A) (b : nat * nat) : list A :=
  firstn (snd b) (skipn (fst b) zones).

(** [QKernel<DIM,Q1D>]: the point index handed to [QUpdateBody] by the
    thread [(qx, qy)], respectively [(qx, qy, qz)]. *)
Definition q_2D (Q1D qx qy : Z) : Z := (qx + qy * Q1D)%Z.

Definition q_3D (Q1D qx qy qz : Z) : Z := (qx + Q1D * (qy + qz * Q1D))%Z.

(** [QUpdateBody]: [eq = e * NQ + q], the entry of [d_dt_est] the body
    writes, and [offset = eq + NQ*NE*(gd + vd*DIM)], the entry of
    [d_stressJinvT] and of [d_tauJinvT] it writes for [(vd, gd)]. *)
Definition eq_index (NQ e q : Z) : Z := (e * NQ + q)%Z.

Definition flux_offset (DIM NE NQ eq gd vd : Z) : Z :=
  (eq + NQ * NE * (gd + vd * DIM))%Z.

(** [SolveStress]: the number of rate components it solves for, and the
    entry [dof_loc<c+1>[i] = i + (e + c*NE)*dof_loc1.Size()] of [dsig] that
    receives entry [i] of component [c] on zone [e]. *)
Definition stress_rate_components (dim : Z) : Z :=
  if (dim =? 2)%Z then 4%Z else if (dim =? 3)%Z then 9%Z else 0%Z.

Definition dof_loc (NE size c e i : Z) : Z := (i + (e + c * NE) * size)%Z.

(** [dsig.MakeRef(&L2_2, dS_dt, H1Vsize*2 + L2Vsize)] *)
Definition dsig_base (H1Vsize L2Vsize : Z) : Z := (H1Vsize * 2 + L2Vsize)%Z.

(** The array [offset], which lays out the state vector [S] of [main]:
    position, velocity, specific internal energy, stress, initial position.
    [main] fills it, and [TMOPUpdate] refills it, by this formula; [dim] is
    the value the variable [dim] holds where the formula is evaluated (in
    [main] the dimension of the mesh, in [TMOPUpdate] its argument). *)
Definition main_offset (dim Vsize_h1 Vsize_l2 : Z) : list Z :=
  let o0 := 0%Z in
  let o1 := (o0 + Vsize_h1)%Z in
  let o2 := (o1 + Vsize_h1)%Z in
  let o3 := (o2 + Vsize_l2)%Z in
  let o4 := (o3 + Vsize_l2 * 3 * (dim - 1))%Z in
  let o5 := (o4 + Vsize_h1)%Z in
  [o0; o1; o2; o3; o4; o5].

(** The array [block_offsets] of the operator, which lays out the vectors
    [dS_dt] and [S0] of [RK2AvgSolver::Init]. *)
Definition block_offsets (dim H1Vsize L2Vsize : Z) : list Z :=
  let b0 := 0%Z in
  let b1 := (b0 + H1Vsize)%Z in
  let b2 := (b1 + H1Vsize)%Z in
  let b3 := (b2 + L2Vsize)%Z in
  let b4 := (b3 + L2Vsize * dim * dim)%Z in
  [b0; b1; b2; b3; b4].

(** [offset[k]] *)
Definition at_ (k : nat) (offset : list Z) : Z := nth k offset 0%Z.

End Layout.

(** ** Choice of the kernel: [QUpdate::UpdateQuadratureData] *)

Module Dispatch.

(** [const int id = (dim << 4) | Q1D] *)
Definition kernel_id (dim Q1D : Z) : Z := Z.lor (Z.shiftl dim 4) Q1D.

(** The map [qupdate]: identifier to the instance [QKernel<DIM,Q1D>]. *)
Definition qupdate : list (Z * (Z * Z)) :=
  [ (0x24%Z, (2%Z, 4%Z)); (0x26%Z, (2%Z, 6%Z)); (0x28%Z, (2%Z, 8%Z));
    (0x34%Z, (3%Z, 4%Z)); (0x36%Z, (3%Z, 6%Z)); (0x38%Z, (3%Z, 8%Z)) ].

(** [qupdate[id]]: a key that is absent yields the null pointer. *)
Fixpoint lookup (id : Z) (m : list (Z * (Z * Z))) : option (Z * Z) :=
  match m with
  | [] => None
  | (k, f) :: m' => if (k =? id)%Z then Some f else lookup id m'
  end.

(** The instance that runs; [None] is [MFEM_ABORT("Unknown kernel")]. *)
Definition kernel (dim Q1D : Z) : option (Z * Z) :=
  lookup (kernel_id dim Q1D) qupdate.

End Dispatch.

(** ** Set-up in [main]: boundary types and material parameters *)

Module Setup.

(** The component argument of [GetEssentialTrueDofs] and
    [GetEssentialVDofs]; [None] is the default argument, every component. *)
Definition Component : Type := option nat.

(** First loop over [bc_id], one boundary of positive type: the components
    whose dofs are appended to [ess_tdofs] and [ess_vdofs], in order.
    [None] is [return 3] after "Unknown boundary type". *)
Definition essential_switch (dim : nat) (id : Z) : option (list Component) :=
  if (dim =? 2)%nat then
    match id with
    | 1%Z => Some [Some 0%nat]
    | 2%Z => Some [Some 1%nat]
    | 3%Z => Some [None]
    | _ => None
    end
  else
    match id with
    | 1%Z => Some [Some 0%nat]
    | 2%Z => Some [Some 1%nat]
    | 3%Z => Some [Some 2%nat]
    | 4%Z => Some [None]
    | 5%Z => Some [Some 0%nat; Some 1%nat]
    | 6%Z => Some [Some 1%nat; Some 2%nat]
    | 7%Z => None     (* no break: control falls into default *)
    | _ => None
    end.

(** Second loop over [bc_id], one boundary of positive type: the components
    whose dofs receive the prescribed velocity ([bc_vx] for component 0,
    [bc_vy] for 1, [bc_vz] for 2), in order. *)
Definition prescribed_switch (dim : nat) (id : Z) : option (list nat) :=
  if (dim =? 2)%nat then
    match id with
    | 1%Z => Some [0%nat]
    | 2%Z => Some [1%nat]
    | 3%Z => Some [0%nat; 1%nat]
    | _ => None
    end
  else
    match id with
    | 1%Z => Some [0%nat]
    | 2%Z => Some [1%nat]
    | 3%Z => Some [2%nat]
    | 4%Z => Some [0%nat; 1%nat; 2%nat]
    | 5%Z => Some [0%nat; 1%nat]
    | 6%Z => Some [0%nat; 2%nat]
    | 7%Z => Some [1%nat; 2%nat]
    | _ => None
    end.

(** The two loops: [if (bc_id[i] > 0)] guards the switch; the first unknown
    type ends the program. *)
Fixpoint essential_loop (dim : nat) (bc_id : list Z) : option (list (list Component)) :=
  match bc_id with
  | [] => Some []
  | id :: rest =>
      if (0 <? id)%Z then
        match essential_switch dim id with
        | None => None
        | Some cs =>
            match essential_loop dim rest with
            | None => None
            | Some r => Some (cs :: r)
            end
        end
      else
        match essential_loop dim rest with
        | None => None
        | Some r => Some ([] :: r)
        end
  end.

(** The components a list of calls constrains on a space of [dim]
    components. *)
Definition components_of (dim : nat) (calls : list Component) : list nat :=
  flat_map (fun c => match c with None => seq 0 dim | Some k => [k] end) calls.

(** A material parameter given as a list ([rho_vec], [lambda_vec], ...)
    against the number [n] of materials, [pmesh->attributes.Max()]: one
    value is given to every material, [n] values are copied, any other
    number of values ends the program ([None], [return 3]). *)
Definition expand (n : nat) (vec : list float) : option (list float) :=
  if (length vec =? 1)%nat then Some (repeat (nth 0 vec 0) n)
  else if negb (length vec =? n)%nat then None
  else Some (map (fun i => nth i vec 0) (seq 0 n)).

End Setup.

(** ** Lists in the parameter file: [bc_ids], [bc_vxs], [rho], ... *)

Module Lists.

Definition text : Type := list ascii.

(** [s.erase(std::remove(s.begin(), s.end(), c), s.end())] *)
Definition remove_char (c : ascii) (s : text) : text :=
  filter (fun x => negb (Ascii.eqb x c)) s.

(** Remove square brackets and spaces. *)
Definition strip (s : text) : text :=
  remove_char " "%char (remove_char "]"%char (remove_char "["%char s)).

(** [while (getline(ss, token, ','))]: the tokens read from what is left of
    the stream.  [token] holds, in reverse, the characters extracted so far
    for the current token, [fresh] tells that none was extracted: at the
    end of the stream [getline] fails, and the loop ends, exactly when it
    has extracted nothing. *)
Fixpoint getline_loop (ss : text) (token : text) (fresh : bool) : list text :=
  match ss with
  | [] => if fresh then [] else [rev token]
  | c :: ss' =>
      if Ascii.eqb c ","%char then rev token :: getline_loop ss' [] true
      else getline_loop ss' (c :: token) false
  end.

Definition tokens (s : text) : list text := getline_loop (strip s) [] true.

End Lists.

(** ** The file-scope variable [dim] of [laghost.cpp], and the stress
    components that remeshing remaps *)

Module Remesh.

(** [Vector weak_location(dim); if(dim = 2){...} else if(dim =3){...}]: the
    two conditions are assignments to [dim], which have the value assigned.
    The result is [dim] after the statement and the entries of
    [weak_location] that have been set, from entry 0 on. *)
Definition weak_zone (dim : Z) (weak_x weak_y weak_z : float) : Z * list float :=
  let dim := 2%Z in
  if negb (dim =? 0)%Z then (dim, [weak_x; weak_y])
  else
    let dim := 3%Z in
    if negb (dim =? 0)%Z then (dim, [weak_x; weak_y; weak_z]) else (dim, []).

(** The data of a grid function, by index. *)
Definition Data : Type := nat -> float.

(** [a[k] = v] *)
Definition set (a : Data) (k : nat) (v : float) : Data :=
  fun j => if (j =? k)%nat then v else a j.

(** The number of components [S1, S2, ...] the remeshing step handles. *)
Definition handled (dim : Z) : nat := if (dim =? 2)%Z then 3%nat else 6%nat.

(** [S1 = 0.0; ...; S6 = 0.0] and the first loop: [S<c+1>[i] = s_gf[i +
    S1.Size()*c]] for the components handled; [n] is [S1.Size()].  The six
    grid functions are distinct, so each one sees the assignments of its
    own. *)
Definition split (dim : Z) (n : nat) (s_gf : Data) (c : nat) : Data :=
  let zero : Data := fun _ => 0.0 in
  if (c <? handled dim)%nat
  then fold_left (fun S i => set S i (s_gf (i + n * c)%nat)) (seq 0 n) zero
  else zero.

(** [Remapping(pmesh_old<c+4>, U, x_gf, S<c+1>, ...)] on the components
    handled; [Remapping] is the routine of [laghost_remhos.hpp], called
    every time with a fresh copy of the mesh and with [U = x_old_gf]. *)
Definition remap (Remapping : Data -> Data) (dim : Z) (S : nat -> Data) (c : nat) : Data :=
  if (c <? handled dim)%nat then Remapping (S c) else S c.

(** The last loop: [s_gf[i + S1.Size()*c] = S<c+1>[i]], for every [i] the
    components handled in turn. *)
Definition merge (dim : Z) (n : nat) (S : nat -> Data) (s_gf : Data) : Data :=
  fold_left
    (fun s i =>
       fold_left (fun s c => set s (i + n * c)%nat (S c i)) (seq 0 (handled dim)) s)
    (seq 0 n) s_gf.

(** The stress of the state through a remeshing step. *)
Definition remap_stress (Remapping : Data -> Data) (dim : Z) (n : nat) (s_gf : Data)
    : Data :=
  merge dim n (remap Remapping dim (split dim n s_gf)) s_gf.

End Remesh.

(** * Properties

    ** IEEE doubles: classes of values and signs of results *)

Module DblFacts.

(** Classes of the specification floats. *)
Definition sf_nn (f : spec_float) : Prop :=
  match f with
  | S754_nan | S754_zero _ => True
  | S754_infinity s | S754_finite s _ _ => s = false
  end.

Definition sf_pos (f : spec_float) : Prop :=
  match f with
  | S754_nan | S754_zero _ => False
  | S754_infinity s | S754_finite s _ _ => s = false
  end.

Definition sf_zn (f : spec_float) : Prop :=
  match f with
  | S754_nan | S754_zero _ => True
  | _ => False
  end.

Definition sf_zero (f : spec_float) : Prop :=
  match f with
  | S754_zero _ => True
  | _ => False
  end.

Definition sf_finite (f : spec_float) : Prop :=
  match f with
  | S754_zero _ | S754_finite _ _ _ => True
  | _ => False
  end.

Lemma Prim2SF_zero : Prim2SF 0 = S754_zero false.
Proof. reflexivity. Qed.

Lemma is_nan_SF x : is_nan x = match Prim2SF x with S754_nan => true | _ => false end.
Proof.
  unfold is_nan. rewrite FloatAxioms.eqb_spec. unfold SFeqb.
  destruct (Prim2SF x) as [s|s| |s m e]; cbn; try reflexivity.
  - destruct s; reflexivity.
  - destruct s; cbn; rewrite Z.compare_refl, Pos.compare_cont_refl; reflexivity.
Qed.

Lemma not_neg_SF x : (x <? 0) = false <-> sf_nn (Prim2SF x).
Proof.
  rewrite ltb_spec, Prim2SF_zero.
  destruct (Prim2SF x) as [s|s| |s m e]; cbn; try tauto;
    destruct s; cbn; intuition congruence.
Qed.

Lemma pos_SF x : (0 <? x) = true <-> sf_pos (Prim2SF x).
Proof.
  rewrite ltb_spec, Prim2SF_zero.
  destruct (Prim2SF x) as [s|s| |s m e]; cbn; try (intuition congruence);
    destruct s; cbn; intuition congruence.
Qed.

Lemma neg_SF x : (x <? 0) = true <-> match Prim2SF x with S754_infinity s | S754_finite s _ _ => s = true | _ => False end.
Proof.
  rewrite ltb_spec, Prim2SF_zero.
  destruct (Prim2SF x) as [s|s| |s m e]; cbn; try (intuition congruence);
    destruct s; cbn; intuition congruence.
Qed.

Lemma round_aux_sign s m e l :
  match binary_round_aux prec emax s m e l with
  | S754_nan => True
  | S754_zero s' | S754_infinity s' | S754_finite s' _ _ => s' = s
  end.
Proof.
  unfold binary_round_aux.
  destruct (shr_fexp prec emax m e l) as [mrs' e'].
  destruct (shr_fexp prec emax _ e' loc_Exact) as [mrs'' e''].
  destruct (shr_m mrs''); auto.
  destruct (Z.leb e'' (emax - prec)); auto.
Qed.

Lemma round_aux_nn m e l : sf_nn (binary_round_aux prec emax false m e l).
Proof.
  generalize (round_aux_sign false m e l).
  destruct (binary_round_aux prec emax false m e l); cbn; auto.
Qed.

Lemma SFmul_nn a b : sf_nn a -> sf_nn b -> sf_nn (SFmul prec emax a b).
Proof.
  destruct a as [sa|sa| |sa ma ea], b as [sb|sb| |sb mb eb]; cbn; auto;
    intros; subst; cbn; auto using round_aux_nn.
Qed.

Lemma SFdiv_nn a b : sf_nn a -> sf_pos b -> sf_nn (SFdiv prec emax a b).
Proof.
  destruct a as [sa|sa| |sa ma ea], b as [sb|sb| |sb mb eb]; cbn; auto;
    intros; subst; cbn; auto; try contradiction.
  destruct (SFdiv_core_binary prec emax (Z.pos ma) ea (Z.pos mb) eb) as [[mz ez] lz].
  apply round_aux_nn.
Qed.

Lemma mul_not_neg a b : (a <? 0) = false -> (b <? 0) = false -> (a * b <? 0) = false.
Proof.
  rewrite !not_neg_SF, mul_spec. apply SFmul_nn.
Qed.

Lemma div_not_neg a b : (a <? 0) = false -> (0 <? b) = true -> (a / b <? 0) = false.
Proof.
  rewrite !not_neg_SF, pos_SF, div_spec. apply SFdiv_nn.
Qed.

Lemma fmin_zero_l v : (v <? 0) = false -> Dbl.fmin 0 v = 0.
Proof.
  intros H. unfold Dbl.fmin.
  replace (is_nan 0) with false by reflexivity.
  destruct (is_nan v); [reflexivity|]. now rewrite H.
Qed.

Lemma neg_trans x y : (x <? y) = true -> (y <? 0) = true -> (x <? 0) = true.
Proof.
  rewrite !ltb_spec, Prim2SF_zero.
  destruct (Prim2SF x) as [sx|sx| |sx mx ex], (Prim2SF y) as [sy|sy| |sy my ey];
    cbn; try discriminate; try (destruct sx, sy; cbn; congruence).
Qed.

Lemma fmin_neg_r m d : (d <? 0) = true -> (Dbl.fmin m d <? 0) = true.
Proof.
  intros Hd. unfold Dbl.fmin.
  destruct (is_nan m) eqn:Hm; [exact Hd|].
  destruct (is_nan d) eqn:Hn.
  - rewrite is_nan_SF in Hn. apply neg_SF in Hd.
    destruct (Prim2SF d); try discriminate; contradiction.
  - destruct (d <? m) eqn:Hlt; [exact Hd|].
    revert Hm Hn Hlt Hd. rewrite !is_nan_SF, !ltb_spec, Prim2SF_zero.
    destruct (Prim2SF m) as [sx|sx| |sx mx ex], (Prim2SF d) as [sy|sy| |sy my ey];
    cbn; try discriminate; try (destruct sx, sy; cbn; congruence).
Qed.

Lemma fmin_neg_l m d : (m <? 0) = true -> (Dbl.fmin m d <? 0) = true.
Proof.
  intros Hm. unfold Dbl.fmin.
  destruct (is_nan m) eqn:Hn.
  - rewrite is_nan_SF in Hn. apply neg_SF in Hm.
    destruct (Prim2SF m); try discriminate; contradiction.
  - destruct (is_nan d); [exact Hm|].
    destruct (d <? m) eqn:Hlt; [|exact Hm].
    eapply neg_trans; eauto.
Qed.


(** Multiplication by [1.0] is exact. *)
Lemma Prim2SF_one : Prim2SF 1 = S754_finite false 4503599627370496 (-52).
Proof. reflexivity. Qed.

Lemma digits_shift52 m :
  Zdigits2 (Z.pos (Pos.iter xO m 52)) = (Z.pos (digits2_pos m) + 52)%Z.
Proof. cbn. lia. Qed.

Lemma shr_shift52 m e :
  shr (Build_shr_record (Z.pos (Pos.iter xO m 52)) false false) e 52
  = (Build_shr_record (Z.pos m) false false, (e + 52)%Z).
Proof. reflexivity. Qed.

Lemma SFmul_one_finite s m e :
  valid_binary (S754_finite s m e) = true ->
  SFmul prec emax (S754_finite false 4503599627370496 (-52)) (S754_finite s m e)
  = S754_finite s m e.
Proof.
  intros Hv. cbn in Hv. unfold bounded, canonical_mantissa in Hv.
  apply andb_prop in Hv. destruct Hv as [Hc Hb].
  apply Z.eqb_eq in Hc.
  unfold SFmul. cbn [xorb].
  change (4503599627370496 * m)%positive with (Pos.iter xO m 52).
  unfold binary_round_aux, shr_fexp.
  rewrite digits_shift52.
  replace (Z.pos (digits2_pos m) + 52 + (-52 + e))%Z with (Z.pos (digits2_pos m) + e)%Z by lia.
  rewrite Hc.
  replace (e - (-52 + e))%Z with 52%Z by lia.
  cbn [shr_record_of_loc]. rewrite shr_shift52.
  cbn [shr_m loc_of_shr_record round_nearest_even Zdigits2].
  replace (-52 + e + 52)%Z with e by lia.
  rewrite Hc, Z.sub_diag. cbn [shr shr_record_of_loc shr_m].
  now rewrite Hb.
Qed.

Lemma mul_1_l x : 1 * x = x.
Proof.
  apply Prim2SF_inj. rewrite mul_spec, Prim2SF_one.
  generalize (Prim2SF_valid x).
  destruct (Prim2SF x) as [s|s| |s m e]; intros Hv; try reflexivity.
  now apply SFmul_one_finite.
Qed.

(** Zeros and NaN. *)
Lemma zn_SF x : ((x <? 0) = false /\ (0 <? x) = false) <-> sf_zn (Prim2SF x).
Proof.
  rewrite !ltb_spec, Prim2SF_zero.
  destruct (Prim2SF x) as [s|s| |s m e]; cbn; try tauto;
    destruct s; cbn; intuition congruence.
Qed.

Lemma is_zero_SF x : is_zero x = true <-> sf_zero (Prim2SF x).
Proof.
  unfold is_zero. rewrite FloatAxioms.eqb_spec. change (Prim2SF zero) with (S754_zero false).
  destruct (Prim2SF x) as [s|s| |s m e]; cbn; try (intuition congruence);
    destruct s; cbn; intuition congruence.
Qed.

Lemma is_finite_SF x : is_finite x = true <-> sf_finite (Prim2SF x).
Proof.
  unfold is_finite, is_nan, is_infinity.
  rewrite !FloatAxioms.eqb_spec, abs_spec. change (Prim2SF infinity) with (S754_infinity false).
  destruct (Prim2SF x) as [s|s| |s m e]; cbn; try (intuition congruence).
  - destruct s; cbn; intuition congruence.
  - unfold SFeqb; cbn. rewrite Z.compare_refl, Pos.compare_cont_refl.
    destruct s; cbn; intuition congruence.
Qed.

Lemma SFdiv_zn a b : sf_zn a -> sf_zn (SFdiv prec emax a b).
Proof.
  destruct a as [sa|sa| |sa ma ea], b as [sb|sb| |sb mb eb]; cbn; auto;
    intros; contradiction.
Qed.

Lemma SFadd_zn a b : sf_zn a -> sf_zn b -> sf_zn (SFadd prec emax a b).
Proof.
  destruct a as [sa|sa| |sa ma ea], b as [sb|sb| |sb mb eb]; cbn; auto;
    try (intros; contradiction).
  destruct sa, sb; cbn; auto.
Qed.

Lemma SFmul_finite_zn a b : sf_finite a -> sf_zn b -> sf_zn (SFmul prec emax a b).
Proof.
  destruct a as [sa|sa| |sa ma ea], b as [sb|sb| |sb mb eb]; cbn; auto;
    intros; contradiction.
Qed.

(** Zero numerators and vanishing terms. *)
Lemma SFmul_zn_l a b : sf_zn a -> sf_zn (SFmul prec emax a b).
Proof.
  destruct a as [sa|sa| |sa ma ea], b as [sb|sb| |sb mb eb]; cbn; auto;
    intros; contradiction.
Qed.

Lemma SFadd_zero_r a z :
  sf_zn z -> sf_pos (SFadd prec emax a z) -> SFadd prec emax a z = a.
Proof.
  destruct a as [sa|sa| |sa ma ea], z as [sz|sz| |sz mz ez]; cbn; auto;
    try (intros; contradiction).
  destruct sa, sz; cbn; intros; contradiction.
Qed.

Lemma zero_is_zn x : is_zero x = true -> sf_zn (Prim2SF x).
Proof. rewrite is_zero_SF. destruct (Prim2SF x); cbn; auto. Qed.

Lemma not_pos_of_zn x : sf_zn (Prim2SF x) -> (0 <? x) = false.
Proof. intros H. now apply zn_SF in H. Qed.

Lemma Prim2SF_2_5 : sf_finite (Prim2SF 2.5).
Proof. exact I. Qed.

(** The inverse rate of the full-assembly loop. *)
Lemma inv_rate_zn cs visc rho h :
  is_zero cs = true -> is_zero visc = true ->
  sf_zn (Prim2SF (cs / h + 2.5 * visc / rho / h / h)).
Proof.
  intros Hc Hv. rewrite add_spec. apply SFadd_zn.
  - rewrite div_spec. now apply SFdiv_zn, zero_is_zn.
  - rewrite !div_spec. do 3 apply SFdiv_zn. rewrite mul_spec.
    apply SFmul_finite_zn; [exact Prim2SF_2_5|now apply zero_is_zn].
Qed.

Lemma inv_rate_zero cs visc rho h :
  is_zero cs = true -> is_zero visc = true ->
  (0 <? cs / h + 2.5 * visc / rho / h / h) = false.
Proof. intros. now apply not_pos_of_zn, inv_rate_zn. Qed.

Lemma inv_rate_elastic cs visc rho h :
  is_zero visc = true ->
  (0 <? cs / h + 2.5 * visc / rho / h / h) = true ->
  cs / h + 2.5 * visc / rho / h / h = cs / h.
Proof.
  intros Hv Hp. apply Prim2SF_inj. apply pos_SF in Hp.
  rewrite add_spec in *. apply SFadd_zero_r; [|exact Hp].
  rewrite !div_spec. do 3 apply SFdiv_zn. rewrite mul_spec.
  apply SFmul_finite_zn; [exact Prim2SF_2_5|now apply zero_is_zn].
Qed.

(** The inverse rate of the partial-assembly kernel. *)
Lemma idt_zero S visc ih irho :
  is_zero S = true -> is_zero visc = true ->
  (0 <? S * ih + 2.5 * visc * irho) = false.
Proof.
  intros Hs Hv. apply not_pos_of_zn. rewrite add_spec. apply SFadd_zn.
  - rewrite mul_spec. now apply SFmul_zn_l, zero_is_zn.
  - rewrite !mul_spec. apply SFmul_zn_l.
    apply SFmul_finite_zn; [exact Prim2SF_2_5|now apply zero_is_zn].
Qed.

Lemma idt_elastic S visc ih irho :
  is_zero visc = true ->
  (0 <? S * ih + 2.5 * visc * irho) = true ->
  S * ih + 2.5 * visc * irho = S * ih.
Proof.
  intros Hv Hp. apply Prim2SF_inj. apply pos_SF in Hp.
  rewrite add_spec in *. apply SFadd_zero_r; [|exact Hp].
  rewrite !mul_spec. apply SFmul_zn_l.
  apply SFmul_finite_zn; [exact Prim2SF_2_5|now apply zero_is_zn].
Qed.

(** Values that are neither negative nor NaN. *)
Definition ge0 (x : float) : Prop := (x <? 0) = false /\ is_nan x = false.

Lemma ge0_zero : ge0 0.
Proof. split; reflexivity. Qed.

Lemma ge0_infinity : ge0 infinity.
Proof. split; reflexivity. Qed.

Lemma fmin_ge0 a v : ge0 a -> (v <? 0) = false -> ge0 (Dbl.fmin a v).
Proof.
  intros [Ha Hn] Hv. unfold Dbl.fmin. rewrite Hn.
  destruct (is_nan v) eqn:Hnv; [now split|].
  destruct (v <? a); now split.
Qed.

Lemma zero_ltb e d : is_zero e = true -> (e <? d) = (0 <? d) /\ (d <? e) = (d <? 0).
Proof.
  rewrite is_zero_SF, !ltb_spec, Prim2SF_zero.
  destruct (Prim2SF e) as [s|s| |s m x]; cbn; try contradiction. intros _.
  destruct (Prim2SF d) as [s'|s'| |s' m' x']; cbn; auto.
Qed.

Lemma zero_not_nan e : is_zero e = true -> is_nan e = false.
Proof.
  rewrite is_zero_SF, is_nan_SF. destruct (Prim2SF e); cbn; auto; contradiction.
Qed.

Lemma fmin_zero_keep m o : is_zero m = true -> (o <? 0) = false -> Dbl.fmin m o = m.
Proof.
  intros Hm Ho. unfold Dbl.fmin. rewrite (zero_not_nan m Hm).
  destruct (is_nan o); [reflexivity|].
  destruct (zero_ltb m o Hm) as [_ H]. now rewrite H, Ho.
Qed.

Lemma ge0_not_pos_zero m : ge0 m -> (0 <? m) = false -> is_zero m = true.
Proof.
  intros [Hn Hnan] Hp. apply is_zero_SF.
  assert (Hz : sf_zn (Prim2SF m)) by (apply zn_SF; auto).
  rewrite is_nan_SF in Hnan. destruct (Prim2SF m); cbn in *; auto; discriminate.
Qed.

(** [Vector::Min] on entries that are not negative, one of them zero. *)
Lemma min_step_ge0 m d : ge0 m -> ge0 d -> ge0 (if d <? m then d else m).
Proof. intros. now destruct (d <? m). Qed.

Lemma min_step_zero_l m d : is_zero m = true -> ge0 d ->
  is_zero (if d <? m then d else m) = true.
Proof.
  intros Hm [Hd _]. destruct (zero_ltb m d Hm) as [_ H]. now rewrite H, Hd.
Qed.

Lemma min_step_zero_r m d : ge0 m -> is_zero d = true ->
  is_zero (if d <? m then d else m) = true.
Proof.
  intros Hm Hd. destruct (zero_ltb d m Hd) as [H _]. rewrite H.
  destruct (0 <? m) eqn:Hp; [exact Hd|now apply ge0_not_pos_zero].
Qed.

Lemma fold_min_zero rest m :
  Forall ge0 rest -> ge0 m ->
  (is_zero m = true \/ Exists (fun d => is_zero d = true) rest) ->
  is_zero (fold_left (fun m d => if d <? m then d else m) rest m) = true.
Proof.
  revert m. induction rest as [|d rest IH]; intros m Hall Hm Hz.
  - cbn. destruct Hz as [Hz|Hz]; [exact Hz|inversion Hz].
  - cbn. inversion Hall as [|? ? Hd Hrest]; subst.
    apply IH; [exact Hrest|now apply min_step_ge0|].
    destruct Hz as [Hz|Hz].
    + left. now apply min_step_zero_l.
    + inversion Hz as [? ? Hd0|? ? Hex]; subst.
      * left. now apply min_step_zero_r.
      * now right.
Qed.

Lemma fold_min_ge0 rest m :
  Forall ge0 rest -> ge0 m ->
  ge0 (fold_left (fun m d => if d <? m then d else m) rest m).
Proof.
  revert m. induction rest as [|d rest IH]; intros m Hall Hm; [exact Hm|].
  cbn. inversion Hall; subst. apply IH; auto using min_step_ge0.
Qed.

Lemma Vector_Min_zero v :
  Forall ge0 v -> Exists (fun d => is_zero d = true) v ->
  is_zero (PA.Vector_Min v) = true.
Proof.
  destruct v as [|x rest]; intros Hall Hex; [inversion Hex|].
  cbn. inversion Hall; subst. apply fold_min_zero; auto.
  inversion Hex; subst; auto.
Qed.

Lemma Vector_Min_ge0 v : Forall ge0 v -> ge0 (PA.Vector_Min v).
Proof.
  destruct v as [|x rest]; intros Hall; [exact ge0_infinity|].
  cbn. inversion Hall; subst. now apply fold_min_ge0.
Qed.

End DblFacts.

(** ** The full-assembly kernel: inverted batches and the running minimum *)

Module KernelFacts.
Import DblFacts.
Section FA.

Variable cfg : Config.
Variable cmp : float -> float -> float -> float -> float * float.

(** Every quadrature point of a list of zones, with its zone, in the order
    of the loops. *)
Definition all_points (zones : list Zone) : list (Zone * QPoint) :=
  concat (map (fun z => map (pair z) (points z)) zones).

Definition has_negative_detJ (b : list Zone) : Prop :=
  exists z pt, In z b /\ In pt (points z) /\ (detJ pt <? 0) = true.

Lemma batches_concat_le n : forall zs, (length zs <= n)%nat -> concat (FA.batches zs) = zs.
Proof.
  induction n as [|n IH]; intros zs Hn.
  - destruct zs; [reflexivity|cbn in Hn; lia].
  - destruct zs as [|z1 [|z2 [|z3 rest]]]; try reflexivity.
    cbn [FA.batches concat app]. rewrite IH; [reflexivity|cbn in Hn; lia].
Qed.

Lemma batches_concat zs : concat (FA.batches zs) = zs.
Proof. apply (batches_concat_le (length zs)); lia. Qed.

(** *** The batch minimum of the determinants *)

Lemma fold_fmin_neg_acc (l : list QPoint) m :
  (m <? 0) = true ->
  (fold_left (fun m pt => Dbl.fmin m (detJ pt)) l m <? 0) = true.
Proof.
  revert m. induction l as [|pt l IH]; intros m Hm; [exact Hm|].
  cbn. apply IH. now apply DblFacts.fmin_neg_l.
Qed.

Lemma zone_min_neg_acc z m :
  (m <? 0) = true -> (FA.zone_min_detJ m z <? 0) = true.
Proof. apply fold_fmin_neg_acc. Qed.

Lemma zone_min_neg_in z m pt :
  In pt (points z) -> (detJ pt <? 0) = true -> (FA.zone_min_detJ m z <? 0) = true.
Proof.
  unfold FA.zone_min_detJ. revert m.
  induction (points z) as [|p l IH]; intros m Hin Hd; [contradiction|].
  cbn. destruct Hin as [->|Hin].
  - apply fold_fmin_neg_acc. now apply DblFacts.fmin_neg_r.
  - now apply IH.
Qed.

Lemma batch_min_negative b :
  has_negative_detJ b -> (FA.batch_min_detJ b <? 0) = true.
Proof.
  intros (z & pt & Hz & Hpt & Hd). unfold FA.batch_min_detJ.
  generalize infinity as m. revert Hz.
  induction b as [|z' b IH]; intros Hz m; [contradiction|].
  cbn. destruct Hz as [->|Hz].
  - clear IH. generalize (zone_min_neg_in z m pt Hpt Hd).
    generalize (FA.zone_min_detJ m z) as m'. clear.
    induction b as [|z' b IH]; intros m' Hm'; [exact Hm'|].
    cbn. apply IH. now apply zone_min_neg_acc.
  - now apply IH.
Qed.

(** *** The estimate stays at zero once it has been forced there *)

Lemma dt_local_not_neg h0 z pt :
  (cfl cfg <? 0) = false ->
  Dbl.gt (FA.inv_dt_of cfg cmp h0 z pt) 0.0 = true ->
  (FA.dt_local cfg cmp h0 z pt <? 0) = false.
Proof.
  intros Hc Hi. unfold FA.dt_local.
  apply DblFacts.mul_not_neg; [exact Hc|].
  apply DblFacts.div_not_neg; [reflexivity|exact Hi].
Qed.

Lemma point_estimate_zero h0 m z pt :
  (cfl cfg <? 0) = false -> FA.point_estimate cfg cmp h0 m z pt 0 = 0.
Proof.
  intros Hc. unfold FA.point_estimate.
  destruct (m <? 0.0); [reflexivity|].
  destruct (Dbl.gt (FA.inv_dt_of cfg cmp h0 z pt) 0.0) eqn:Hi; [|reflexivity].
  apply DblFacts.fmin_zero_l. now apply dt_local_not_neg.
Qed.

Lemma zone_estimate_zero h0 m z :
  (cfl cfg <? 0) = false -> FA.zone_estimate cfg cmp h0 m 0 z = 0.
Proof.
  intros Hc. unfold FA.zone_estimate.
  induction (points z) as [|pt l IH]; [reflexivity|].
  cbn. now rewrite point_estimate_zero.
Qed.

Lemma batch_estimate_zero h0 b :
  (cfl cfg <? 0) = false -> FA.batch_estimate cfg cmp h0 0 b = 0.
Proof.
  intros Hc. unfold FA.batch_estimate.
  generalize (FA.batch_min_detJ b) as m. intros m.
  induction b as [|z b IH]; [reflexivity|].
  cbn. now rewrite zone_estimate_zero.
Qed.

Lemma batches_estimate_zero h0 bs :
  (cfl cfg <? 0) = false -> fold_left (FA.batch_estimate cfg cmp h0) bs 0 = 0.
Proof.
  intros Hc. induction bs as [|b bs IH]; [reflexivity|].
  cbn. now rewrite batch_estimate_zero.
Qed.

(** In an inverted batch every point stores zero. *)
Lemma zone_estimate_inverted h0 m z est :
  (m <? 0) = true -> points z <> [] \/ est = 0 ->
  FA.zone_estimate cfg cmp h0 m est z = 0.
Proof.
  intros Hm. unfold FA.zone_estimate.
  assert (Hstep : forall pt e, FA.point_estimate cfg cmp h0 m z pt e = 0).
  { intros pt e. unfold FA.point_estimate. now rewrite Hm. }
  revert est. induction (points z) as [|pt l IH]; intros est [Hne|He].
  - congruence.
  - exact He.
  - cbn. rewrite Hstep. apply IH. now right.
  - cbn. rewrite Hstep. apply IH. now right.
Qed.

Lemma batch_estimate_inverted h0 b est :
  has_negative_detJ b -> FA.batch_estimate cfg cmp h0 est b = 0.
Proof.
  intros Hneg. pose proof (batch_min_negative b Hneg) as Hm.
  destruct Hneg as (z & pt & Hz & Hpt & _).
  unfold FA.batch_estimate. revert Hm.
  generalize (FA.batch_min_detJ b) as m. intros m Hm.
  assert (Hgo : forall b' e, (In z b' \/ e = 0) ->
            fold_left (FA.zone_estimate cfg cmp h0 m) b' e = 0).
  { induction b' as [|z' b' IH]; intros e [Hin|He].
    - contradiction.
    - exact He.
    - cbn. apply IH. destruct Hin as [->|Hin]; [right|now left].
      apply zone_estimate_inverted; [exact Hm|left].
      intros Hnil. rewrite Hnil in Hpt. contradiction.
    - cbn. apply IH. right. subst e. apply zone_estimate_inverted; auto. }
  apply Hgo. now left.
Qed.

Lemma update_inverted zones qd d :
  (cfl cfg <? 0) = false ->
  (exists b, In b (FA.batches zones) /\ has_negative_detJ b) ->
  dt_est (fst (FA.update cfg cmp zones qd d)) = 0.
Proof.
  intros Hc (b & Hb & Hneg). cbn.
  generalize (dt_est qd) as est. revert Hb.
  induction (FA.batches zones) as [|b' bs IH]; intros Hb est; [contradiction|].
  cbn. destruct Hb as [->|Hb].
  - rewrite batch_estimate_inverted by exact Hneg. now apply batches_estimate_zero.
  - now apply IH.
Qed.


(** *** Without an inverted batch the estimate is a running minimum *)

Definition has_rate (h0 : float) (zp : Zone * QPoint) : bool :=
  Dbl.gt (FA.inv_dt_of cfg cmp h0 (fst zp) (snd zp)) 0.0.

(** The local bounds of the points with a positive inverse rate. *)
Definition bounds (h0 : float) (zs : list Zone) : list float :=
  map (fun zp => FA.dt_local cfg cmp h0 (fst zp) (snd zp))
      (filter (has_rate h0) (all_points zs)).

Lemma all_points_app a b : all_points (a ++ b) = all_points a ++ all_points b.
Proof. unfold all_points. now rewrite map_app, concat_app. Qed.

Lemma bounds_app h0 a b : bounds h0 (a ++ b) = bounds h0 a ++ bounds h0 b.
Proof. unfold bounds. now rewrite all_points_app, filter_app, map_app. Qed.

Lemma zone_estimate_minimum h0 m z est :
  (m <? 0) = false ->
  FA.zone_estimate cfg cmp h0 m est z = fold_left Dbl.fmin (bounds h0 [z]) est.
Proof.
  intros Hm. unfold FA.zone_estimate, bounds, all_points. cbn [map concat].
  rewrite app_nil_r. revert est.
  induction (points z) as [|pt l IH]; intros est; [reflexivity|].
  cbn [fold_left map filter]. unfold has_rate at 1. cbn [fst snd].
  unfold FA.point_estimate at 2. rewrite Hm.
  destruct (Dbl.gt (FA.inv_dt_of cfg cmp h0 z pt) 0.0); cbn; apply IH.
Qed.

Lemma batch_estimate_minimum h0 b est :
  (FA.batch_min_detJ b <? 0) = false ->
  FA.batch_estimate cfg cmp h0 est b = fold_left Dbl.fmin (bounds h0 b) est.
Proof.
  unfold FA.batch_estimate. generalize (FA.batch_min_detJ b) as m. intros m Hm.
  revert est. induction b as [|z b IH]; intros est; [reflexivity|].
  cbn [fold_left]. change (z :: b) with ([z] ++ b).
  rewrite bounds_app, fold_left_app, <- (zone_estimate_minimum h0 m z est Hm).
  apply IH.
Qed.

Lemma update_running_minimum zones qd d :
  (forall b, In b (FA.batches zones) -> (FA.batch_min_detJ b <? 0) = false) ->
  dt_est (fst (FA.update cfg cmp zones qd d))
  = fold_left Dbl.fmin (bounds (h0 qd) zones) (dt_est qd).
Proof.
  intros Hb. cbn. rewrite <- (batches_concat zones) at 2.
  revert Hb. generalize (dt_est qd) as est.
  induction (FA.batches zones) as [|b bs IH]; intros est Hb; [reflexivity|].
  cbn [fold_left concat]. rewrite bounds_app, fold_left_app.
  rewrite <- (batch_estimate_minimum (h0 qd) b est (Hb b (or_introl eq_refl))).
  apply IH. intros b' Hb'. apply Hb. now right.
Qed.

(** *** The estimate is never negative *)

Lemma zones_negative_batch zones :
  has_negative_detJ zones ->
  exists b, In b (FA.batches zones) /\ has_negative_detJ b.
Proof.
  intros (z & pt & Hz & Hpt & Hd).
  rewrite <- (batches_concat zones) in Hz. apply in_concat in Hz.
  destruct Hz as (b & Hb & Hz). exists b. split; [exact Hb|].
  now exists z, pt.
Qed.

Lemma point_estimate_ge0 h0 m z pt est :
  (cfl cfg <? 0) = false -> ge0 est -> ge0 (FA.point_estimate cfg cmp h0 m z pt est).
Proof.
  intros Hc He. unfold FA.point_estimate.
  destruct (m <? 0.0); [exact ge0_zero|].
  destruct (Dbl.gt (FA.inv_dt_of cfg cmp h0 z pt) 0.0) eqn:Hi; [|exact He].
  apply fmin_ge0; [exact He|now apply dt_local_not_neg].
Qed.

Lemma update_ge0 zones qd d :
  (cfl cfg <? 0) = false -> ge0 (dt_est qd) ->
  ge0 (dt_est (fst (FA.update cfg cmp zones qd d))).
Proof.
  intros Hc. cbn. generalize (dt_est qd) as est.
  induction (FA.batches zones) as [|b bs IH]; intros est He; [exact He|].
  cbn. apply IH. unfold FA.batch_estimate.
  generalize (FA.batch_min_detJ b) as m. intros m. revert est He.
  induction b as [|z b IHb]; intros est He; [exact He|].
  cbn. apply IHb. unfold FA.zone_estimate. revert est He.
  induction (points z) as [|pt l IHl]; intros est He; [exact He|].
  cbn. apply IHl. now apply point_estimate_ge0.
Qed.


(** *** Points without a rate *)

Lemma zero_rate_skipped h0 m z pt est :
  (m <? 0) = false ->
  is_zero (FA.sound_speed_of cmp z pt) = true ->
  is_zero (FA.visc_coeff_of cfg cmp h0 z pt) = true ->
  Dbl.gt (FA.inv_dt_of cfg cmp h0 z pt) 0.0 = false /\
  FA.point_estimate cfg cmp h0 m z pt est = est.
Proof.
  intros Hm Hc Hv.
  assert (Hi : Dbl.gt (FA.inv_dt_of cfg cmp h0 z pt) 0.0 = false)
    by (apply inv_rate_zero; assumption).
  split; [exact Hi|]. unfold FA.point_estimate. now rewrite Hm, Hi.
Qed.

Lemma elastic_bound h0 m z pt est :
  (m <? 0) = false ->
  is_zero (FA.visc_coeff_of cfg cmp h0 z pt) = true ->
  Dbl.gt (FA.inv_dt_of cfg cmp h0 z pt) 0.0 = true ->
  FA.inv_dt_of cfg cmp h0 z pt = FA.sound_speed_of cmp z pt / FA.h_min_of cfg pt /\
  FA.point_estimate cfg cmp h0 m z pt est =
    Dbl.fmin est
      (cfl cfg * (1.0 / (FA.sound_speed_of cmp z pt / FA.h_min_of cfg pt))).
Proof.
  intros Hm Hv Hi.
  assert (He : FA.inv_dt_of cfg cmp h0 z pt
               = FA.sound_speed_of cmp z pt / FA.h_min_of cfg pt)
    by (apply inv_rate_elastic; assumption).
  split; [exact He|].
  unfold FA.point_estimate, FA.dt_local. now rewrite Hm, Hi, He.
Qed.

End FA.

(** *** The partial-assembly kernel *)

Section PA.
Variable cfg : Config.

Lemma pa_point_ge0 h0 z pt d :
  (cfl cfg <? 0) = false -> ge0 d -> ge0 (PA.point_estimate cfg h0 z pt d).
Proof.
  intros Hc Hd. unfold PA.point_estimate.
  destruct (Dbl.fmin infinity (detJ pt) <? 0.0); [exact ge0_zero|].
  destruct (Dbl.gt (PA.idt_of cfg h0 z pt) 0.0) eqn:Hi; [|exact Hd].
  apply fmin_ge0; [exact Hd|now apply div_not_neg].
Qed.

Lemma pa_point_inverted h0 z pt d :
  (detJ pt <? 0) = true -> PA.point_estimate cfg h0 z pt d = 0.
Proof.
  intros Hd. unfold PA.point_estimate.
  now rewrite (fmin_neg_r infinity (detJ pt) Hd).
Qed.

Lemma pa_point_regular h0 z pt d :
  (detJ pt <? 0) = false ->
  PA.point_estimate cfg h0 z pt d =
    if Dbl.gt (PA.idt_of cfg h0 z pt) 0.0
    then Dbl.fmin d (cfl cfg / PA.idt_of cfg h0 z pt) else d.
Proof.
  intros Hd. unfold PA.point_estimate.
  replace (Dbl.fmin infinity (detJ pt) <? 0.0) with false; [reflexivity|].
  unfold Dbl.fmin. replace (is_nan infinity) with false by reflexivity.
  destruct (is_nan (detJ pt)); [reflexivity|].
  destruct (detJ pt <? infinity); [now rewrite Hd|reflexivity].
Qed.

Definition pa_entries (h0 d : float) (zones : list Zone) : list float :=
  concat (map (fun z => map (fun pt => PA.point_estimate cfg h0 z pt d) (points z)) zones).

Lemma pa_entries_ge0 h0 d zones :
  (cfl cfg <? 0) = false -> ge0 d -> Forall ge0 (pa_entries h0 d zones).
Proof.
  intros Hc Hd. unfold pa_entries. apply Forall_concat, Forall_map, Forall_forall.
  intros z _. apply Forall_map, Forall_forall. intros pt _. now apply pa_point_ge0.
Qed.

Lemma pa_update_ge0 stale zones qd :
  (cfl cfg <? 0) = false -> ge0 (dt_est qd) ->
  ge0 (dt_est (PA.update cfg stale zones qd)).
Proof. intros Hc Hd. cbn. now apply Vector_Min_ge0, pa_entries_ge0. Qed.

Lemma pa_update_inverted stale zones qd :
  (cfl cfg <? 0) = false -> ge0 (dt_est qd) -> has_negative_detJ zones ->
  is_zero (dt_est (PA.update cfg stale zones qd)) = true.
Proof.
  intros Hc Hd (z & pt & Hz & Hpt & Hneg). cbn.
  apply Vector_Min_zero; [now apply pa_entries_ge0|].
  apply Exists_exists. exists 0. split; [|reflexivity].
  apply in_concat. exists (map (fun pt => PA.point_estimate cfg (h0 qd) z pt (dt_est qd)) (points z)).
  split.
  - apply in_map_iff. now exists z.
  - apply in_map_iff. exists pt. split; [now apply pa_point_inverted|exact Hpt].
Qed.


Lemma pa_zero_rate_skipped h0 z pt d :
  (detJ pt <? 0) = false ->
  is_zero (PA.S_of z pt) = true ->
  is_zero (PA.visc_coeff_of cfg h0 z pt) = true ->
  Dbl.gt (PA.idt_of cfg h0 z pt) 0.0 = false /\
  PA.point_estimate cfg h0 z pt d = d.
Proof.
  intros Hd Hs Hv.
  assert (Hi : Dbl.gt (PA.idt_of cfg h0 z pt) 0.0 = false)
    by (apply idt_zero; assumption).
  split; [exact Hi|]. rewrite pa_point_regular by exact Hd. now rewrite Hi.
Qed.

Lemma pa_elastic_bound h0 z pt d :
  (detJ pt <? 0) = false ->
  is_zero (PA.visc_coeff_of cfg h0 z pt) = true ->
  Dbl.gt (PA.idt_of cfg h0 z pt) 0.0 = true ->
  let ih_min := 1.0 / (sv_min pt / Dbl.of_int (order cfg)) in
  PA.idt_of cfg h0 z pt = PA.S_of z pt * ih_min /\
  PA.point_estimate cfg h0 z pt d = Dbl.fmin d (cfl cfg / (PA.S_of z pt * ih_min)).
Proof.
  intros Hd Hv Hi ih_min.
  assert (He : PA.idt_of cfg h0 z pt = PA.S_of z pt * ih_min)
    by (apply idt_elastic; assumption).
  split; [exact He|]. rewrite pa_point_regular by exact Hd. now rewrite Hi, He.
Qed.

End PA.
End KernelFacts.

(** ** The rate evaluator: freshness flag and order of the sub-solves *)

Module HydroFacts.
Section Facts.

Variable cfg : Config.
Variable mf : Collaborators.

(** What is assumed of [ResetQuadratureData()], whose body is in the header:
    it clears the freshness flag and leaves the other members alone. *)
Definition reset_clears_flag : Prop :=
  forall op, ResetQuadratureData mf op = Hydro.set_current false op.

(** Cost of one run of the kernel on [timer.quad_tstep]. *)
Definition refresh_cost (op : Oper) : Z :=
  if qdata_is_current op then 0%Z else Z.of_nat (NE cfg).

Lemma refresh_current S dt op :
  qdata_is_current (Hydro.refresh cfg mf S dt op) = true.
Proof.
  unfold Hydro.refresh.
  destruct ((1 <? dim cfg)%nat && p_assembly cfg); [reflexivity|].
  now destruct (FA.update _ _ _ _ _).
Qed.

Lemma refresh_tstep S dt op :
  quad_tstep (Hydro.refresh cfg mf S dt op) = (quad_tstep op + Z.of_nat (NE cfg))%Z.
Proof.
  unfold Hydro.refresh.
  destruct ((1 <? dim cfg)%nat && p_assembly cfg); [reflexivity|].
  now destruct (FA.update _ _ _ _ _).
Qed.

Lemma refresh_nodes S dt op :
  nodes (Hydro.refresh cfg mf S dt op) = nodes op.
Proof.
  unfold Hydro.refresh.
  destruct ((1 <? dim cfg)%nat && p_assembly cfg); [reflexivity|].
  now destruct (FA.update _ _ _ _ _).
Qed.

Lemma update_when_current S dt op :
  qdata_is_current op = true -> Hydro.UpdateQuadratureData cfg mf S dt op = op.
Proof. intros H. unfold Hydro.UpdateQuadratureData. now rewrite H. Qed.

Lemma update_current S dt op :
  qdata_is_current (Hydro.UpdateQuadratureData cfg mf S dt op) = true.
Proof.
  unfold Hydro.UpdateQuadratureData.
  destruct (qdata_is_current op) eqn:E; [exact E|apply refresh_current].
Qed.

Lemma update_tstep S dt op :
  quad_tstep (Hydro.UpdateQuadratureData cfg mf S dt op)
  = (quad_tstep op + refresh_cost op)%Z.
Proof.
  unfold Hydro.UpdateQuadratureData, refresh_cost.
  destruct (qdata_is_current op); [lia|apply refresh_tstep].
Qed.

Lemma update_idempotent S dt op :
  Hydro.UpdateQuadratureData cfg mf S dt (Hydro.UpdateQuadratureData cfg mf S dt op)
  = Hydro.UpdateQuadratureData cfg mf S dt op.
Proof. apply update_when_current, update_current. Qed.

Lemma assemble_current op :
  qdata_is_current (Hydro.AssembleForceMatrix cfg op) = qdata_is_current op.
Proof.
  unfold Hydro.AssembleForceMatrix.
  now destruct (forcemat_is_assembled op || p_assembly cfg).
Qed.

Lemma assemble_tstep op :
  quad_tstep (Hydro.AssembleForceMatrix cfg op) = quad_tstep op.
Proof.
  unfold Hydro.AssembleForceMatrix.
  now destruct (forcemat_is_assembled op || p_assembly cfg).
Qed.

Lemma assemble_nodes op :
  nodes (Hydro.AssembleForceMatrix cfg op) = nodes op.
Proof.
  unfold Hydro.AssembleForceMatrix.
  now destruct (forcemat_is_assembled op || p_assembly cfg).
Qed.

(** Each sub-solve leaves the cache current and has run the kernel at most
    once. *)
Lemma SolveVelocity_flag S dS dt op :
  let op' := fst (Hydro.SolveVelocity cfg mf S dS dt op) in
  qdata_is_current op' = true /\
  quad_tstep op' = (quad_tstep op + refresh_cost op)%Z.
Proof.
  cbn. now rewrite assemble_current, assemble_tstep, update_current, update_tstep.
Qed.

Lemma SolveEnergy_flag S v dS dt op :
  let op' := fst (Hydro.SolveEnergy cfg mf S v dS dt op) in
  qdata_is_current op' = true /\
  quad_tstep op' = (quad_tstep op + refresh_cost op)%Z.
Proof.
  cbn. now rewrite assemble_current, assemble_tstep, update_current, update_tstep.
Qed.

Lemma SolveStress_flag S dS dt op :
  let op' := fst (Hydro.SolveStress cfg mf S dS dt op) in
  qdata_is_current op' = true /\
  quad_tstep op' = (quad_tstep op + refresh_cost op)%Z.
Proof.
  cbn. now rewrite update_current, update_tstep.
Qed.

(** The sub-solves start with the refresh attempt: attempting the refresh
    before the call changes nothing. *)
Lemma SolveVelocity_refreshes_first S dS dt op :
  Hydro.SolveVelocity cfg mf S dS dt (Hydro.UpdateQuadratureData cfg mf S dt op)
  = Hydro.SolveVelocity cfg mf S dS dt op.
Proof. unfold Hydro.SolveVelocity. now rewrite update_idempotent. Qed.

Lemma SolveEnergy_refreshes_first S v dS dt op :
  Hydro.SolveEnergy cfg mf S v dS dt (Hydro.UpdateQuadratureData cfg mf S dt op)
  = Hydro.SolveEnergy cfg mf S v dS dt op.
Proof. unfold Hydro.SolveEnergy. now rewrite update_idempotent. Qed.

Lemma SolveStress_refreshes_first S dS dt op :
  Hydro.SolveStress cfg mf S dS dt (Hydro.UpdateQuadratureData cfg mf S dt op)
  = Hydro.SolveStress cfg mf S dS dt op.
Proof. unfold Hydro.SolveStress. now rewrite update_idempotent. Qed.

Lemma Mult_flag S dS dt op :
  let op' := fst (Hydro.Mult cfg mf S dS dt op) in
  qdata_is_current op' = false /\
  quad_tstep op' = (quad_tstep op + refresh_cost op)%Z.
Proof.
  unfold Hydro.Mult.
  set (op0 := Hydro.UpdateMesh S op).
  set (dS0 := mkBlockVector _ _ _ _).
  destruct (Hydro.SolveVelocity cfg mf S dS0 dt op0) as [op1 dS1] eqn:E1.
  destruct (Hydro.SolveEnergy cfg mf S (blk_v S) dS1 dt op1) as [op2 dS2] eqn:E2.
  pose proof (SolveVelocity_flag S dS0 dt op0) as H1. rewrite E1 in H1.
  pose proof (SolveEnergy_flag S (blk_v S) dS1 dt op1) as H2. rewrite E2 in H2.
  cbn in *. destruct H1 as [H1 H1'], H2 as [H2 H2'].
  split; [reflexivity|].
  rewrite H2', H1'. unfold refresh_cost at 2. rewrite H1.
  unfold refresh_cost, op0. cbn. lia.
Qed.

(** C6. The freshness flag allows at most one run of the quadrature kernel
    per trial-state evaluation: [UpdateQuadratureData] returns the operator
    untouched when the flag says the cache is current; each of the velocity,
    energy and stress-rate sub-solves starts with the refresh attempt, leaves
    the flag set and has run the kernel exactly when the flag was clear; and
    every [Mult] clears the flag at its end, having run the kernel at most
    once, so that the next [Mult] runs it exactly once. *)
Theorem freshness_flag_one_refresh :
  forall (S S' : BlockVector) (v : Vector) (dS dS' : BlockVector)
         (dt dt' : float) (op : Oper),
    (qdata_is_current op = true ->
     Hydro.UpdateQuadratureData cfg mf S dt op = op) /\
    (Hydro.SolveVelocity cfg mf S dS dt (Hydro.UpdateQuadratureData cfg mf S dt op)
       = Hydro.SolveVelocity cfg mf S dS dt op /\
     Hydro.SolveEnergy cfg mf S v dS dt (Hydro.UpdateQuadratureData cfg mf S dt op)
       = Hydro.SolveEnergy cfg mf S v dS dt op /\
     Hydro.SolveStress cfg mf S dS dt (Hydro.UpdateQuadratureData cfg mf S dt op)
       = Hydro.SolveStress cfg mf S dS dt op) /\
    (let op' := fst (Hydro.SolveVelocity cfg mf S dS dt op) in
     qdata_is_current op' = true /\
     quad_tstep op' = (quad_tstep op + refresh_cost op)%Z) /\
    (let op' := fst (Hydro.SolveEnergy cfg mf S v dS dt op) in
     qdata_is_current op' = true /\
     quad_tstep op' = (quad_tstep op + refresh_cost op)%Z) /\
    (let op' := fst (Hydro.SolveStress cfg mf S dS dt op) in
     qdata_is_current op' = true /\
     quad_tstep op' = (quad_tstep op + refresh_cost op)%Z) /\
    (let op1 := fst (Hydro.Mult cfg mf S dS dt op) in
     let op2 := fst (Hydro.Mult cfg mf S' dS' dt' op1) in
     qdata_is_current op1 = false /\
     quad_tstep op1 = (quad_tstep op + refresh_cost op)%Z /\
     quad_tstep op2 = (quad_tstep op1 + Z.of_nat (NE cfg))%Z).
Proof.
  intros S S' v dS dS' dt dt' op. split; [apply update_when_current|].
  split; [auto using SolveVelocity_refreshes_first, SolveEnergy_refreshes_first,
                      SolveStress_refreshes_first|].
  split; [apply SolveVelocity_flag|].
  split; [apply SolveEnergy_flag|].
  split; [apply SolveStress_flag|].
  destruct (Mult_flag S dS dt op) as [H1 H2].
  destruct (Mult_flag S' dS' dt' (fst (Hydro.Mult cfg mf S dS dt op))) as [_ H3].
  cbn zeta. split; [exact H1|]. split; [exact H2|].
  rewrite H3. unfold refresh_cost at 1. now rewrite H1.
Qed.

(** What [Mult] writes to the rate: the velocity block of [S] as
    position-derivative, the results of the velocity and energy solves, and
    nothing in the stress block. *)
Lemma Mult_blocks S dS dt op :
  let r := snd (Hydro.Mult cfg mf S dS dt op) in
  let op1 := fst (Hydro.SolveVelocity cfg mf S dS dt (Hydro.UpdateMesh S op)) in
  blk_x r = blk_v S /\
  blk_v r = blk_v (snd (Hydro.SolveVelocity cfg mf S dS dt (Hydro.UpdateMesh S op))) /\
  blk_e r = blk_e (snd (Hydro.SolveEnergy cfg mf S (blk_v S) dS dt op1)) /\
  blk_sig r = blk_sig dS.
Proof. cbn. auto. Qed.

(** C1. [Mult] synchronises the mesh, sets the
    position-derivative, runs the velocity update and the energy update and
    marks the cache stale, in this order, but never runs the stress-rate
    update: the stress block of the rate it returns is the one it was
    given, while a stage of [RK2AvgSolver::Step] on the same inputs stores
    there the result of [SolveStress]. *)
Theorem Mult_omits_stress_rate :
  forall (S dS : BlockVector) (dt : float) (op : Oper),
    let op0 := Hydro.UpdateMesh S op in
    let dS0 := mkBlockVector (blk_v S) (blk_v dS) (blk_e dS) (blk_sig dS) in
    let sv := Hydro.SolveVelocity cfg mf S dS0 dt op0 in
    let se := Hydro.SolveEnergy cfg mf S (blk_v S) (snd sv) dt (fst sv) in
    Hydro.Mult cfg mf S dS dt op = (Hydro.set_current false (fst se), snd se) /\
    blk_sig (snd (Hydro.Mult cfg mf S dS dt op)) = blk_sig dS /\
    (forall v0,
       let '(op', _, r) := Hydro.stage cfg mf v0 S dS dt op in
       blk_sig r =
         if ((dim cfg =? 2) || (dim cfg =? 3))%nat
         then Sigma_solve mf (nodes op') (qdata op') (blk_sig dS)
         else blk_sig dS).
Proof.
  intros S dS dt op op0 dS0 sv se. split; [|split].
  - unfold Hydro.Mult. fold op0. fold dS0. fold sv.
    destruct sv as [op1 dS1] eqn:E. cbn [fst snd] in *. subst se.
    now destruct (Hydro.SolveEnergy cfg mf S (blk_v S) dS1 dt op1).
  - now cbn.
  - intros v0. cbn. reflexivity.
Qed.

End Facts.
End HydroFacts.

(** ** The adaptive step driver *)

Module DriverFacts.
Section Facts.

Variable Objects : Type.
Variable mem : Driver.Members Objects.
Variable param : Params.


(** The state on which the time step control runs, and the dt handed to
    [Step]. *)
Definition stepped (l : Loop Objects) : Loop Objects :=
  Driver.material_update mem param
    (Driver.trial_step mem (Driver.begin_step mem param l)).

Definition dt_taken (l : Loop Objects) : float := dt (Driver.begin_step mem param l).

(** The global estimate the control reads, and the objects it leaves once
    the length estimate has been read too. *)
Definition estimate (l : Loop Objects) : float :=
  snd (Driver.GetTimeStepEstimate mem (objects (stepped l))
         (f_S (cur (stepped l))) (dt (stepped l))).

Definition estimated (l : Loop Objects) : Objects :=
  fst (Driver.GetLengthEstimate mem
         (fst (Driver.GetTimeStepEstimate mem (objects l) (f_S (cur l)) (dt l)))
         (f_S (cur l)) (dt l)).

(** What the explicit solvers of MFEM do with the last two arguments of
    [Step(x, t, dt)]: [t] is advanced by [dt], [dt] is left. *)
Definition Step_advances : Prop :=
  forall o S t dt,
    snd (fst (Driver.Step mem o S t dt)) = t + dt /\
    snd (Driver.Step mem o S t dt) = dt.

(** *** What the code between [Step] and the control leaves alone *)

Lemma plastic_scalars (l : Loop Objects) :
  let l' := Driver.plastic_update mem param l in
  old l' = old l /\ t l' = t l /\ dt l' = dt l /\ t_old l' = t_old l /\
  ti l' = ti l /\ steps l' = steps l /\ last_step l' = last_step l /\
  mesh_changed l' = mesh_changed l /\ itime l' = itime l.
Proof.
  unfold Driver.plastic_update. destruct (plastic param); [|cbn; tauto].
  destruct (Driver.Returnmapping mem _ _ _ _) as [[o s] p]. cbn. tauto.
Qed.

Lemma flatten_scalars (l : Loop Objects) :
  let l' := Driver.flatten_update param l in
  old l' = old l /\ t l' = t l /\ dt l' = dt l /\ t_old l' = t_old l /\
  ti l' = ti l /\ steps l' = steps l /\ last_step l' = last_step l /\
  mesh_changed l' = mesh_changed l /\ itime l' = itime l.
Proof.
  unfold Driver.flatten_update.
  destruct (winkler_foundation param && winkler_flat param); cbn; tauto.
Qed.

Lemma amr_scalars (l : Loop Objects) :
  let l' := Driver.amr_update mem l in
  t l' = t l /\ dt l' = dt l /\ t_old l' = t_old l /\
  ti l' = ti l /\ steps l' = steps l /\ last_step l' = last_step l /\
  mesh_changed l' = mesh_changed l /\ itime l' = itime l.
Proof.
  unfold Driver.amr_update.
  destruct (Driver.geo_TMOPUpdate mem _ _ true) as [o2 S2].
  destruct (Driver.geo_TMOPUpdate mem _ _ false) as [o5 S5].
  cbn. tauto.
Qed.

Lemma remesh_scalars (l : Loop Objects) :
  let l' := Driver.remesh_update mem param l in
  t l' = t l /\ dt l' = dt l /\ t_old l' = t_old l /\
  ti l' = ti l /\ steps l' = steps l /\ last_step l' = last_step l /\
  itime l' = itime l.
Proof.
  unfold Driver.remesh_update.
  destruct (tmop param && Driver.remesh_due param l); [|cbn; tauto].
  destruct (Driver.remesh mem (objects l) (cur l)) as [o f].
  cbn [mesh_changed andb].
  destruct (amr param); [|cbn; tauto].
  match goal with |- context [Driver.amr_update mem ?x] =>
    pose proof (amr_scalars x) as H end.
  cbn zeta in H. cbn in H |- *. tauto.
Qed.

(** The remeshing branch is the only code that raises [mesh_changed], and
    it raises it whenever it runs. *)
Lemma remesh_flag (l : Loop Objects) :
  mesh_changed (Driver.remesh_update mem param l)
  = (tmop param && Driver.remesh_due param l) || mesh_changed l.
Proof.
  unfold Driver.remesh_update.
  destruct (tmop param && Driver.remesh_due param l); [|reflexivity].
  destruct (Driver.remesh mem (objects l) (cur l)) as [o f].
  cbn [mesh_changed andb orb].
  destruct (amr param); [|reflexivity].
  match goal with |- context [Driver.amr_update mem ?x] =>
    pose proof (amr_scalars x) as H end.
  cbn zeta in H. destruct H as (_ & _ & _ & _ & _ & _ & H & _).
  rewrite H. reflexivity.
Qed.

Lemma remesh_skipped (l : Loop Objects) :
  mesh_changed (Driver.remesh_update mem param l) = false ->
  Driver.remesh_update mem param l = l.
Proof.
  rewrite remesh_flag. intros H. apply orb_false_elim in H. destruct H as [H _].
  unfold Driver.remesh_update. now rewrite H.
Qed.

Lemma material_scalars (l : Loop Objects) :
  let l' := Driver.material_update mem param l in
  t l' = t l /\ dt l' = dt l /\ t_old l' = t_old l /\
  ti l' = ti l /\ steps l' = steps l /\ last_step l' = last_step l /\
  itime l' = itime l.
Proof.
  unfold Driver.material_update.
  pose proof (remesh_scalars
                (Driver.flatten_update param (Driver.plastic_update mem param l))) as Hr.
  pose proof (flatten_scalars (Driver.plastic_update mem param l)) as Hf.
  pose proof (plastic_scalars l) as Hp.
  cbn zeta in *.
  destruct Hr as (-> & -> & -> & -> & -> & -> & ->).
  destruct Hf as (_ & -> & -> & -> & -> & -> & -> & _ & ->).
  destruct Hp as (_ & -> & -> & -> & -> & -> & -> & _ & ->).
  tauto.
Qed.

(** Without remeshing in the pass the snapshot is the one taken at the
    head. *)
Lemma material_old (l : Loop Objects) :
  mesh_changed (Driver.material_update mem param l) = false ->
  old (Driver.material_update mem param l) = old l.
Proof.
  unfold Driver.material_update. intros H.
  rewrite (remesh_skipped _ H).
  pose proof (flatten_scalars (Driver.plastic_update mem param l)) as Hf.
  pose proof (plastic_scalars l) as Hp. cbn zeta in *.
  destruct Hf as (-> & _). now destruct Hp as (-> & _).
Qed.

Lemma trial_scalars (l : Loop Objects) :
  let l' := Driver.trial_step mem l in
  old l' = old l /\ t_old l' = t_old l /\ ti l' = ti l /\ steps l' = steps l /\
  last_step l' = last_step l /\ mesh_changed l' = mesh_changed l /\
  t l' = snd (fst (Driver.Step mem (objects l) (f_S (cur l)) (t l) (dt l))) /\
  dt l' = snd (Driver.Step mem (objects l) (f_S (cur l)) (t l) (dt l)).
Proof.
  unfold Driver.trial_step.
  destruct (Driver.Step mem (objects l) (f_S (cur l)) (t l) (dt l)) as [[[o S1] t1] d1].
  cbn. tauto.
Qed.

Lemma stepped_dt (l : Loop Objects) : Step_advances -> dt (stepped l) = dt_taken l.
Proof.
  intros Hs. unfold stepped, dt_taken.
  destruct (material_scalars (Driver.trial_step mem (Driver.begin_step mem param l)))
    as (_ & -> & _).
  destruct (trial_scalars (Driver.begin_step mem param l)) as (_ & _ & _ & _ & _ & _ & _ & ->).
  apply Hs.
Qed.

Lemma stepped_t (l : Loop Objects) : Step_advances -> t (stepped l) = t l + dt_taken l.
Proof.
  intros Hs. unfold stepped, dt_taken.
  destruct (material_scalars (Driver.trial_step mem (Driver.begin_step mem param l)))
    as (-> & _).
  destruct (trial_scalars (Driver.begin_step mem param l)) as (_ & _ & _ & _ & _ & _ & -> & _).
  apply Hs.
Qed.

Lemma stepped_old (l : Loop Objects) :
  mesh_changed (stepped l) = false -> old (stepped l) = cur l.
Proof.
  intros H. unfold stepped in *. rewrite (material_old _ H).
  now destruct (trial_scalars (Driver.begin_step mem param l)) as (-> & _).
Qed.

Lemma stepped_t_old (l : Loop Objects) : t_old (stepped l) = t l.
Proof.
  unfold stepped.
  destruct (material_scalars (Driver.trial_step mem (Driver.begin_step mem param l)))
    as (_ & _ & -> & _).
  now destruct (trial_scalars (Driver.begin_step mem param l)) as (_ & -> & _).
Qed.

Lemma stepped_ti (l : Loop Objects) : ti (stepped l) = ti l.
Proof.
  unfold stepped.
  destruct (material_scalars (Driver.trial_step mem (Driver.begin_step mem param l)))
    as (_ & _ & _ & -> & _).
  now destruct (trial_scalars (Driver.begin_step mem param l)) as (_ & _ & -> & _).
Qed.

Lemma stepped_steps (l : Loop Objects) : steps (stepped l) = steps l.
Proof.
  unfold stepped.
  destruct (material_scalars (Driver.trial_step mem (Driver.begin_step mem param l)))
    as (_ & _ & _ & _ & -> & _).
  now destruct (trial_scalars (Driver.begin_step mem param l)) as (_ & _ & _ & -> & _).
Qed.

Lemma stepped_last (l : Loop Objects) :
  last_step (stepped l) = last_step (Driver.begin_step mem param l).
Proof.
  unfold stepped.
  destruct (material_scalars (Driver.trial_step mem (Driver.begin_step mem param l)))
    as (_ & _ & _ & _ & _ & -> & _).
  now destruct (trial_scalars (Driver.begin_step mem param l)) as (_ & _ & _ & _ & -> & _).
Qed.

Lemma begin_last (l : Loop Objects) :
  (t_final param <=? t l + dt l) = true \/ steps l = max_tsteps param ->
  last_step (Driver.begin_step mem param l) = true.
Proof.
  intros [H|H]; cbn.
  - rewrite H. now destruct (steps l =? max_tsteps param)%Z.
  - rewrite H, Z.eqb_refl. reflexivity.
Qed.

(** The four ways through the time step control. *)
Lemma control_cases (l : Loop Objects) :
  let est := snd (Driver.GetTimeStepEstimate mem (objects l) (f_S (cur l)) (dt l)) in
  match Driver.time_step_control mem param l with
  | Accepted l' =>
      cur l' = cur l /\ t l' = t l /\ mesh_changed l' = false /\
      ti l' = ti l /\ saved l' = saved l /\
      ((mesh_changed l = true /\ dt l' = dt l) \/
       (mesh_changed l = false /\ (est <? dt l) = false /\
        Dbl.gt est (1.25 * dt l) = true /\ dt l' = dt l * 1.02) \/
       (mesh_changed l = false /\ (est <? dt l) = false /\
        Dbl.gt est (1.25 * dt l) = false /\ dt l' = dt l))
  | Repeated l' =>
      mesh_changed l = false /\ (est <? dt l) = true /\
      (dt l * 0.50 <? 1.0E-38) = false /\
      dt l' = dt l * 0.50 /\ cur l' = old l /\ t l' = t_old l /\
      objects l' = Driver.ResetQuadratureData mem (estimated l) /\
      ti l' = (ti l - 1)%Z /\
      saved l' = saved l
  | Aborted l' =>
      mesh_changed l = false /\ (est <? dt l) = true /\
      (dt l * 0.50 <? 1.0E-38) = true /\
      saved l' = saved l ++ Driver.crash_output param l
  end.
Proof.
  unfold Driver.time_step_control, estimated.
  destruct (Driver.GetTimeStepEstimate mem (objects l) (f_S (cur l)) (dt l))
    as [o1 est] eqn:E.
  destruct (Driver.GetLengthEstimate mem o1 (f_S (cur l)) (dt l)) as [o2 h] eqn:E2.
  cbn [fst snd].
  destruct (mesh_changed l) eqn:Hm.
  - cbn. intuition.
  - destruct (est <? dt l) eqn:Hlt.
    + destruct (dt l * 0.50 <? 1.0E-38) eqn:Hfloor; cbn; rewrite ?E2; intuition.
    + destruct (Dbl.gt est (1.25 * dt l)) eqn:Hgt; cbn; intuition.
Qed.

(** What the control does to the counter of passes and to the flag of the
    last step, whatever the outcome. *)
Lemma control_last (l : Loop Objects) :
  match Driver.time_step_control mem param l with
  | Accepted l' | Aborted l' =>
      last_step l' = last_step l /\ steps l' = (steps l + 1)%Z
  | Repeated l' =>
      last_step l' = (if (steps l + 1 <? max_tsteps param)%Z then false
                      else last_step l) /\
      steps l' = (steps l + 1)%Z
  end.
Proof.
  unfold Driver.time_step_control.
  destruct (Driver.GetTimeStepEstimate mem (objects l) (f_S (cur l)) (dt l))
    as [o1 est].
  destruct (Driver.GetLengthEstimate mem o1 (f_S (cur l)) (dt l)) as [o2 h].
  destruct (mesh_changed l); [now cbn|].
  destruct (est <? dt l).
  - destruct (dt l * 0.50 <? 1.0E-38); now cbn.
  - destruct (Dbl.gt est (1.25 * dt l)); now cbn.
Qed.


(** C5. The run aborts at the time step control exactly when a step is
    rejected and the halved dt is below [1.0E-38]; the VisIt and ParaView
    checkpoints that are switched on have then been saved, at the current
    cycle and time, before the abort.  With a halved dt at or above the floor
    the control does not abort. *)
Theorem abort_below_floor_after_flush :
  forall (l : Loop Objects),
    let est := snd (Driver.GetTimeStepEstimate mem (objects l) (f_S (cur l))
                                               (dt l)) in
    (mesh_changed l = false /\ (est <? dt l) = true /\
     (dt l * 0.50 <? 1.0E-38) = true <->
     exists l', Driver.time_step_control mem param l = Aborted l') /\
    (forall l', Driver.time_step_control mem param l = Aborted l' ->
       dt l' = dt l * 0.50 /\
       saved l' =
         saved l
         ++ (if visit param then [VisitSave (ti l) (t l)] else [])
         ++ (if paraview param then [ParaviewSave (ti l) (t l)] else [])) /\
    ((dt l * 0.50 <? 1.0E-38) = false ->
     forall l', Driver.time_step_control mem param l <> Aborted l').
Proof.
  intros l est.
  unfold Driver.time_step_control in *. subst est.
  destruct (Driver.GetTimeStepEstimate mem (objects l) (f_S (cur l)) (dt l))
    as [o1 e] eqn:E.
  destruct (Driver.GetLengthEstimate mem o1 (f_S (cur l)) (dt l)) as [o2 h] eqn:E2.
  cbn [snd] in *.
  destruct (mesh_changed l) eqn:Hm.
  { split; [split; [intros (X & _); discriminate|intros [l' X]; discriminate]|].
    split; intros; discriminate. }
  destruct (e <? dt l) eqn:Hlt.
  2:{ destruct (Dbl.gt e (1.25 * dt l));
      (split; [split; [intros (_ & X & _); discriminate|intros [l' X]; discriminate]|]);
      split; intros; discriminate. }
  destruct (dt l * 0.50 <? 1.0E-38) eqn:Hfl.
  - split; [split; [intros _; eexists; reflexivity|auto]|].
    split; [|intros; discriminate].
    intros l' Hl'. injection Hl' as <-. cbn. split; reflexivity.
  - split; [split; [intros (_ & _ & X); discriminate|intros [l' X]; discriminate]|].
    split; intros; discriminate.
Qed.

End Facts.

Arguments stepped {Objects}.
Arguments dt_taken {Objects}.
Arguments estimate {Objects}.
Arguments estimated {Objects}.
Arguments Step_advances {Objects}.
Arguments stepped_dt {Objects}.
Arguments stepped_t {Objects}.
Arguments stepped_old {Objects}.
Arguments stepped_t_old {Objects}.
Arguments stepped_ti {Objects}.
Arguments stepped_steps {Objects}.
Arguments stepped_last {Objects}.
Arguments begin_last {Objects}.
Arguments control_cases {Objects}.
Arguments control_last {Objects}.
Arguments remesh_flag {Objects}.
Arguments remesh_skipped {Objects}.
Arguments material_scalars {Objects}.
Arguments trial_scalars {Objects}.

End DriverFacts.

(** ** The stable-dt estimate, from the kernel to the driver *)

Module EstimateFacts.
Import DblFacts KernelFacts.
Section Facts.

Variable cfg : Config.
Variable mf : Collaborators.

(** The test [dim > 1 && p_assembly] that sends a refresh to [QUpdate]. *)
Definition on_PA_path : bool := (1 <? dim cfg)%nat && p_assembly cfg.

(** The zones a refresh visits when the mesh nodes are [nodes]. *)
Definition visited (nodes : Vector) (S : BlockVector) : list Zone :=
  if on_PA_path then sample_PA mf S else sample mf nodes S.

Definition est_of (op : Oper) : float := dt_est (qdata op).

Lemma min_detJ_not_negative (b : list Zone) :
  (forall z pt, In z b -> In pt (points z) -> (detJ pt <? 0) = false) ->
  (FA.batch_min_detJ b <? 0) = false.
Proof.
  unfold FA.batch_min_detJ.
  assert (Hstep : forall m d, (m <? 0) = false -> (d <? 0) = false ->
                              (Dbl.fmin m d <? 0) = false).
  { intros m d Hm Hd. unfold Dbl.fmin.
    destruct (is_nan m); [exact Hd|]. destruct (is_nan d); [exact Hm|].
    now destruct (d <? m). }
  assert (Hinf : (infinity <? 0) = false) by reflexivity.
  revert Hinf. generalize infinity as m.
  induction b as [|z b IH]; intros m Hm Hall; [exact Hm|].
  cbn. apply IH.
  - unfold FA.zone_min_detJ.
    assert (Hz : forall pt, In pt (points z) -> (detJ pt <? 0) = false)
      by (intros pt Hpt; apply (Hall z pt); [now left|exact Hpt]).
    revert m Hm Hz. induction (points z) as [|pt l IHl]; intros m Hm Hz; [exact Hm|].
    cbn. apply IHl; [apply Hstep; [exact Hm|apply Hz; now left]|].
    intros pt' Hpt'. apply Hz. now right.
  - intros z' pt Hz' Hpt. apply (Hall z' pt); [now right|exact Hpt].
Qed.

Lemma refresh_est S dt op :
  est_of (Hydro.refresh cfg mf S dt op) =
    if on_PA_path
    then dt_est (PA.update cfg (tau0_stale mf) (sample_PA mf S) (qdata op))
    else dt_est (fst (FA.update cfg (ComputeMaterialProperties mf)
                                (sample mf (nodes op) S) (qdata op) (old_stress op))).
Proof.
  unfold Hydro.refresh, est_of, on_PA_path.
  destruct ((1 <? dim cfg)%nat && p_assembly cfg); [reflexivity|].
  now destruct (FA.update _ _ _ _ _).
Qed.

Lemma refresh_ge0 S dt op :
  (cfl cfg <? 0) = false -> ge0 (est_of op) ->
  ge0 (est_of (Hydro.refresh cfg mf S dt op)).
Proof.
  intros Hc He. rewrite refresh_est. destruct on_PA_path.
  - now apply pa_update_ge0.
  - now apply update_ge0.
Qed.

Lemma refresh_inverted S dt op :
  (cfl cfg <? 0) = false -> ge0 (est_of op) ->
  has_negative_detJ (visited (nodes op) S) ->
  is_zero (est_of (Hydro.refresh cfg mf S dt op)) = true.
Proof.
  intros Hc He Hneg. rewrite refresh_est. unfold visited in Hneg.
  destruct on_PA_path.
  - now apply pa_update_inverted.
  - rewrite update_inverted; [reflexivity|exact Hc|].
    now apply zones_negative_batch.
Qed.

(** *** Properties of the estimate that every refresh preserves *)

Section Preserved.

Variable P : float -> Prop.
Hypothesis P_refresh :
  forall S dt op, P (est_of op) -> P (est_of (Hydro.refresh cfg mf S dt op)).

Lemma P_update S dt op :
  P (est_of op) -> P (est_of (Hydro.UpdateQuadratureData cfg mf S dt op)).
Proof.
  intros H. unfold Hydro.UpdateQuadratureData.
  destruct (qdata_is_current op); [exact H|now apply P_refresh].
Qed.

Lemma assemble_est op : est_of (Hydro.AssembleForceMatrix cfg op) = est_of op.
Proof.
  unfold Hydro.AssembleForceMatrix.
  now destruct (forcemat_is_assembled op || p_assembly cfg).
Qed.

End Preserved.

(** *** What [GetTimeStepEstimate] returns on a stale cache *)

Lemma UpdateMesh_est S op : est_of (Hydro.UpdateMesh S op) = est_of op.
Proof. reflexivity. Qed.

Lemma estimate_on_stale S dt others op :
  qdata_is_current op = false ->
  snd (Hydro.GetTimeStepEstimate cfg mf S dt others op)
  = MPI_Allreduce_MIN
      (est_of (Hydro.refresh cfg mf S dt (Hydro.UpdateMesh S op))) others.
Proof.
  intros H. unfold Hydro.GetTimeStepEstimate, Hydro.UpdateQuadratureData.
  cbn. now rewrite H.
Qed.

Lemma reduce_keeps_zero e others :
  is_zero e = true -> Forall (fun o => (o <? 0) = false) others ->
  MPI_Allreduce_MIN e others = e.
Proof.
  intros He Hall. unfold MPI_Allreduce_MIN.
  induction Hall as [|o others Ho _ IH]; [reflexivity|].
  cbn. now rewrite fmin_zero_keep.
Qed.


(** *** A zero estimate stays a zero *)

Lemma fold_left_keeps {A : Type} (P : float -> Prop) (f : float -> A -> float) l :
  (forall a x, P a -> P (f a x)) -> forall a, P a -> P (fold_left f l a).
Proof.
  intros Hf. induction l as [|x l IH]; intros a Ha; [exact Ha|].
  cbn. apply IH, Hf, Ha.
Qed.

Lemma fa_point_keeps_zero cmp h0 m z pt e :
  (cfl cfg <? 0) = false -> is_zero e = true ->
  is_zero (FA.point_estimate cfg cmp h0 m z pt e) = true.
Proof.
  intros Hc He. unfold FA.point_estimate.
  destruct (m <? 0.0); [reflexivity|].
  destruct (Dbl.gt (FA.inv_dt_of cfg cmp h0 z pt) 0.0) eqn:Hi; [|exact He].
  rewrite fmin_zero_keep; [exact He|exact He|].
  now apply dt_local_not_neg.
Qed.

Lemma fa_update_keeps_zero cmp zones qd d :
  (cfl cfg <? 0) = false -> is_zero (dt_est qd) = true ->
  is_zero (dt_est (fst (FA.update cfg cmp zones qd d))) = true.
Proof.
  intros Hc He. cbn.
  apply (fold_left_keeps (fun e => is_zero e = true)); [|exact He].
  intros a b Ha. unfold FA.batch_estimate.
  apply (fold_left_keeps (fun e => is_zero e = true)); [|exact Ha].
  intros a' z Ha'. unfold FA.zone_estimate.
  apply (fold_left_keeps (fun e => is_zero e = true)); [|exact Ha'].
  intros a'' pt Ha''. now apply fa_point_keeps_zero.
Qed.

Lemma zero_ge0 e : is_zero e = true -> ge0 e.
Proof.
  intros He. split; [|now apply zero_not_nan].
  destruct (zero_ltb e 0 He) as [H _]. now rewrite H.
Qed.

Lemma pa_point_keeps_zero h0 z pt d :
  (cfl cfg <? 0) = false -> is_zero d = true ->
  is_zero (PA.point_estimate cfg h0 z pt d) = true.
Proof.
  intros Hc Hd. unfold PA.point_estimate.
  destruct (Dbl.fmin infinity (detJ pt) <? 0.0); [reflexivity|].
  destruct (Dbl.gt (PA.idt_of cfg h0 z pt) 0.0) eqn:Hi; [|exact Hd].
  rewrite fmin_zero_keep; [exact Hd|exact Hd|].
  now apply div_not_neg.
Qed.

Lemma pa_update_keeps_zero stale zones qd :
  (cfl cfg <? 0) = false -> is_zero (dt_est qd) = true ->
  all_points zones <> [] ->
  is_zero (dt_est (PA.update cfg stale zones qd)) = true.
Proof.
  intros Hc Hd Hne. cbn.
  apply Vector_Min_zero; [apply pa_entries_ge0; [exact Hc|now apply zero_ge0]|].
  assert (Hin : exists zp, In zp (all_points zones)).
  { destruct (all_points zones) as [|zp r]; [congruence|]. exists zp. now left. }
  destruct Hin as [[z pt] Hin]. unfold all_points in Hin.
  apply in_concat in Hin. destruct Hin as (l & Hl & Hin).
  apply in_map_iff in Hl. destruct Hl as (z' & <- & Hz').
  apply in_map_iff in Hin. destruct Hin as (pt' & E & Hpt'). injection E as <- <-.
  apply Exists_exists.
  exists (PA.point_estimate cfg (h0 qd) z' pt' (dt_est qd)).
  split; [|now apply pa_point_keeps_zero].
  apply in_concat.
  exists (map (fun pt => PA.point_estimate cfg (h0 qd) z' pt (dt_est qd)) (points z')).
  split; [apply in_map_iff; now exists z'|].
  apply in_map_iff. now exists pt'.
Qed.

Lemma refresh_keeps_zero S dt op :
  (cfl cfg <? 0) = false -> is_zero (est_of op) = true ->
  (on_PA_path = true -> all_points (sample_PA mf S) <> []) ->
  is_zero (est_of (Hydro.refresh cfg mf S dt op)) = true.
Proof.
  intros Hc He Hne. rewrite refresh_est. destruct on_PA_path.
  - apply pa_update_keeps_zero; auto.
  - now apply fa_update_keeps_zero.
Qed.

(** *** The estimate through a step of [RK2AvgSolver] *)

(** Within a stage only the velocity solve can run the kernel: it leaves the
    cache current for the energy and the stress solves. *)
Lemma stage_est v0 S dS dt op :
  est_of (fst (fst (Hydro.stage cfg mf v0 S dS dt op)))
  = est_of (Hydro.UpdateQuadratureData cfg mf S dt (Hydro.UpdateMesh S op)).
Proof.
  unfold Hydro.stage.
  set (op0 := Hydro.UpdateMesh S op).
  destruct (Hydro.SolveVelocity cfg mf S dS dt op0) as [op1 dS1] eqn:E1.
  destruct (Hydro.SolveEnergy cfg mf S _ dS1 dt op1) as [op2 dS2] eqn:E2.
  destruct (Hydro.SolveStress cfg mf S dS2 dt op2) as [op3 dS3] eqn:E3.
  pose proof (HydroFacts.SolveVelocity_flag cfg mf S dS dt op0) as H1. rewrite E1 in H1.
  pose proof (HydroFacts.SolveEnergy_flag cfg mf S
                (add v0 (0.5 * dt) (blk_v dS1)) dS1 dt op1) as H2.
  rewrite E2 in H2.
  cbn [fst] in *. destruct H1 as [H1 _], H2 as [H2 _].
  assert (N1 : est_of op1 = est_of (Hydro.UpdateQuadratureData cfg mf S dt op0)).
  { change op1 with (fst (op1, dS1)). rewrite <- E1. cbn. apply assemble_est. }
  assert (N2 : est_of op2 = est_of op1).
  { change op2 with (fst (op2, dS2)). rewrite <- E2. cbn.
    rewrite assemble_est.
    now rewrite (HydroFacts.update_when_current cfg mf S dt op1 H1). }
  assert (N3 : est_of op3 = est_of op2).
  { change op3 with (fst (op3, dS3)). rewrite <- E3. cbn.
    now rewrite (HydroFacts.update_when_current cfg mf S dt op2 H2). }
  congruence.
Qed.

(** The state of the second stage of [RK2AvgSolver::Step(S, t, dt)]:
    [S0 + 0.5 * dt * dS_dt] with the rate of the first stage. *)
Definition half_state (rk : RK2Avg) (op : Oper) (S : BlockVector) (dt : float)
    : BlockVector :=
  add_blocks S (0.5 * dt)
             (snd (Hydro.stage cfg mf (blk_v S) S (rk_dS_dt rk) dt op)).

(** The local estimate after the first stage, after the step, and after the
    estimate has been asked on the state the step returns. *)
Definition est_stage1 (op : Oper) (S : BlockVector) (dt : float) : float :=
  est_of (Hydro.UpdateQuadratureData cfg mf S dt (Hydro.UpdateMesh S op)).

Lemma Step_est rk op S t dt :
  HydroFacts.reset_clears_flag mf ->
  exists op1,
    est_of op1 = est_stage1 op S dt /\
    est_of (st_oper (Hydro.RK2AvgSolver_Step cfg mf rk op S t dt))
    = est_of (Hydro.refresh cfg mf (half_state rk op S dt) dt
                (Hydro.UpdateMesh (half_state rk op S dt)
                                  (Hydro.set_current false op1))) /\
    qdata_is_current (st_oper (Hydro.RK2AvgSolver_Step cfg mf rk op S t dt)) = false.
Proof.
  intros Hreset. unfold Hydro.RK2AvgSolver_Step, half_state, est_stage1.
  pose proof (stage_est (blk_v S) S (rk_dS_dt rk) dt op) as H1.
  destruct (Hydro.stage cfg mf (blk_v S) S (rk_dS_dt rk) dt op) as [[op1 V1] dS1] eqn:E1.
  cbn [fst snd] in *.
  pose proof (stage_est (blk_v S) (add_blocks S (0.5 * dt) dS1) dS1 dt
                        (ResetQuadratureData mf op1)) as H2.
  destruct (Hydro.stage cfg mf (blk_v S) _ dS1 dt (ResetQuadratureData mf op1))
    as [[op2 V2] dS2] eqn:E2.
  cbn [fst st_oper] in *.
  exists op1. split; [exact H1|].
  rewrite !Hreset. split; [|reflexivity].
  change (est_of (Hydro.set_current false op2)) with (est_of op2).
  rewrite H2, Hreset. reflexivity.
Qed.

(** C3.  In the operator of laghos_solver.cpp a negative
    Jacobian determinant forces the estimate to zero wherever the kernel
    meets it.  During [RK2AvgSolver::Step] followed by
    [GetTimeStepEstimate] the kernel runs on the state of the first stage
    (when the cache is stale), on the half-step state of the second stage
    and on the state the step returns.  With a CFL factor that is not
    negative, an estimate that was not negative before the step and no
    negative contribution from another rank, a negative determinant at a
    point visited in any of these runs (in the full-assembly loop: anywhere
    in the batch of the point) makes the global estimate a zero; on the
    partial-assembly path the later runs must visit a point at all.  In the
    time loop of [main], whose operator is of a class the sources do not
    hold, a zero estimate after a step of positive dt is never accepted
    when the mesh was not changed in the pass: the step is repeated with
    half the dt, or the run aborts when that is below the floor; when the
    mesh was changed the step is accepted all the same. *)
Theorem negative_determinant_forces_rejection :
  (forall (rk : RK2Avg) (op : Oper) (S : BlockVector) (t dt : float)
          (others : list float),
     let st := Hydro.RK2AvgSolver_Step cfg mf rk op S t dt in
     let S2 := half_state rk op S dt in
     let S3 := st_S st in
     HydroFacts.reset_clears_flag mf ->
     (cfl cfg <? 0) = false ->
     ge0 (est_of op) ->
     Forall (fun o => (o <? 0) = false) others ->
     (on_PA_path = true ->
      all_points (sample_PA mf S2) <> [] /\ all_points (sample_PA mf S3) <> []) ->
     (qdata_is_current op = false /\ has_negative_detJ (visited (blk_x S) S)) \/
     has_negative_detJ (visited (blk_x S2) S2) \/
     has_negative_detJ (visited (blk_x S3) S3) ->
     is_zero (snd (Hydro.GetTimeStepEstimate cfg mf S3 dt others (st_oper st)))
     = true) /\
  (forall (Objects : Type) (mem : Driver.Members Objects) (param : Params)
          (l : Loop Objects),
     let s := DriverFacts.stepped mem param l in
     is_zero (DriverFacts.estimate mem param l) = true ->
     (0 <? dt s) = true ->
     (mesh_changed s = false ->
      exists l', Driver.iteration mem param l = Repeated l' \/
                 Driver.iteration mem param l = Aborted l') /\
     (mesh_changed s = true ->
      exists l', Driver.iteration mem param l = Accepted l')).
Proof.
  split.
  - intros rk op S t dt others st S2 S3 Hreset Hc He Hothers Hne Hneg.
    destruct (Step_est rk op S t dt Hreset) as (op1 & H1 & H2 & Hstale).
    fold st in H2, Hstale. fold S2 in H2.
    rewrite estimate_on_stale by exact Hstale.
    assert (Z3 : is_zero (est_of (Hydro.refresh cfg mf S3 dt
                                    (Hydro.UpdateMesh S3 (st_oper st)))) = true);
      [|now rewrite reduce_keeps_zero].
    (* the estimate after the first stage *)
    assert (G1 : ge0 (est_of op1)).
    { rewrite H1. unfold est_stage1.
      apply (P_update ge0); [intros; now apply refresh_ge0|exact He]. }
    assert (Z1 : qdata_is_current op = false ->
                 has_negative_detJ (visited (blk_x S) S) ->
                 is_zero (est_of op1) = true).
    { intros Hs Hn. rewrite H1. unfold est_stage1, Hydro.UpdateQuadratureData.
      cbn [Hydro.UpdateMesh qdata_is_current]. rewrite Hs.
      apply refresh_inverted; [exact Hc|exact He|exact Hn]. }
    (* the estimate the step leaves *)
    set (e2 := est_of (st_oper st)) in *.
    assert (G2 : ge0 e2).
    { subst e2. rewrite H2. apply refresh_ge0; [exact Hc|exact G1]. }
    assert (Z2 : (qdata_is_current op = false /\
                  has_negative_detJ (visited (blk_x S) S)) \/
                 has_negative_detJ (visited (blk_x S2) S2) ->
                 is_zero e2 = true).
    { intros [[Hs Hn]|Hn]; subst e2; rewrite H2.
      - apply refresh_keeps_zero; [exact Hc|now apply Z1|].
        intros Hp. now apply Hne.
      - apply refresh_inverted; [exact Hc|exact G1|exact Hn]. }
    destruct Hneg as [Hn|[Hn|Hn]].
    + apply refresh_keeps_zero; [exact Hc|apply Z2; now left|].
      intros Hp. now apply Hne.
    + apply refresh_keeps_zero; [exact Hc|apply Z2; now right|].
      intros Hp. now apply Hne.
    + apply refresh_inverted; [exact Hc|exact G2|exact Hn].
  - intros Objects mem param l s Hz Hdt.
    pose proof (DriverFacts.control_cases mem param s) as H.
    cbn zeta in H. fold (DriverFacts.estimate mem param l) in H.
    destruct (zero_ltb _ (dt s) Hz) as [Hlt _]. rewrite Hdt in Hlt.
    unfold Driver.iteration. fold (DriverFacts.stepped mem param l). fold s.
    destruct (Driver.time_step_control mem param s) as [l'|l'|l'].
    + destruct H as (Hm & _). split; [intros _; exists l'; now right|congruence].
    + destruct H as (Hm & _).
      split; [intros _; exists (Driver.next_index l'); now left|congruence].
    + destruct H as (_ & _ & _ & _ & _ & Hcase).
      destruct Hcase as [(Hmc & _)|[(_ & Hn & _)|(_ & Hn & _)]];
        [split; [congruence|intros _; now exists l']| |];
        (exfalso;
         assert (Hn' : (DriverFacts.estimate mem param l <? dt s) = false) by exact Hn;
         congruence).
Qed.


End Facts.
End EstimateFacts.

(** ** Points without a rate *)

Module GuardFacts.
Import DblFacts KernelFacts.

(** C9.  At a quadrature point in a batch whose minimum determinant is not
    negative (in the partial-assembly kernel: a point whose own determinant
    is not negative), the kernel divides by the inverse rate only under the
    test that it is strictly positive.  If the sound speed and the viscosity
    coefficient are zero, the inverse rate is not positive (it is a zero or
    NaN) and the running minimum is left as it was.  If only the viscosity
    coefficient is zero and the inverse rate is positive, the inverse rate is
    the elastic term [sound_speed / h_min] alone, and so is the bound.  A
    velocity gradient whose norm is not positive gives the vorticity
    coefficient [1.0], without a division. *)
Theorem zero_rate_leaves_estimate :
  forall (cfg : Config) (cmp : float -> float -> float -> float -> float * float)
         (h0 min_detJ : float) (z : Zone) (pt : QPoint) (est : float),
    (min_detJ <? 0) = false ->
    (detJ pt <? 0) = false ->
    (is_zero (FA.sound_speed_of cmp z pt) = true ->
     is_zero (FA.visc_coeff_of cfg cmp h0 z pt) = true ->
     Dbl.gt (FA.inv_dt_of cfg cmp h0 z pt) 0.0 = false /\
     FA.point_estimate cfg cmp h0 min_detJ z pt est = est) /\
    (is_zero (FA.visc_coeff_of cfg cmp h0 z pt) = true ->
     Dbl.gt (FA.inv_dt_of cfg cmp h0 z pt) 0.0 = true ->
     FA.inv_dt_of cfg cmp h0 z pt = FA.sound_speed_of cmp z pt / FA.h_min_of cfg pt /\
     FA.point_estimate cfg cmp h0 min_detJ z pt est =
       Dbl.fmin est
         (cfl cfg * (1.0 / (FA.sound_speed_of cmp z pt / FA.h_min_of cfg pt)))) /\
    (is_zero (PA.S_of z pt) = true ->
     is_zero (PA.visc_coeff_of cfg h0 z pt) = true ->
     Dbl.gt (PA.idt_of cfg h0 z pt) 0.0 = false /\
     PA.point_estimate cfg h0 z pt est = est) /\
    (is_zero (PA.visc_coeff_of cfg h0 z pt) = true ->
     Dbl.gt (PA.idt_of cfg h0 z pt) 0.0 = true ->
     let ih_min := 1.0 / (sv_min pt / Dbl.of_int (order cfg)) in
     PA.idt_of cfg h0 z pt = PA.S_of z pt * ih_min /\
     PA.point_estimate cfg h0 z pt est =
       Dbl.fmin est (cfl cfg / (PA.S_of z pt * ih_min))) /\
    (Dbl.gt (grad_norm pt) 0.0 = false -> FA.vorticity_coeff_of cfg pt = 1.0).
Proof.
  intros cfg cmp h0 m z pt est Hm Hd.
  split; [intros; now apply zero_rate_skipped|].
  split; [intros; now apply elastic_bound|].
  split; [intros; now apply pa_zero_rate_skipped|].
  split; [intros; now apply pa_elastic_bound|].
  intros Hg. unfold FA.vorticity_coeff_of. rewrite Hg.
  now destruct (use_vorticity cfg).
Qed.

End GuardFacts.

(** ** The flux tensors written to the cache *)

Module TensorFacts.
Section Facts.

Variable cfg : Config.
Variable cmp : float -> float -> float -> float -> float * float.

(** The factor [rho * weight * detJ] of the stress-rate flux. *)
Definition tau_scale (pt : QPoint) : float := FA.rho_of pt * weight pt * detJ pt.

(** The stress rate of the full-assembly loop before the corotational terms:
    [tau0.Set(2*lame2, srate); tau0.Add(1.0, tau1)]. *)
Definition elastic_rate (z : Zone) (pt : QPoint) : Mat :=
  fun vd gd =>
    2 * mu z * FA.srate_of pt vd gd
    + 1.0 * (2 * lambda z * DenseMatrix.Trace (dim cfg) (FA.srate_of pt)
             / Dbl.of_int (dim cfg)
             * DenseMatrix.set_diag (dim cfg) 1.0 (DenseMatrix.const 0.0) vd gd).

Definition crot1 (pt : QPoint) : Mat :=
  DenseMatrix.Mult (dim cfg) (FA.old_sig_of cfg pt) (FA.spin_of pt).

Definition crot2 (pt : QPoint) : Mat :=
  DenseMatrix.Mult (dim cfg) (FA.spin_of pt) (FA.old_sig_of cfg pt).

Lemma fa_tau_entry h0 z pt vd gd :
  use_viscosity cfg = true ->
  tauJiT (FA.point_flux cfg cmp h0 z pt) vd gd
  = (elastic_rate z pt vd gd + 1.0 * crot1 pt vd gd + -1.0 * crot2 pt vd gd)
    * tau_scale pt.
Proof.
  intros Hv. cbn. unfold FA.tau0_of. rewrite Hv. reflexivity.
Qed.

Lemma fa_tau_inviscid h0 z pt vd gd :
  use_viscosity cfg = false ->
  tauJiT (FA.point_flux cfg cmp h0 z pt) vd gd = 0.0 * tau_scale pt.
Proof.
  intros Hv. cbn. unfold FA.tau0_of. rewrite Hv. reflexivity.
Qed.

Lemma fa_stress_entry h0 z pt vd gd :
  FA.stress_of cfg cmp h0 z pt vd gd
  = if use_viscosity cfg
    then 0 + FA.visc_coeff_of cfg cmp h0 z pt * sgrad_v pt vd gd
         + 1.0 * FA.old_sig_of cfg pt vd gd
    else 0.
Proof.
  unfold FA.stress_of, DenseMatrix.Add, DenseMatrix.set_diag, DenseMatrix.const.
  destruct (use_viscosity cfg); now destruct ((vd =? gd)%nat && (vd <? dim cfg)%nat).
Qed.

Lemma fa_stress_flux_entry h0 z pt vd gd :
  stressJiT (FA.point_flux cfg cmp h0 z pt) vd gd
  = DenseMatrix.sum (dim cfg)
      (fun k => FA.stress_of cfg cmp h0 z pt vd k * Jinv pt gd k)
    * (weight pt * detJ pt).
Proof. reflexivity. Qed.

End Facts.

Section Pressure.

Variable cfg : Config.

(** The pressure the equation of state returns is not used by the
    full-assembly loop: two equations of state with the same sound speed
    give the same fluxes. *)
Lemma fa_flux_ignores_pressure
    (cmp1 cmp2 : float -> float -> float -> float -> float * float) h0 z pt :
  (forall g r e pm, snd (cmp1 g r e pm) = snd (cmp2 g r e pm)) ->
  forall vd gd,
    stressJiT (FA.point_flux cfg cmp1 h0 z pt) vd gd
    = stressJiT (FA.point_flux cfg cmp2 h0 z pt) vd gd /\
    tauJiT (FA.point_flux cfg cmp1 h0 z pt) vd gd
    = tauJiT (FA.point_flux cfg cmp2 h0 z pt) vd gd.
Proof.
  intros Hcs vd gd.
  assert (Hv : FA.visc_coeff_of cfg cmp1 h0 z pt = FA.visc_coeff_of cfg cmp2 h0 z pt).
  { unfold FA.visc_coeff_of, FA.sound_speed_of, FA.material. now rewrite Hcs. }
  split; [|reflexivity].
  cbn. unfold FA.stress_of. now rewrite Hv.
Qed.

(** The partial-assembly kernel. *)
Lemma pa_stress_entry h0 z pt vd gd :
  PA.stress_of cfg h0 z pt vd gd
  = if use_viscosity cfg
    then (if (vd =? gd)%nat && (vd <? dim cfg)%nat then - PA.P_of z pt else 0.0)
         + PA.visc_coeff_of cfg h0 z pt * PA.srate_of cfg pt vd gd
    else (if (vd =? gd)%nat && (vd <? dim cfg)%nat then - PA.P_of z pt else 0.0).
Proof.
  unfold PA.stress_of. now destruct (use_viscosity cfg).
Qed.

Lemma pa_tau_written h0 stale z pt vd gd :
  tauJiT (PA.point_flux cfg h0 stale z pt) vd gd = 0.0.
Proof. reflexivity. Qed.

End Pressure.

(** *** What a refresh leaves in the cache *)

(** The entry of the cache for point [q] of zone [e], and the point the
    kernel was handed for it. *)
Definition cached (qd : QuadratureData) (e q : nat) : option PointFlux :=
  match nth_error (flux qd) e with
  | Some zone_flux => nth_error zone_flux q
  | None => None
  end.

Definition sampled (zones : list Zone) (e q : nat) : option (Zone * QPoint) :=
  match nth_error zones e with
  | Some z => option_map (pair z) (nth_error (points z) q)
  | None => None
  end.

Section Cache.

Variable cfg : Config.
Variable mf : Collaborators.

Lemma refresh_flux S dt op :
  flux (qdata (Hydro.refresh cfg mf S dt op))
  = if EstimateFacts.on_PA_path cfg
    then map (fun z => map (PA.point_flux cfg (h0 (qdata op)) (tau0_stale mf) z)
                           (points z)) (sample_PA mf S)
    else map (fun z => map (FA.point_flux cfg (ComputeMaterialProperties mf)
                                          (h0 (qdata op)) z) (points z))
             (sample mf (nodes op) S).
Proof.
  unfold Hydro.refresh, EstimateFacts.on_PA_path.
  destruct ((1 <? dim cfg)%nat && p_assembly cfg); [reflexivity|].
  reflexivity.
Qed.

Lemma cached_map (f : Zone -> QPoint -> PointFlux) zones h dte e q :
  cached (mkQuadratureData h dte (map (fun z => map (f z) (points z)) zones)) e q
  = option_map (fun zp => f (fst zp) (snd zp)) (sampled zones e q).
Proof.
  unfold cached, sampled. cbn [flux]. rewrite nth_error_map.
  destruct (nth_error zones e) as [z|]; [|reflexivity]. cbn.
  rewrite nth_error_map. now destruct (nth_error (points z) q).
Qed.

(** Every point the kernel is handed gets its entry, and no other entry is
    written. *)
Lemma refresh_cached S dt op e q :
  cached (qdata (Hydro.refresh cfg mf S dt op)) e q
  = option_map
      (fun zp =>
         if EstimateFacts.on_PA_path cfg
         then PA.point_flux cfg (h0 (qdata op)) (tau0_stale mf) (fst zp) (snd zp)
         else FA.point_flux cfg (ComputeMaterialProperties mf) (h0 (qdata op))
                            (fst zp) (snd zp))
      (sampled (EstimateFacts.visited cfg mf (nodes op) S) e q).
Proof.
  unfold cached at 1. rewrite refresh_flux. unfold EstimateFacts.visited.
  destruct (EstimateFacts.on_PA_path cfg).
  - exact (cached_map (PA.point_flux cfg (h0 (qdata op)) (tau0_stale mf))
                      (sample_PA mf S) 0 0 e q).
  - exact (cached_map (FA.point_flux cfg (ComputeMaterialProperties mf) (h0 (qdata op)))
                      (sample mf (nodes op) S) 0 0 e q).
Qed.

End Cache.

(** C7.  What a refresh of the cache writes for a point the
    kernel visits.  In the full-assembly loop with viscosity on, the
    stress-rate flux written is, entry by entry, [rho * weight * detJ] times
    the sum of [2 * mu * srate], of the identity scaled by
    [2 * lambda * trace(srate) / dim] (added, with the first Lame parameter)
    and of the corotational terms [old_sig * spin - spin * old_sig]; the
    stress flux written is the contraction with the inverse Jacobian, scaled
    by [weight * detJ], of the artificial-viscosity term
    [visc_coeff * sgrad_v] plus the stress of the state on a zero diagonal:
    the pressure of the equation of state does not enter the cache.  In the
    partial-assembly kernel the stress contracted is [-P] on the diagonal
    plus [visc_coeff] times the symmetrised gradient, and the stress-rate
    flux written is zero.  Where the kernel visits no point the cache has no
    entry. *)
Theorem flux_tensors_written :
  forall (cfg : Config) (mf : Collaborators) (S : BlockVector) (dt : float)
         (op : Oper) (e q : nat) (vd gd : nat),
    let cmp := ComputeMaterialProperties mf in
    let h := h0 (qdata op) in
    let qd := qdata (Hydro.refresh cfg mf S dt op) in
    let zones := EstimateFacts.visited cfg mf (nodes op) S in
    (forall z pt, sampled zones e q = Some (z, pt) ->
       exists pf, cached qd e q = Some pf /\
         (EstimateFacts.on_PA_path cfg = false ->
            (use_viscosity cfg = true ->
             tauJiT pf vd gd
             = (2 * mu z * FA.srate_of pt vd gd
                + 1.0 * (2 * lambda z * DenseMatrix.Trace (dim cfg) (FA.srate_of pt)
                         / Dbl.of_int (dim cfg)
                         * DenseMatrix.set_diag (dim cfg) 1.0 (DenseMatrix.const 0.0) vd gd)
                + 1.0 * DenseMatrix.Mult (dim cfg) (FA.old_sig_of cfg pt) (FA.spin_of pt) vd gd
                + -1.0 * DenseMatrix.Mult (dim cfg) (FA.spin_of pt) (FA.old_sig_of cfg pt) vd gd)
               * (FA.rho_of pt * weight pt * detJ pt)) /\
            stressJiT pf vd gd
            = DenseMatrix.sum (dim cfg)
                (fun k => FA.stress_of cfg cmp h z pt vd k * Jinv pt gd k)
              * (weight pt * detJ pt) /\
            FA.stress_of cfg cmp h z pt vd gd
            = (if use_viscosity cfg
               then 0 + FA.visc_coeff_of cfg cmp h z pt * sgrad_v pt vd gd
                    + 1.0 * FA.old_sig_of cfg pt vd gd
               else 0) /\
            (forall cmp',
               (forall g r e' pm, snd (cmp g r e' pm) = snd (cmp' g r e' pm)) ->
               stressJiT pf vd gd
               = stressJiT (FA.point_flux cfg cmp' h z pt) vd gd /\
               tauJiT pf vd gd
               = tauJiT (FA.point_flux cfg cmp' h z pt) vd gd)) /\
         (EstimateFacts.on_PA_path cfg = true ->
            stressJiT pf vd gd
            = DenseMatrix.sum (dim cfg)
                (fun k => PA.stress_of cfg h z pt vd k * Jinv pt gd k)
              * (weight pt * detJ pt) /\
            PA.stress_of cfg h z pt vd gd
            = (if use_viscosity cfg
               then (if (vd =? gd)%nat && (vd <? dim cfg)%nat
                     then - PA.P_of z pt else 0.0)
                    + PA.visc_coeff_of cfg h z pt * PA.srate_of cfg pt vd gd
               else (if (vd =? gd)%nat && (vd <? dim cfg)%nat
                     then - PA.P_of z pt else 0.0)) /\
            tauJiT pf vd gd = 0.0)) /\
    (sampled zones e q = None -> cached qd e q = None).
Proof.
  intros cfg mf S dt op e q vd gd cmp h qd zones.
  subst qd zones. split.
  - intros z pt Hs. rewrite refresh_cached, Hs. cbn [option_map fst snd].
    eexists. split; [reflexivity|].
    destruct (EstimateFacts.on_PA_path cfg).
    + split; [discriminate|]. intros _.
      split; [reflexivity|]. split; [apply pa_stress_entry|apply pa_tau_written].
    + split; [|discriminate]. intros _.
      split; [intros Hv; now apply fa_tau_entry|].
      split; [apply fa_stress_flux_entry|].
      split; [apply fa_stress_entry|].
      intros cmp' Hcs. now apply fa_flux_ignores_pressure.
  - intros Hs. now rewrite refresh_cached, Hs.
Qed.


End TensorFacts.

(** ** The damping block of the velocity update *)

Module DampingFacts.
Import DblFacts.

Lemma SFabs_finite f : sf_finite f -> sf_finite (SFabs f).
Proof. destruct f; cbn; auto. Qed.

Lemma SFmul_zero_finite s f : sf_finite f -> sf_zero (SFmul prec emax (S754_zero s) f).
Proof. destruct f; cbn; auto. Qed.

Lemma copy_finite r : is_finite r = true -> is_finite (0.0 + 1.0 * r) = true.
Proof.
  rewrite mul_1_l, !is_finite_SF, add_spec. change (Prim2SF 0.0) with (S754_zero false).
  destruct (Prim2SF r) as [s|s| |s m e]; cbn; auto. now destruct s.
Qed.

(** The damping entry is a zero, of either sign. *)
Lemma damping_entry_zero vi w :
  is_finite w = true ->
  is_zero (if 0 <=? vi then 0.00 * Dbl.fabs w else -0.00 * Dbl.fabs w) = true.
Proof.
  intros Hw. apply is_finite_SF in Hw.
  destruct (0 <=? vi); apply is_zero_SF; unfold Dbl.fabs;
    rewrite mul_spec, abs_spec; apply SFmul_zero_finite, SFabs_finite, Hw.
Qed.

Lemma minus_zero_term r g :
  is_finite r = true -> is_zero g = true ->
  (r + -1.0 * g =? r) = true /\ (is_zero r = false -> r + -1.0 * g = r).
Proof.
  intros Hr Hg. apply is_finite_SF in Hr. apply is_zero_SF in Hg.
  assert (Hz : sf_zero (Prim2SF (-1.0 * g))).
  { rewrite mul_spec. change (Prim2SF (-1.0)) with (S754_finite true 4503599627370496 (-52)).
    destruct (Prim2SF g); cbn in *; try contradiction; auto. }
  split.
  - rewrite FloatAxioms.eqb_spec, add_spec.
    destruct (Prim2SF (-1.0 * g)) as [sz| | |]; try contradiction.
    destruct (Prim2SF r) as [s| | |s m e]; try contradiction.
    + destruct s, sz; reflexivity.
    + unfold SFeqb. cbn. destruct s; cbn; now rewrite Z.compare_refl, Pos.compare_cont_refl.
  - intros Hnz. apply Prim2SF_inj. rewrite add_spec.
    assert (Hnz' : ~ sf_zero (Prim2SF r)).
    { intros H. apply is_zero_SF in H. congruence. }
    destruct (Prim2SF (-1.0 * g)) as [sz| | |]; try contradiction.
    destruct (Prim2SF r) as [s| | |s m e]; try contradiction; try reflexivity.
Qed.

(** One entry of the residual after the damping block. *)
Definition damped_entry (vi r : float) : float :=
  let w := 0.0 + 1.0 * r in
  r + -1.0 * (if 0 <=? vi then 0.00 * Dbl.fabs w else -0.00 * Dbl.fabs w).

Lemma Getdamping_entries v d :
  length v = length d ->
  Getdamping v d =
    map (fun vd => if 0 <=? fst vd then 0.00 * Dbl.fabs (snd vd)
                   else -0.00 * Dbl.fabs (snd vd)) (combine v d).
Proof.
  revert d. induction v as [|vi v IH]; intros [|di d] Hl; try discriminate; [reflexivity|].
  cbn. f_equal. apply IH. now injection Hl.
Qed.

Lemma damped_rhs_entries S rhs :
  length (blk_v S) = length rhs ->
  damped_rhs S rhs =
    map (fun vr => damped_entry (fst vr) (snd vr)) (combine (blk_v S) rhs).
Proof.
  unfold damped_rhs, Vector_Add, fill, zip_with.
  replace (1.0 =? 0.0) with false by reflexivity.
  replace (-1.0 =? 0.0) with false by reflexivity.
  generalize (blk_v S) as v. intros v. revert v.
  induction rhs as [|r rhs IH]; intros [|vi v] Hl; try discriminate; [reflexivity|].
  cbn. f_equal. apply IH. now injection Hl.
Qed.

Lemma damped_entry_same vi r :
  is_finite r = true ->
  (damped_entry vi r =? r) = true /\ (is_zero r = false -> damped_entry vi r = r).
Proof.
  intros Hr. unfold damped_entry.
  apply minus_zero_term; [exact Hr|].
  apply damping_entry_zero. now apply copy_finite.
Qed.

(** *** Entries that are not infinite *)

(** Two entries are the same number: identical, or two zeros (of either
    sign). *)
Definition same_entry (x y : float) : Prop :=
  x = y \/ (is_zero x = true /\ is_zero y = true).

Definition same_entries (a b : Vector) : Prop := Forall2 same_entry a b.

Lemma eqb_zero x y : (x =? y) = true -> is_zero y = true -> is_zero x = true.
Proof.
  rewrite FloatAxioms.eqb_spec. intros H Hy. apply is_zero_SF in Hy. apply is_zero_SF.
  destruct (Prim2SF y) as [sy| | |]; try contradiction.
  destruct (Prim2SF x) as [sx|sx| |sx m e]; cbn in *; try discriminate; auto;
    destruct sx; discriminate.
Qed.

Lemma nan_SF r : is_nan r = true -> r = nan.
Proof.
  rewrite is_nan_SF. intros H. apply Prim2SF_inj.
  destruct (Prim2SF r); try discriminate. reflexivity.
Qed.

Lemma damped_entry_keeps vi r :
  is_infinity r = false -> same_entry (damped_entry vi r) r.
Proof.
  intros Hi. destruct (is_nan r) eqn:Hn.
  - left. rewrite (nan_SF r Hn). unfold damped_entry.
    destruct (0 <=? vi); reflexivity.
  - assert (Hf : is_finite r = true) by (unfold is_finite; now rewrite Hn, Hi).
    destruct (damped_entry_same vi r Hf) as [He Hnz].
    destruct (is_zero r) eqn:Hz.
    + right. split; [now apply (eqb_zero _ r)|exact Hz].
    + left. now apply Hnz.
Qed.

Lemma damped_rhs_keeps S rhs :
  length (blk_v S) = length rhs ->
  Forall (fun r => is_infinity r = false) rhs ->
  same_entries (damped_rhs S rhs) rhs.
Proof.
  intros Hl Hf. rewrite damped_rhs_entries by exact Hl.
  revert Hl Hf. generalize (blk_v S) as v. intros v. revert v.
  induction rhs as [|r rhs IH]; intros [|vi v] Hl Hf; try discriminate; [constructor|].
  cbn. inversion Hf; subst. constructor.
  - now apply damped_entry_keeps.
  - apply IH; [now injection Hl|assumption].
Qed.

(** Adding the same term to two entries that are the same number gives the
    same number. *)
Lemma same_entry_add a x y : same_entry x y -> same_entry (x + a) (y + a).
Proof.
  intros [->|[Hx Hy]]; [now left|].
  apply is_zero_SF in Hx. apply is_zero_SF in Hy.
  destruct (Prim2SF a) as [sa|sa| |sa ma ea] eqn:Ea.
  - right.
    destruct (Prim2SF x) as [sx| | |] eqn:Ex; try contradiction.
    destruct (Prim2SF y) as [sy| | |] eqn:Ey; try contradiction.
    split; apply is_zero_SF; rewrite add_spec, Ea, ?Ex, ?Ey;
      [destruct sx, sa|destruct sy, sa]; exact I.
  - left. apply Prim2SF_inj. rewrite !add_spec, Ea.
    destruct (Prim2SF x) as [sx| | |], (Prim2SF y) as [sy| | |];
      try contradiction; reflexivity.
  - left. apply Prim2SF_inj. rewrite !add_spec, Ea.
    destruct (Prim2SF x) as [sx| | |], (Prim2SF y) as [sy| | |];
      try contradiction; reflexivity.
  - left. apply Prim2SF_inj. rewrite !add_spec, Ea.
    destruct (Prim2SF x) as [sx| | |], (Prim2SF y) as [sy| | |];
      try contradiction; reflexivity.
Qed.

Lemma Vector_plus_keeps a d r :
  same_entries d r -> same_entries (Vector_plus a d) (Vector_plus a r).
Proof.
  unfold same_entries, Vector_plus, zip_with. intros H. revert a.
  induction H as [|x y d r Hxy _ IH]; intros a; [constructor|].
  destruct a as [|ai a]; [constructor|].
  cbn. constructor; [now apply same_entry_add|apply IH].
Qed.


End DampingFacts.

(** ** The order of doubles *)

Module OrderFacts.
Import DblFacts.

Definition lex (e1 : Z) (m1 : positive) (e2 : Z) (m2 : positive) : comparison :=
  match (e1 ?= e2)%Z with
  | Eq => (m1 ?= m2)%positive
  | c => c
  end.

Lemma lex_spec e1 m1 e2 m2 :
  match lex e1 m1 e2 m2 with
  | Lt => (e1 < e2)%Z \/ (e1 = e2 /\ (m1 < m2)%positive)
  | Eq => e1 = e2 /\ m1 = m2
  | Gt => (e2 < e1)%Z \/ (e1 = e2 /\ (m2 < m1)%positive)
  end.
Proof.
  unfold lex. destruct (Z.compare_spec e1 e2); auto.
  destruct (Pos.compare_spec m1 m2); auto.
Qed.

Lemma SFcompare_finite s1 m1 e1 s2 m2 e2 :
  SFcompare (S754_finite s1 m1 e1) (S754_finite s2 m2 e2)
  = Some match s1, s2 with
         | true, false => Lt
         | false, true => Gt
         | false, false => lex e1 m1 e2 m2
         | true, true => CompOpp (lex e1 m1 e2 m2)
         end.
Proof.
  unfold lex. cbn. destruct s1, s2; try reflexivity;
    destruct (e1 ?= e2)%Z; reflexivity.
Qed.

Ltac lex_solve :=
  repeat match goal with
         | |- context [lex ?a ?b ?c ?d] =>
             let H := fresh in
             pose proof (lex_spec a b c d) as H; destruct (lex a b c d)
         | H : context [lex ?a ?b ?c ?d] |- _ =>
             let H' := fresh in
             pose proof (lex_spec a b c d) as H'; destruct (lex a b c d)
         end;
  cbn in *; try discriminate; try reflexivity; try (exfalso; lia).

(** [x <= y] and [y <= z] give [x <= z], when [y] is a number. *)
Lemma not_ltb_trans x y z :
  is_nan y = false -> (y <? x) = false -> (z <? y) = false -> (z <? x) = false.
Proof.
  rewrite is_nan_SF, !ltb_spec. unfold SFltb.
  destruct (Prim2SF x) as [sx|sx| |sx mx ex], (Prim2SF y) as [sy|sy| |sy my ey],
           (Prim2SF z) as [sz|sz| |sz mz ez];
    rewrite ?SFcompare_finite; cbn;
    try discriminate; try reflexivity;
    try (destruct sx; cbn; try discriminate; try reflexivity);
    try (destruct sy; cbn; try discriminate; try reflexivity);
    try (destruct sz; cbn; try discriminate; try reflexivity);
    intros; lex_solve.
Qed.

Lemma ltb_irrefl x : (x <? x) = false.
Proof.
  rewrite ltb_spec. unfold SFltb.
  destruct (Prim2SF x) as [s|s| |s m e]; rewrite ?SFcompare_finite; cbn;
    try reflexivity; destruct s; try reflexivity; lex_solve.
Qed.

Lemma ltb_asym x y : (x <? y) = true -> (y <? x) = false.
Proof.
  rewrite !ltb_spec. unfold SFltb.
  destruct (Prim2SF x) as [sx|sx| |sx mx ex], (Prim2SF y) as [sy|sy| |sy my ey];
    rewrite ?SFcompare_finite; cbn;
    try discriminate; try reflexivity;
    try (destruct sx; cbn; try discriminate; try reflexivity);
    try (destruct sy; cbn; try discriminate; try reflexivity);
    intros; lex_solve.
Qed.

(** [fmin a b <= a] for a number [a]. *)
Lemma fmin_le_l a b : is_nan a = false -> (a <? Dbl.fmin a b) = false.
Proof.
  intros Ha. unfold Dbl.fmin. rewrite Ha.
  destruct (is_nan b); [apply ltb_irrefl|].
  destruct (b <? a) eqn:E; [now apply ltb_asym|apply ltb_irrefl].
Qed.

Lemma fmin_not_nan a b : is_nan a = false -> is_nan (Dbl.fmin a b) = false.
Proof.
  intros Ha. unfold Dbl.fmin. rewrite Ha.
  destruct (is_nan b) eqn:Hb; [exact Ha|]. now destruct (b <? a).
Qed.

(** A zero is below every number that is not negative. *)
Lemma zero_le_ge0 z a : is_zero z = true -> ge0 a -> (a <? z) = false.
Proof.
  intros Hz [Ha _]. destruct (zero_ltb z a Hz) as [_ H]. now rewrite H.
Qed.

(** [b] is a number, not negative and not above [a]. *)
Definition shrinks (a b : float) : Prop := ge0 b /\ (a <? b) = false.

Lemma shrinks_refl a : ge0 a -> shrinks a a.
Proof. intros H. split; [exact H|apply ltb_irrefl]. Qed.

Lemma shrinks_trans a b c : shrinks a b -> shrinks b c -> shrinks a c.
Proof.
  intros [[_ Hb] Hab] [Hc Hbc]. split; [exact Hc|].
  now apply (not_ltb_trans c b a).
Qed.

Lemma shrinks_zero a : ge0 a -> shrinks a 0.
Proof. intros [Ha _]. split; [exact ge0_zero|exact Ha]. Qed.

Lemma shrinks_fmin a b : ge0 a -> (b <? 0) = false -> shrinks a (Dbl.fmin a b).
Proof.
  intros Ha Hb. split; [now apply fmin_ge0|]. apply fmin_le_l. apply Ha.
Qed.

Lemma shrinks_fold_in {A : Type} (f : float -> A -> float) (l : list A) :
  (forall est x, In x l -> ge0 est -> shrinks est (f est x)) ->
  forall est, ge0 est -> shrinks est (fold_left f l est).
Proof.
  induction l as [|x l IH]; intros Hf est He; [now apply shrinks_refl|].
  cbn. destruct (Hf est x (or_introl eq_refl) He) as [H1 H2].
  apply (shrinks_trans est (f est x)); [now split|].
  apply IH; [|exact H1]. intros est' x' Hx'. apply Hf. now right.
Qed.

Lemma shrinks_fold {A : Type} (f : float -> A -> float) (l : list A) :
  (forall est x, ge0 est -> shrinks est (f est x)) ->
  forall est, ge0 est -> shrinks est (fold_left f l est).
Proof. intros Hf. apply shrinks_fold_in. intros est x _. apply Hf. Qed.

Lemma shrinks_min_step m d : ge0 m -> ge0 d -> shrinks m (if d <? m then d else m).
Proof.
  intros Hm Hd. destruct (d <? m) eqn:E.
  - split; [exact Hd|now apply ltb_asym].
  - now apply shrinks_refl.
Qed.

End OrderFacts.

(** ** The operator between two resets: reuse of the cache, cost of a step *)

Module OperatorFacts.
Import DblFacts KernelFacts OrderFacts.
Section Facts.

Variable cfg : Config.
Variable mf : Collaborators.

Lemma stage_flag v0 S dS dt op :
  let op' := fst (fst (Hydro.stage cfg mf v0 S dS dt op)) in
  qdata_is_current op' = true /\
  quad_tstep op' = (quad_tstep op + HydroFacts.refresh_cost cfg op)%Z /\
  nodes op' = blk_x S.
Proof.
  unfold Hydro.stage.
  set (op0 := Hydro.UpdateMesh S op).
  destruct (Hydro.SolveVelocity cfg mf S dS dt op0) as [op1 dS1] eqn:E1.
  destruct (Hydro.SolveEnergy cfg mf S _ dS1 dt op1) as [op2 dS2] eqn:E2.
  destruct (Hydro.SolveStress cfg mf S dS2 dt op2) as [op3 dS3] eqn:E3.
  pose proof (HydroFacts.SolveVelocity_flag cfg mf S dS dt op0) as H1. rewrite E1 in H1.
  pose proof (HydroFacts.SolveEnergy_flag cfg mf S
                (add v0 (0.5 * dt) (blk_v dS1)) dS1 dt op1) as H2.
  rewrite E2 in H2.
  pose proof (HydroFacts.SolveStress_flag cfg mf S dS2 dt op2) as H3. rewrite E3 in H3.
  cbn [fst] in *. destruct H1 as [H1 H1'], H2 as [H2 H2'], H3 as [H3 H3'].
  split; [exact H3|]. split.
  - assert (C1 : HydroFacts.refresh_cost cfg op1 = 0%Z)
      by (unfold HydroFacts.refresh_cost; now rewrite H1).
    assert (C2 : HydroFacts.refresh_cost cfg op2 = 0%Z)
      by (unfold HydroFacts.refresh_cost; now rewrite H2).
    rewrite H3', H2', H1', C1, C2.
    unfold HydroFacts.refresh_cost, op0. cbn. lia.
  - assert (N1 : nodes op1 = blk_x S).
    { change op1 with (fst (op1, dS1)). rewrite <- E1. cbn.
      rewrite HydroFacts.assemble_nodes.
      unfold Hydro.UpdateQuadratureData.
      destruct (qdata_is_current op0); [reflexivity|].
      now rewrite HydroFacts.refresh_nodes. }
    assert (N2 : nodes op2 = blk_x S).
    { change op2 with (fst (op2, dS2)). rewrite <- E2. cbn.
      rewrite HydroFacts.assemble_nodes.
      now rewrite (HydroFacts.update_when_current cfg mf S dt op1 H1). }
    change op3 with (fst (op3, dS3)). rewrite <- E3. cbn.
    now rewrite (HydroFacts.update_when_current cfg mf S dt op2 H2).
Qed.

(** X1.  Once [GetTimeStepEstimate] has run, the cache is current: a further
    call, also for another state and other contributions of the ranks, moves
    the mesh nodes to the new state but does not run the kernel; it returns
    the reduction of the local estimate that is already in the cache. *)
Theorem estimate_reused_while_current :
  forall (S S' : BlockVector) (dt dt' : float) (others others' : list float) (op : Oper),
    let r1 := Hydro.GetTimeStepEstimate cfg mf S dt others op in
    let r2 := Hydro.GetTimeStepEstimate cfg mf S' dt' others' (fst r1) in
    qdata_is_current (fst r1) = true /\
    qdata (fst r2) = qdata (fst r1) /\
    quad_tstep (fst r2) = quad_tstep (fst r1) /\
    nodes (fst r2) = blk_x S' /\
    snd r2 = MPI_Allreduce_MIN (dt_est (qdata (fst r1))) others'.
Proof.
  intros S S' dt dt' others others' op r1 r2.
  assert (Hc : qdata_is_current (fst r1) = true).
  { subst r1. cbn. apply HydroFacts.update_current. }
  split; [exact Hc|].
  subst r2. unfold Hydro.GetTimeStepEstimate at 1 2 3 4.
  cbn [fst snd].
  rewrite HydroFacts.update_when_current by exact Hc.
  repeat split.
Qed.

Lemma kernel_cost_of_step rk op S t dt :
  HydroFacts.reset_clears_flag mf ->
  let st := Hydro.RK2AvgSolver_Step cfg mf rk op S t dt in
  quad_tstep (st_oper st)
    = (quad_tstep op + HydroFacts.refresh_cost cfg op + Z.of_nat (NE cfg))%Z /\
  qdata_is_current (st_oper st) = false.
Proof.
  intros Hreset st. subst st. unfold Hydro.RK2AvgSolver_Step.
  destruct (Hydro.stage cfg mf (blk_v S) S (rk_dS_dt rk) dt op) as [[op1 V1] dS1] eqn:E1.
  destruct (Hydro.stage cfg mf (blk_v S) _ dS1 dt (ResetQuadratureData mf op1))
    as [[op2 V2] dS2] eqn:E2.
  pose proof (stage_flag (blk_v S) S (rk_dS_dt rk) dt op) as H1. rewrite E1 in H1.
  pose proof (stage_flag (blk_v S) (add_blocks S (0.5 * dt) dS1) dS1 dt
                         (ResetQuadratureData mf op1)) as H2.
  rewrite E2 in H2. cbn [fst] in H1, H2.
  destruct H1 as (H1c & H1t & _), H2 as (H2c & H2t & _).
  rewrite Hreset in H2t. unfold HydroFacts.refresh_cost in H2t at 1. cbn in H2t.
  cbn [st_oper]. rewrite Hreset. cbn. split; [|reflexivity].
  now rewrite H2t, H1t.
Qed.

(** X2.  What a trial step costs: entered with a stale cache,
    [RK2AvgSolver::Step] runs the quadrature kernel twice, once per stage;
    entered with a current cache it runs it once, the first stage reusing
    the cache it finds.  The step leaves the cache stale, and the estimate
    asked on the state it returns runs the kernel once more: three runs in
    all, two after a current cache.  [ResetQuadratureData()] is assumed to
    clear the freshness flag and nothing else. *)
Theorem kernel_runs_per_step :
  forall (rk : RK2Avg) (op : Oper) (S : BlockVector) (t dt : float)
         (others : list float),
    HydroFacts.reset_clears_flag mf ->
    let st := Hydro.RK2AvgSolver_Step cfg mf rk op S t dt in
    let after := fst (Hydro.GetTimeStepEstimate cfg mf (st_S st) dt others (st_oper st)) in
    quad_tstep (st_oper st)
      = (quad_tstep op + HydroFacts.refresh_cost cfg op + Z.of_nat (NE cfg))%Z /\
    qdata_is_current (st_oper st) = false /\
    quad_tstep after
      = (quad_tstep op + HydroFacts.refresh_cost cfg op + 2 * Z.of_nat (NE cfg))%Z /\
    qdata_is_current after = true.
Proof.
  intros rk op S t dt others Hreset st after.
  destruct (kernel_cost_of_step rk op S t dt Hreset) as [Ht Hc].
  fold st in Ht, Hc.
  split; [exact Ht|]. split; [exact Hc|].
  subst after. unfold Hydro.GetTimeStepEstimate. cbn [fst].
  split; [|apply HydroFacts.update_current].
  rewrite HydroFacts.update_tstep. unfold HydroFacts.refresh_cost at 1.
  cbn [Hydro.UpdateMesh qdata_is_current quad_tstep].
  rewrite Hc, Ht. lia.
Qed.

(** *** The estimate only shrinks *)

Lemma fa_point_shrinks cmp h0 m z pt est :
  (cfl cfg <? 0) = false -> ge0 est ->
  shrinks est (FA.point_estimate cfg cmp h0 m z pt est).
Proof.
  intros Hc He. unfold FA.point_estimate.
  destruct (m <? 0); [now apply shrinks_zero|].
  destruct (Dbl.gt (FA.inv_dt_of cfg cmp h0 z pt) 0.0) eqn:Hr;
    [|now apply shrinks_refl].
  apply shrinks_fmin; [exact He|]. now apply dt_local_not_neg.
Qed.

Lemma fa_update_shrinks cmp zones qd d :
  (cfl cfg <? 0) = false -> ge0 (dt_est qd) ->
  shrinks (dt_est qd) (dt_est (fst (FA.update cfg cmp zones qd d))).
Proof.
  intros Hc He. cbn.
  apply shrinks_fold; [|exact He]. intros est b Hest.
  unfold FA.batch_estimate.
  apply shrinks_fold; [|exact Hest]. intros est' z Hest'.
  unfold FA.zone_estimate.
  apply (shrinks_fold (fun est pt => FA.point_estimate cfg cmp (h0 qd)
                                       (FA.batch_min_detJ b) z pt est));
    [|exact Hest'].
  intros est'' pt Hest''. now apply fa_point_shrinks.
Qed.

Lemma pa_point_shrinks h0 z pt d :
  (cfl cfg <? 0) = false -> ge0 d -> shrinks d (PA.point_estimate cfg h0 z pt d).
Proof.
  intros Hc Hd. split; [now apply pa_point_ge0|].
  unfold PA.point_estimate.
  destruct (Dbl.fmin infinity (detJ pt) <? 0.0); [apply Hd|].
  destruct (Dbl.gt (PA.idt_of cfg h0 z pt) 0.0); [|apply ltb_irrefl].
  apply fmin_le_l, Hd.
Qed.

Lemma Vector_Min_shrinks d v :
  v <> [] -> Forall (shrinks d) v -> shrinks d (PA.Vector_Min v).
Proof.
  intros Hv Hall. destruct v as [|x rest]; [contradiction|].
  inversion Hall as [|? ? Hx Hrest]; subst. cbn.
  apply (shrinks_trans d x); [exact Hx|].
  apply shrinks_fold_in; [|apply Hx].
  intros m e He Hm. apply shrinks_min_step; [exact Hm|].
  rewrite Forall_forall in Hrest. apply (Hrest e He).
Qed.

Lemma pa_update_shrinks stale zones qd :
  (cfl cfg <? 0) = false -> ge0 (dt_est qd) -> all_points zones <> [] ->
  shrinks (dt_est qd) (dt_est (PA.update cfg stale zones qd)).
Proof.
  intros Hc He Hne. cbn [PA.update dt_est].
  apply Vector_Min_shrinks.
  - intros H. apply Hne. unfold all_points.
    revert H. clear. induction zones as [|z zs IH]; [reflexivity|].
    cbn. intros H. apply app_eq_nil in H. destruct H as [H1 H2].
    apply map_eq_nil in H1. rewrite H1. cbn. now apply IH.
  - apply Forall_concat. apply Forall_map. apply Forall_forall. intros z _.
    apply Forall_map. apply Forall_forall. intros pt _.
    now apply pa_point_shrinks.
Qed.

Lemma refresh_shrinks S dt op :
  (cfl cfg <? 0) = false -> ge0 (EstimateFacts.est_of op) ->
  (EstimateFacts.on_PA_path cfg = true -> all_points (sample_PA mf S) <> []) ->
  shrinks (EstimateFacts.est_of op)
          (EstimateFacts.est_of (Hydro.refresh cfg mf S dt op)).
Proof.
  intros Hc He Hne. rewrite EstimateFacts.refresh_est.
  destruct (EstimateFacts.on_PA_path cfg).
  - apply pa_update_shrinks; auto.
  - now apply fa_update_shrinks.
Qed.

Lemma update_shrinks S dt op :
  (cfl cfg <? 0) = false -> ge0 (EstimateFacts.est_of op) ->
  (EstimateFacts.on_PA_path cfg = true -> all_points (sample_PA mf S) <> []) ->
  shrinks (EstimateFacts.est_of op)
          (EstimateFacts.est_of (Hydro.UpdateQuadratureData cfg mf S dt op)).
Proof.
  intros Hc He Hne. unfold Hydro.UpdateQuadratureData.
  destruct (qdata_is_current op); [now apply shrinks_refl|now apply refresh_shrinks].
Qed.

Lemma reduce_shrinks e others :
  ge0 e -> Forall ge0 others -> shrinks e (MPI_Allreduce_MIN e others).
Proof.
  intros He Hall. unfold MPI_Allreduce_MIN.
  apply shrinks_fold_in; [|exact He].
  intros est o Ho Hest. apply shrinks_fmin; [exact Hest|].
  rewrite Forall_forall in Hall. apply (Hall o Ho).
Qed.

(** X3.  Between two resets the local estimate only shrinks.  With a CFL
    factor that is not negative, and an estimate that is a number and not
    negative (as [ResetTimeStepEstimate] leaves it), a refresh attempt, a
    whole [Mult] and [GetTimeStepEstimate] each leave an estimate that is
    again a number, not negative, and not above the one before; the value
    reduced over ranks whose contributions are not negative is not above
    it either.  On the partial-assembly path the mesh must have a
    quadrature point ([Vector::Min] of no entries is [+infinity]). *)
Theorem estimate_never_grows :
  forall (S dS : BlockVector) (dt : float) (others : list float) (op : Oper),
    (cfl cfg <? 0) = false ->
    ge0 (EstimateFacts.est_of op) ->
    (EstimateFacts.on_PA_path cfg = true -> all_points (sample_PA mf S) <> []) ->
    Forall ge0 others ->
    let below (e : float) : Prop :=
      ((e <? 0) = false /\ is_nan e = false) /\ (EstimateFacts.est_of op <? e) = false in
    below (EstimateFacts.est_of (Hydro.UpdateQuadratureData cfg mf S dt op)) /\
    below (EstimateFacts.est_of (fst (Hydro.Mult cfg mf S dS dt op))) /\
    below (EstimateFacts.est_of (fst (Hydro.GetTimeStepEstimate cfg mf S dt others op))) /\
    below (snd (Hydro.GetTimeStepEstimate cfg mf S dt others op)).
Proof.
  intros S dS dt others op Hc He Hne Hothers below.
  assert (Hm : forall op0, EstimateFacts.est_of op0 = EstimateFacts.est_of op ->
                 shrinks (EstimateFacts.est_of op)
                   (EstimateFacts.est_of (Hydro.UpdateQuadratureData cfg mf S dt op0))).
  { intros op0 H0. rewrite <- H0. apply update_shrinks; [exact Hc| |exact Hne].
    now rewrite H0. }
  split; [now apply update_shrinks|].
  split.
  - unfold Hydro.Mult.
    set (op0 := Hydro.UpdateMesh S op).
    set (dS0 := mkBlockVector _ _ _ _).
    destruct (Hydro.SolveVelocity cfg mf S dS0 dt op0) as [op1 dS1] eqn:E1.
    destruct (Hydro.SolveEnergy cfg mf S (blk_v S) dS1 dt op1) as [op2 dS2] eqn:E2.
    cbn [fst].
    change (EstimateFacts.est_of (Hydro.set_current false op2))
      with (EstimateFacts.est_of op2).
    assert (H1 : EstimateFacts.est_of op1
                 = EstimateFacts.est_of (Hydro.UpdateQuadratureData cfg mf S dt op0)).
    { change op1 with (fst (op1, dS1)). rewrite <- E1. cbn.
      apply EstimateFacts.assemble_est. }
    assert (C1 : qdata_is_current op1 = true).
    { change op1 with (fst (op1, dS1)). rewrite <- E1.
      apply HydroFacts.SolveVelocity_flag. }
    assert (H2 : EstimateFacts.est_of op2 = EstimateFacts.est_of op1).
    { change op2 with (fst (op2, dS2)). rewrite <- E2. cbn.
      rewrite EstimateFacts.assemble_est.
      now rewrite (HydroFacts.update_when_current cfg mf S dt op1 C1). }
    rewrite H2, H1. now apply Hm.
  - assert (Hl : shrinks (EstimateFacts.est_of op)
                   (EstimateFacts.est_of
                      (fst (Hydro.GetTimeStepEstimate cfg mf S dt others op)))).
    { cbn. now apply Hm. }
    split; [exact Hl|].
    apply (shrinks_trans _ _ _ Hl).
    cbn. apply reduce_shrinks; [|exact Hothers]. apply Hl.
Qed.



(** *** The force matrix of one evaluation *)

Lemma refresh_FA S dt op :
  p_assembly cfg = false ->
  let r := Hydro.refresh cfg mf S dt op in
  forcemat_is_assembled r = false /\ qdata_is_current r = true /\
  nodes r = nodes op /\ Force r = Force op.
Proof.
  intros Hp. unfold Hydro.refresh. rewrite Hp, andb_false_r.
  destruct (FA.update _ _ _ _ _) as [qd d]. cbn. auto.
Qed.

(** X4.  On the full-assembly path an evaluation [Mult] that finds the
    cache stale refreshes it once, at the positions of the state it is
    given, assembles the force matrix once from this cache at these
    positions, and uses this one matrix for both solves: the velocity rate
    from [Force * one], the energy rate from [Force^T * v] with the velocity
    [v] of the state.  The matrix, flagged as assembled, is left in the
    operator. *)
Theorem Mult_assembles_one_force_matrix :
  forall (S dS : BlockVector) (dt : float) (op : Oper),
    p_assembly cfg = false ->
    qdata_is_current op = false ->
    let qd := qdata (Hydro.refresh cfg mf S dt (Hydro.UpdateMesh S op)) in
    let F := Assembled (blk_x S) qd in
    let op' := fst (Hydro.Mult cfg mf S dS dt op) in
    let r := snd (Hydro.Mult cfg mf S dS dt op) in
    Force op' = F /\ forcemat_is_assembled op' = true /\
    qdata op' = qd /\ nodes op' = blk_x S /\
    blk_x r = blk_v S /\
    blk_v r =
      Mv_solve mf
        (let rhs := damped_rhs S (Neg (Force_Mult mf F (Hydro.one mf))) in
         if (source_type cfg =? 2)%Z
         then Vector_plus (accel_rhs mf (blk_x S)) rhs else rhs) /\
    blk_e r =
      Me_inv_Mult mf
        (let e_rhs := Force_MultTranspose mf F (blk_v S) in
         if (source_type cfg =? 1)%Z
         then Vector_plus (e_source mf (blk_x S)) e_rhs else e_rhs).
Proof.
  intros S dS dt op Hp Hstale qd F op' r.
  subst op' r. unfold Hydro.Mult.
  set (op0 := Hydro.UpdateMesh S op).
  assert (H0 : qdata_is_current op0 = false) by exact Hstale.
  set (dS0 := mkBlockVector _ _ _ _).
  destruct (refresh_FA S dt op0 Hp) as (Ra & Rc & Rn & Rf).
  fold qd in F.
  set (op1 := Hydro.refresh cfg mf S dt op0) in *.
  assert (U1 : Hydro.UpdateQuadratureData cfg mf S dt op0 = op1).
  { unfold Hydro.UpdateQuadratureData. now rewrite H0. }
  set (opA := Hydro.AssembleForceMatrix cfg op1).
  assert (A1 : opA = mkOper (qdata op1) true true (gmat_is_assembled op1)
                            (blk_x S) F (old_stress op1) (quad_tstep op1)).
  { unfold opA, Hydro.AssembleForceMatrix. rewrite Ra, Hp. cbn [orb].
    rewrite Rc, Rn. reflexivity. }
  assert (U2 : Hydro.UpdateQuadratureData cfg mf S dt opA = opA).
  { apply HydroFacts.update_when_current. now rewrite A1. }
  assert (A2 : Hydro.AssembleForceMatrix cfg opA = opA).
  { unfold Hydro.AssembleForceMatrix. now rewrite A1. }
  unfold Hydro.SolveVelocity. rewrite U1. fold opA.
  unfold Hydro.SolveEnergy. cbn zeta. rewrite U2, A2.
  rewrite Hp. unfold Hydro.velocity_rhs.
  cbn [fst snd blk_x blk_v blk_e Hydro.set_current].
  rewrite A1. cbn. repeat split.
Qed.

End Facts.
End OperatorFacts.

(** ** The time loop: the last pass, the remeshing pass, the step without bound *)

Module LoopFacts.
Section Facts.

Variable Objects : Type.
Variable mem : Driver.Members Objects.
Variable param : Params.

(** X5.  The pass that begins with the step clipped to [t_final], or with
    the step counter at [max_tsteps], is the last pass of the loop whenever
    the counter after it is not below [max_tsteps] (as with the default
    [max_tsteps = -1]): however the time step control ends, [last_step] is
    set when the [for] statement tests it.  In particular a rejected last
    step is not retried: the loop ends with the time and the fields of the
    snapshot, that is, short of [t_final]. *)
Theorem last_pass_is_not_retried :
  forall (l : Loop Objects),
    (steps l + 1 <? max_tsteps param)%Z = false ->
    (t_final param <=? t l + dt l) = true \/ steps l = max_tsteps param ->
    match Driver.iteration mem param l with
    | Accepted l' => last_step l' = true /\ steps l' = (steps l + 1)%Z
    | Aborted l' => last_step l' = true
    | Repeated l' =>
        last_step l' = true /\ steps l' = (steps l + 1)%Z /\
        t l' = t l /\ cur l' = cur l /\ ti l' = ti l
    end.
Proof.
  intros l Hmax Hlast.
  pose proof (DriverFacts.begin_last mem param l Hlast) as Hb.
  unfold Driver.iteration. fold (DriverFacts.stepped mem param l).
  pose proof (DriverFacts.control_last mem param (DriverFacts.stepped mem param l)) as Hc.
  pose proof (DriverFacts.control_cases mem param (DriverFacts.stepped mem param l)) as Hk.
  cbn zeta in Hk.
  rewrite DriverFacts.stepped_last, DriverFacts.stepped_steps, Hb, Hmax in Hc.
  destruct (Driver.time_step_control mem param (DriverFacts.stepped mem param l))
    as [l'|l'|l'].
  - apply Hc.
  - destruct Hc as [Hc1 Hc2].
    destruct Hk as (Hm & _ & _ & _ & Hcur & Ht & _ & Hti & _).
    cbn [Driver.next_index last_step steps t cur ti].
    rewrite Hti, DriverFacts.stepped_ti, Hcur, Ht, DriverFacts.stepped_t_old,
      (DriverFacts.stepped_old mem param l Hm).
    repeat split; auto. lia.
  - exact Hc.
Qed.

(** The loop where the remeshing branch is reached: after the trial step,
    the return mapping and the flattening. *)
Definition before_remesh (l : Loop Objects) : Loop Objects :=
  Driver.flatten_update param
    (Driver.plastic_update mem param
       (Driver.trial_step mem (Driver.begin_step mem param l))).

Lemma before_remesh_keeps (l : Loop Objects) :
  let s1 := before_remesh l in
  ti s1 = ti l /\ saved s1 = saved l /\ old s1 = cur l /\
  mesh_changed s1 = mesh_changed l.
Proof.
  unfold before_remesh, Driver.flatten_update, Driver.plastic_update, Driver.trial_step.
  destruct (Driver.Step mem _ _ _ _) as [[[o S1] t1] d1].
  destruct (plastic param); [destruct (Driver.Returnmapping mem _ _ _ _) as [[o' s'] p']|];
    destruct (winkler_foundation param && winkler_flat param); cbn; tauto.
Qed.

Lemma amr_keeps (l : Loop Objects) :
  let l' := Driver.amr_update mem l in
  saved l' = saved l /\ mesh_changed l' = mesh_changed l /\
  f_p_gf (old l') = f_p_gf (old l) /\ f_ini_p_gf (old l') = f_ini_p_gf (old l).
Proof.
  unfold Driver.amr_update.
  destruct (Driver.geo_TMOPUpdate mem _ _ true) as [o2 S2].
  destruct (Driver.geo_TMOPUpdate mem _ _ false) as [o5 S5].
  cbn. tauto.
Qed.


Lemma add_infinity_r x : is_finite x = true -> x + infinity = infinity.
Proof.
  intros Hf. apply DblFacts.is_finite_SF in Hf.
  apply Prim2SF_inj. rewrite add_spec.
  change (Prim2SF infinity) with (S754_infinity false).
  destruct (Prim2SF x) as [s|s| |s m e]; cbn in Hf; try contradiction; reflexivity.
Qed.

Lemma leb_infinity x : is_nan x = false -> (x <=? infinity) = true.
Proof.
  intros Hn. rewrite DblFacts.is_nan_SF in Hn. rewrite leb_spec.
  change (Prim2SF infinity) with (S754_infinity false).
  destruct (Prim2SF x) as [s|s| |s m e]; try discriminate; try reflexivity;
    destruct s; reflexivity.
Qed.

(** X7.  A step without bound ends the run in one pass.  When dt is
    [+infinity] (an estimate that no quadrature point has limited), the head
    of the next pass clips it to what is left to the final time and marks
    the pass as the last one, at any finite time and for any final time that
    is a number; the clipped dt is the one handed to [Step], and the one the
    time step control compares when the solver leaves [dt], as the explicit
    solvers of MFEM do. *)
Theorem unbounded_step_is_clipped_to_the_end :
  forall (l : Loop Objects),
    dt l = infinity ->
    is_finite (t l) = true ->
    is_nan (t_final param) = false ->
    let l1 := Driver.begin_step mem param l in
    dt l1 = t_final param - t l /\ last_step l1 = true /\
    DriverFacts.dt_taken mem param l = t_final param - t l /\
    (DriverFacts.Step_advances mem ->
     dt (DriverFacts.stepped mem param l) = t_final param - t l).
Proof.
  intros l Hdt Ht Hf l1.
  assert (Hclip : (t_final param <=? t l + dt l) = true).
  { rewrite Hdt, (add_infinity_r (t l) Ht). now apply leb_infinity. }
  assert (H1 : dt l1 = t_final param - t l).
  { subst l1. cbn [Driver.begin_step dt]. now rewrite Hclip. }
  split; [exact H1|]. split; [|split; [exact H1|]].
  - subst l1. apply DriverFacts.begin_last. now left.
  - intros Hs. now rewrite DriverFacts.stepped_dt.
Qed.

End Facts.
End LoopFacts.

(** ** The batches of the full-assembly loop *)

Module LayoutFacts.
Import Layout.

Lemma batch_loop_full NE b bs :
  (3 * b + 3 <= NE)%nat ->
  batch_loop NE (b :: bs) 3 = ((3 * b)%nat, 3%nat) :: batch_loop NE bs 3.
Proof.
  intros H. cbn [batch_loop].
  replace (b * 3)%nat with (3 * b)%nat by lia.
  destruct (Nat.eqb_spec (3 * b) NE) as [E|_]; [lia|].
  destruct (Nat.ltb_spec NE (3 * b + 3)) as [L|_]; [lia|]. reflexivity.
Qed.

Lemma batch_loop_last NE b r :
  (r < 3)%nat -> NE = (3 * b + r)%nat ->
  batch_loop NE [b] 3 = if (r =? 0)%nat then [] else [((3 * b)%nat, r)].
Proof.
  intros Hr HN. cbn [batch_loop].
  replace (b * 3)%nat with (3 * b)%nat by lia.
  destruct (Nat.eqb_spec (3 * b) NE) as [E|E];
    destruct (Nat.eqb_spec r 0) as [R|R]; try lia; try reflexivity.
  destruct (Nat.ltb_spec NE (3 * b + 3)) as [L|L]; [|lia].
  replace (NE - 3 * b)%nat with r by lia. reflexivity.
Qed.

Lemma batch_loop_seq NE k : forall b r,
  (r < 3)%nat -> NE = (3 * (b + k) + r)%nat ->
  batch_loop NE (seq b (k + 1)) 3
  = map (fun j => ((3 * j)%nat, 3%nat)) (seq b k)
    ++ (if (r =? 0)%nat then [] else [((3 * (b + k))%nat, r)]).
Proof.
  induction k as [|k IH]; intros b r Hr HN.
  - cbn [seq Nat.add map app]. rewrite (batch_loop_last NE b r Hr) by lia.
    now replace (b + 0)%nat with b by lia.
  - change (seq b (S k + 1)) with (b :: seq (S b) (k + 1)).
    rewrite batch_loop_full by lia.
    rewrite (IH (S b) r Hr) by lia.
    cbn [seq map app]. now replace (S b + k)%nat with (b + S k)%nat by lia.
Qed.

Lemma zone_batches_eq NE :
  zone_batches NE
  = map (fun j => ((3 * j)%nat, 3%nat)) (seq 0 (NE / 3))
    ++ (if (NE mod 3 =? 0)%nat then [] else [((3 * (NE / 3))%nat, (NE mod 3)%nat)]).
Proof.
  unfold zone_batches. cbv zeta.
  rewrite (batch_loop_seq NE (NE / 3) 0 (NE mod 3)).
  - reflexivity.
  - apply Nat.mod_upper_bound. lia.
  - cbn [Nat.add]. apply Nat.div_mod_eq.
Qed.

Lemma skipn_prefix {A : Type} (pre l : list A) n :
  n = length pre -> skipn n (pre ++ l) = l.
Proof.
  intros ->. rewrite skipn_app, skipn_all, Nat.sub_diag. reflexivity.
Qed.

Lemma batches_slices k : forall (b r : nat) (pre zones : list Zone),
  (r < 3)%nat -> length pre = (3 * b)%nat -> length zones = (3 * k + r)%nat ->
  map (batch_zones (pre ++ zones))
      (map (fun j => ((3 * j)%nat, 3%nat)) (seq b k)
       ++ (if (r =? 0)%nat then [] else [((3 * (b + k))%nat, r)]))
  = FA.batches zones.
Proof.
  induction k as [|k IH]; intros b r pre zones Hr Hp Hz.
  - cbn [seq map app]. replace (b + 0)%nat with b by lia.
    destruct zones as [|z1 [|z2 [|z3 rest]]]; cbn [length] in Hz; try lia.
    + replace r with 0%nat by lia. reflexivity.
    + replace r with 1%nat by lia. cbn [Nat.eqb map]. unfold batch_zones. cbn [fst snd].
      rewrite skipn_prefix by lia. reflexivity.
    + replace r with 2%nat by lia. cbn [Nat.eqb map]. unfold batch_zones. cbn [fst snd].
      rewrite skipn_prefix by lia. reflexivity.
  - destruct zones as [|z1 [|z2 [|z3 rest]]]; cbn [length] in Hz; try lia.
    cbn [seq map app FA.batches]. f_equal.
    + unfold batch_zones. cbn [fst snd]. rewrite skipn_prefix by lia. reflexivity.
    + replace (pre ++ z1 :: z2 :: z3 :: rest)
        with ((pre ++ [z1; z2; z3]) ++ rest) by (now rewrite <- app_assoc).
      replace (b + S k)%nat with (S b + k)%nat by lia.
      apply IH; [exact Hr| |lia].
      rewrite length_app. cbn [length]. lia.
Qed.

Lemma concat_ids k : forall b r,
  concat (map batch_ids
            (map (fun j => ((3 * j)%nat, 3%nat)) (seq b k)
             ++ (if (r =? 0)%nat then [] else [((3 * (b + k))%nat, r)])))
  = seq (3 * b) (3 * k + r).
Proof.
  induction k as [|k IH]; intros b r.
  - cbn [seq map app]. replace (b + 0)%nat with b by lia.
    destruct (Nat.eqb_spec r 0) as [->|_]; [reflexivity|].
    cbn. now rewrite app_nil_r.
  - cbn [seq map concat app]. replace (b + S k)%nat with (S b + k)%nat by lia.
    rewrite IH. unfold batch_ids. cbn [fst snd].
    replace (3 * S k + r)%nat with (3 + (3 * k + r))%nat by lia.
    rewrite (seq_app 3 (3 * k + r) (3 * b)).
    now replace (3 * b + 3)%nat with (3 * S b)%nat by lia.
Qed.

(** X8.  The batch loop of the full-assembly kernel visits every zone of
    the mesh exactly once, in increasing order, in batches of three zones
    and a last batch of the one or two zones that remain; no batch is empty.
    On the zones of a mesh the batches are those of [FA.batches]. *)
Theorem batch_loop_covers_zones :
  forall (zones : list Zone),
    let bs := zone_batches (length zones) in
    concat (map batch_ids bs) = seq 0 (length zones) /\
    Forall (fun b => (1 <= snd b <= 3)%nat) bs /\
    map (batch_zones zones) bs = FA.batches zones.
Proof.
  intros zones bs. subst bs. rewrite zone_batches_eq.
  set (NE := length zones).
  assert (Hr : (NE mod 3 < 3)%nat) by (apply Nat.mod_upper_bound; lia).
  assert (HN : NE = (3 * (NE / 3) + NE mod 3)%nat) by apply Nat.div_mod_eq.
  split; [|split].
  - pose proof (concat_ids (NE / 3) 0 (NE mod 3)) as H.
    change (0 + NE / 3)%nat with (NE / 3)%nat in H. rewrite H.
    replace (3 * 0)%nat with 0%nat by lia. now rewrite <- HN.
  - apply Forall_app. split.
    + apply Forall_forall. intros b Hb. apply in_map_iff in Hb.
      destruct Hb as (j & <- & _). cbn. lia.
    + destruct (Nat.eqb_spec (NE mod 3) 0) as [E|E]; constructor; [|constructor].
      cbn [snd]. lia.
  - apply (batches_slices (NE / 3) 0 (NE mod 3) [] zones Hr); [reflexivity|].
    exact HN.
Qed.

End LayoutFacts.

(** ** Where the kernels and the stress solve write *)

Module IndexFacts.
Import Layout.
Local Open Scope Z_scope.

(** [f] maps the index tuples of [dom] one-to-one onto [0, N). *)
Definition covers_once {T : Type} (dom : T -> Prop) (f : T -> Z) (N : Z) : Prop :=
  (forall x, dom x -> 0 <= f x < N) /\
  (forall k, 0 <= k < N -> exists x, dom x /\ f x = k) /\
  (forall x y, dom x -> dom y -> f x = f y -> x = y).

Lemma radix_inj n a b a' b' :
  0 <= a < n -> 0 <= a' < n -> a + b * n = a' + b' * n -> a = a' /\ b = b'.
Proof. intros Ha Ha' H. assert (b = b') by nia. subst. lia. Qed.

Lemma radix_range n m a b :
  0 <= a < n -> 0 <= b < m -> 0 <= a + b * n < m * n.
Proof. intros Ha Hb. nia. Qed.

Lemma radix_split n m k :
  0 < n -> 0 <= k < m * n ->
  0 <= k mod n < n /\ 0 <= k / n < m /\ k mod n + (k / n) * n = k.
Proof.
  intros Hn Hk.
  pose proof (Z.mod_pos_bound k n Hn) as Hmod.
  pose proof (Z.div_mod k n ltac:(lia)) as Hdm.
  assert (0 <= k / n) by (apply Z.div_pos; lia).
  assert (k / n < m) by (apply Z.div_lt_upper_bound; lia).
  lia.
Qed.

(** Two digits: [a + b * n] with [a < n], [b < m]. *)
Lemma two_digits n m :
  0 < n -> 0 <= m ->
  covers_once (fun x : Z * Z => 0 <= fst x < n /\ 0 <= snd x < m)
              (fun x => fst x + snd x * n) (m * n).
Proof.
  intros Hn Hm. split; [|split].
  - intros [a b] [Ha Hb]. cbn in *. now apply radix_range.
  - intros k Hk. destruct (radix_split n m k Hn Hk) as (H1 & H2 & H3).
    exists (k mod n, k / n). cbn. auto.
  - intros [a b] [a' b'] [Ha Hb] [Ha' Hb'] H. cbn in *.
    destruct (radix_inj n a b a' b' Ha Ha' H). congruence.
Qed.

Lemma covers_once_empty {T : Type} (dom : T -> Prop) (f : T -> Z) :
  (forall x, ~ dom x) -> covers_once dom f 0.
Proof.
  intros H. split; [|split].
  - intros x Hx. now destruct (H x).
  - intros k Hk. lia.
  - intros x y Hx. now destruct (H x).
Qed.

(** Composition with a further digit on top. *)
Lemma three_digits n m p :
  0 <= n -> 0 <= m -> 0 <= p ->
  covers_once
    (fun x : Z * Z * Z =>
       0 <= fst (fst x) < n /\ 0 <= snd (fst x) < m /\ 0 <= snd x < p)
    (fun x => fst (fst x) + (snd (fst x) + snd x * m) * n) (p * m * n).
Proof.
  intros Hn Hm Hp.
  destruct (Z.eq_dec n 0) as [->|Hn0].
  { replace (p * m * 0) with 0 by lia. apply covers_once_empty. intros x. lia. }
  destruct (Z.eq_dec m 0) as [->|Hm0].
  { replace (p * 0 * n) with 0 by lia. apply covers_once_empty. intros x. lia. }
  destruct (two_digits n (p * m) ltac:(lia) ltac:(nia)) as (R1 & S1 & I1).
  destruct (two_digits m p ltac:(lia) Hp) as (R2 & S2 & I2).
  split; [|split].
  - intros [[a b] c] (Ha & Hb & Hc). cbn in *.
    pose proof (R2 (b, c) (conj Hb Hc)) as H2. cbn in H2.
    apply (R1 (a, b + c * m)). cbn. auto.
  - intros k Hk. destruct (S1 k Hk) as ([a d] & [Ha Hd] & E1). cbn in *.
    destruct (S2 d Hd) as ([b c] & [Hb Hc] & E2). cbn in *.
    exists (a, b, c). cbn. subst d. auto.
  - intros [[a b] c] [[a' b'] c'] (Ha & Hb & Hc) (Ha' & Hb' & Hc') H. cbn in *.
    pose proof (R2 (b, c) (conj Hb Hc)) as H2.
    pose proof (R2 (b', c') (conj Hb' Hc')) as H2'. cbn in H2, H2'.
    pose proof (I1 (a, b + c * m) (a', b' + c' * m)
                   (conj Ha H2) (conj Ha' H2') H) as E. cbn in E.
    injection E as Ea Ebc.
    pose proof (I2 (b, c) (b', c') (conj Hb Hc) (conj Hb' Hc') Ebc) as E'.
    congruence.
Qed.

Lemma four_digits n m p q :
  0 <= n -> 0 <= m -> 0 <= p -> 0 <= q ->
  covers_once
    (fun x : Z * Z * Z * Z =>
       0 <= fst (fst (fst x)) < n /\ 0 <= snd (fst (fst x)) < m /\
       0 <= snd (fst x) < p /\ 0 <= snd x < q)
    (fun x => fst (fst (fst x))
              + (snd (fst (fst x)) + (snd (fst x) + snd x * p) * m) * n)
    (q * p * m * n).
Proof.
  intros Hn Hm Hp Hq.
  destruct (three_digits n m (q * p) Hn Hm ltac:(nia)) as (R1 & S1 & I1).
  destruct (Z.eq_dec p 0) as [->|Hp0].
  { replace (q * 0 * m * n) with 0 by lia. apply covers_once_empty. intros x. lia. }
  destruct (two_digits p q ltac:(lia) Hq) as (R2 & S2 & I2).
  split; [|split].
  - intros [[[a b] c] d] (Ha & Hb & Hc & Hd). cbn in *.
    pose proof (R2 (c, d) (conj Hc Hd)) as H2. cbn in H2.
    apply (R1 (a, b, c + d * p)). cbn. auto.
  - intros k Hk. destruct (S1 k Hk) as ([[a b] cd] & (Ha & Hb & Hcd) & E1). cbn in *.
    destruct (S2 cd Hcd) as ([c d] & [Hc Hd] & E2). cbn in *.
    exists (a, b, c, d). cbn. subst cd. auto.
  - intros [[[a b] c] d] [[[a' b'] c'] d'] (Ha & Hb & Hc & Hd) (Ha' & Hb' & Hc' & Hd') H.
    cbn in *.
    pose proof (R2 (c, d) (conj Hc Hd)) as H2.
    pose proof (R2 (c', d') (conj Hc' Hd')) as H2'. cbn in H2, H2'.
    pose proof (I1 (a, b, c + d * p) (a', b', c' + d' * p)
                   (conj Ha (conj Hb H2)) (conj Ha' (conj Hb' H2')) H) as E. cbn in E.
    injection E as Ea Eb Ecd.
    pose proof (I2 (c, d) (c', d') (conj Hc Hd) (conj Hc' Hd') Ecd) as E'.
    congruence.
Qed.

(** Renaming of the index tuples. *)
Lemma covers_once_iso {T U : Type} (g : U -> T) (h : T -> U)
    (dom : T -> Prop) (f : T -> Z) (dom' : U -> Prop) (f' : U -> Z) (N : Z) :
  (forall u, dom' u -> dom (g u)) ->
  (forall t, dom t -> dom' (h t)) ->
  (forall u, h (g u) = u) ->
  (forall t, g (h t) = t) ->
  (forall u, dom' u -> f' u = f (g u)) ->
  covers_once dom f N -> covers_once dom' f' N.
Proof.
  intros Hg Hh Hhg Hgh Hf (R & S & I). split; [|split].
  - intros u Hu. rewrite Hf by exact Hu. auto.
  - intros k Hk. destruct (S k Hk) as (t & Ht & E).
    exists (h t). split; [auto|]. rewrite Hf by auto. now rewrite Hgh.
  - intros u u' Hu Hu' E. rewrite !Hf in E by assumption.
    apply I in E; auto. rewrite <- (Hhg u), <- (Hhg u'). now f_equal.
Qed.

Ltac split_tuples :=
  repeat match goal with x : (_ * _)%type |- _ => destruct x end.

Ltac reindex g h base :=
  refine (covers_once_iso g h _ _ _ _ _ _ _ _ _ _ base);
  [ intros x H; split_tuples; cbn in *; tauto
  | intros x H; split_tuples; cbn in *; tauto
  | intros x; split_tuples; reflexivity
  | intros x; split_tuples; reflexivity
  | intros x _; split_tuples;
    unfold eq_index, q_2D, q_3D, flux_offset, dof_loc; cbn; ring ].

(** X9.  With a rule of [Q1D] points in each direction, the threads of
    [QKernel] hand to [QUpdateBody] every quadrature point of every zone
    exactly once: the index [eq] of the entry of [d_dt_est] the body writes
    runs one-to-one over [0, NE*NQ), in 2D ([NQ = Q1D*Q1D]) and in 3D
    ([NQ = Q1D*Q1D*Q1D]). *)
Theorem kernel_visits_each_point_once :
  forall NE Q1D : Z,
    0 <= NE -> 0 < Q1D ->
    covers_once
      (fun x : Z * Z * Z =>
         let '(e, qx, qy) := x in 0 <= e < NE /\ 0 <= qx < Q1D /\ 0 <= qy < Q1D)
      (fun x => let '(e, qx, qy) := x in
                eq_index (Q1D * Q1D) e (q_2D Q1D qx qy))
      (NE * (Q1D * Q1D)) /\
    covers_once
      (fun x : Z * Z * Z * Z =>
         let '(e, qx, qy, qz) := x in
         0 <= e < NE /\ 0 <= qx < Q1D /\ 0 <= qy < Q1D /\ 0 <= qz < Q1D)
      (fun x => let '(e, qx, qy, qz) := x in
                eq_index (Q1D * Q1D * Q1D) e (q_3D Q1D qx qy qz))
      (NE * (Q1D * Q1D * Q1D)).
Proof.
  intros NE Q1D HNE HQ. split.
  - replace (NE * (Q1D * Q1D)) with (NE * Q1D * Q1D) by ring.
    reindex (fun x : Z * Z * Z => let '(e, qx, qy) := x in (qx, qy, e))
            (fun x : Z * Z * Z => let '(qx, qy, e) := x in (e, qx, qy))
            (three_digits Q1D Q1D NE ltac:(lia) ltac:(lia) HNE).
  - replace (NE * (Q1D * Q1D * Q1D)) with (NE * Q1D * Q1D * Q1D) by ring.
    reindex (fun x : Z * Z * Z * Z => let '(e, qx, qy, qz) := x in (qx, qy, qz, e))
            (fun x : Z * Z * Z * Z => let '(qx, qy, qz, e) := x in (e, qx, qy, qz))
            (four_digits Q1D Q1D Q1D NE ltac:(lia) ltac:(lia) ltac:(lia) HNE).
Qed.

(** X10.  [QUpdateBody] writes the [DIM*DIM] components of the flux at the
    points of the mesh to pairwise different entries of [d_stressJinvT]
    (and of [d_tauJinvT]), and these entries are all of
    [0, NQ*NE*DIM*DIM): every entry of the tensor is written, none twice. *)
Theorem flux_offsets_cover_the_tensor :
  forall DIM NE NQ : Z,
    0 < DIM -> 0 <= NE -> 0 <= NQ ->
    covers_once
      (fun x : Z * Z * Z =>
         let '(eq, gd, vd) := x in
         0 <= eq < NQ * NE /\ 0 <= gd < DIM /\ 0 <= vd < DIM)
      (fun x => let '(eq, gd, vd) := x in flux_offset DIM NE NQ eq gd vd)
      (NQ * NE * DIM * DIM).
Proof.
  intros DIM NE NQ HD HNE HNQ.
  replace (NQ * NE * DIM * DIM) with (DIM * DIM * (NQ * NE)) by ring.
  reindex (fun x : Z * Z * Z => x)
            (fun x : Z * Z * Z => x)
            (three_digits (NQ * NE) DIM DIM ltac:(nia) ltac:(lia) ltac:(lia)).
Qed.

(** X11.  In 2D and in 3D [SolveStress] scatters the entries of the
    [dim*dim] rate components of all zones to pairwise different entries of
    [dsig], which are all of [0, dim*dim*NE*n), [n] being the number of
    dofs of a zone: component [c] fills the [c]-th run of [NE*n] entries. *)
Theorem stress_rate_scatter_is_one_to_one :
  forall dim NE n : Z,
    dim = 2 \/ dim = 3 -> 0 <= NE -> 0 <= n ->
    stress_rate_components dim = dim * dim /\
    covers_once
      (fun x : Z * Z * Z =>
         let '(c, e, i) := x in
         0 <= c < stress_rate_components dim /\ 0 <= e < NE /\ 0 <= i < n)
      (fun x => let '(c, e, i) := x in dof_loc NE n c e i)
      (stress_rate_components dim * NE * n) /\
    (forall c e i, 0 <= c -> 0 <= e < NE -> 0 <= i < n ->
       c * (NE * n) <= dof_loc NE n c e i < (c + 1) * (NE * n)).
Proof.
  intros dim NE n Hdim HNE Hn.
  assert (Hc : 0 <= stress_rate_components dim)
    by (destruct Hdim as [-> | ->]; cbn; lia).
  split; [destruct Hdim as [-> | ->]; reflexivity|]. split.
  - reindex (fun x : Z * Z * Z => let '(c, e, i) := x in (i, e, c))
            (fun x : Z * Z * Z => let '(i, e, c) := x in (c, e, i))
            (three_digits n NE (stress_rate_components dim) Hn HNE Hc).
  - intros c e i Hc' He Hi. unfold dof_loc. nia.
Qed.

(** X12.  [SolveStress] writes the rate at [H1Vsize*2 + L2Vsize] and
    beyond, with [dim*dim] components per dof.  With [NE*n] dofs in the L2
    space, the entries it writes are exactly those of the stress block of
    [block_offsets], the layout [RK2AvgSolver::Init] gives to [dS_dt]:
    every entry written lies in the block, and every entry of the block is
    written. *)
Theorem stress_rate_fills_the_stress_block :
  forall dim NE n H1Vsize : Z,
    dim = 2 \/ dim = 3 -> 0 <= NE -> 0 <= n ->
    let L2Vsize := NE * n in
    let b := block_offsets dim H1Vsize L2Vsize in
    let entry c e i := dsig_base H1Vsize L2Vsize + dof_loc NE n c e i in
    dsig_base H1Vsize L2Vsize = at_ 3 b /\
    (forall c e i,
       0 <= c < stress_rate_components dim -> 0 <= e < NE -> 0 <= i < n ->
       at_ 3 b <= entry c e i < at_ 4 b) /\
    (forall j, at_ 3 b <= j < at_ 4 b ->
       exists c e i,
         0 <= c < stress_rate_components dim /\ 0 <= e < NE /\ 0 <= i < n /\
         entry c e i = j).
Proof.
  intros dim NE n H1 Hdim HNE Hn L2 b entry. subst L2 b entry.
  unfold at_, block_offsets, dsig_base. cbn [nth].
  assert (Hcc : stress_rate_components dim = dim * dim)
    by (destruct Hdim as [-> | ->]; reflexivity).
  assert (Hc0 : 0 <= stress_rate_components dim)
    by (destruct Hdim as [-> | ->]; cbn; lia).
  destruct (three_digits n NE (stress_rate_components dim) Hn HNE Hc0)
    as (Hr & Hs & _).
  split; [lia|]. split.
  - intros c e i Hc He Hi.
    pose proof (Hr (i, e, c) (conj Hi (conj He Hc))) as H. cbn in H.
    unfold dof_loc. rewrite Hcc in H. nia.
  - intros j Hj.
    destruct (Hs (j - (H1 * 2 + NE * n))) as ([[i e] c] & (Hi & He & Hc) & E).
    { rewrite Hcc. nia. }
    cbn in Hi, He, Hc, E. exists c, e, i. unfold dof_loc.
    repeat split; try lia.
Qed.

(** X13.  [main] lays out the state vector with [3*(dim-1)] stress
    components per dof, [dim] being the dimension of the mesh, which is also
    the number of components it gives to the stress space.  [TMOPUpdate]
    refills [offset] by the same formula from its argument [dim]; [main]
    passes the file-scope [dim], which the set-up of the weak zone has set
    to 2.  For the same space sizes the two layouts agree up to the start of
    the stress block; [TMOPUpdate] gives the stress block three components
    per dof whatever the mesh, so that the layouts are the same exactly when
    the mesh is two-dimensional or the L2 space is empty: on a 3D mesh three
    of the six stress components have no room in the state [TMOPUpdate]
    resizes. *)
Theorem TMOPUpdate_lays_out_three_stress_components :
  forall (mesh_dim Vsize_h1 Vsize_l2 : Z) (weak_x weak_y weak_z : float),
    let dim := fst (Remesh.weak_zone mesh_dim weak_x weak_y weak_z) in
    let m := main_offset mesh_dim Vsize_h1 Vsize_l2 in
    let u := main_offset dim Vsize_h1 Vsize_l2 in
    (at_ 0 u = at_ 0 m /\ at_ 1 u = at_ 1 m /\ at_ 2 u = at_ 2 m /\ at_ 3 u = at_ 3 m) /\
    at_ 4 m - at_ 3 m = Vsize_l2 * 3 * (mesh_dim - 1) /\
    at_ 4 u - at_ 3 u = Vsize_l2 * 3 /\
    at_ 5 m - at_ 5 u = Vsize_l2 * 3 * (mesh_dim - 2) /\
    (u = m <-> mesh_dim = 2 \/ Vsize_l2 = 0) /\
    (mesh_dim = 3 -> 0 < Vsize_l2 ->
     at_ 4 u - at_ 3 u < at_ 4 m - at_ 3 m /\ at_ 5 u < at_ 5 m).
Proof.
  intros mesh_dim H1 L2 wx wy wz dim m u. subst dim m u.
  change (fst (Remesh.weak_zone mesh_dim wx wy wz)) with 2.
  unfold at_, main_offset. cbn [nth].
  split; [repeat split|]. split; [lia|]. split; [lia|]. split; [lia|].
  split.
  - split.
    + intros H. injection H as H _. nia.
    + intros [-> | ->]; repeat f_equal; lia.
  - intros -> HL. lia.
Qed.

End IndexFacts.

(** ** Which kernels exist *)

Module DispatchFacts.
Import Dispatch.
Local Open Scope Z_scope.

Lemma kernel_id_sum dim Q1D :
  0 <= dim -> 0 <= Q1D < 16 -> kernel_id dim Q1D = 16 * dim + Q1D.
Proof.
  intros Hd HQ. unfold kernel_id.
  rewrite Z.shiftl_mul_pow2 by lia. change (2 ^ 4) with 16.
  assert (Hland : Z.land (dim * 16) Q1D = 0).
  { apply Z.bits_inj'. intros n Hn. rewrite Z.land_spec, Z.bits_0.
    destruct (Z.ltb_spec n 4) as [L|L].
    - change 16 with (2 ^ 4). rewrite Z.mul_pow2_bits_low by lia. reflexivity.
    - destruct (Z.eq_dec Q1D 0) as [->|Hz]; [now rewrite Z.bits_0, andb_false_r|].
      rewrite (Z.bits_above_log2 Q1D n), andb_false_r; [reflexivity|lia|].
      apply Z.log2_lt_pow2; [lia|].
      apply Z.lt_le_trans with (2 ^ 4); [cbn; lia|].
      apply Z.pow_le_mono_r; lia. }
  rewrite <- Z.lxor_lor by exact Hland.
  rewrite <- Z.add_nocarry_lxor by exact Hland. lia.
Qed.

(** X14.  For a number of points per direction below 16, the partial
    assembly update finds a kernel exactly for the dimensions 2 and 3 and
    for 4, 6 or 8 points per direction, and it then runs the instance of
    this dimension and this number; with any other pair it aborts with
    "Unknown kernel".  The bound matters: the identifier packs [Q1D] in
    four bits, so that 20 points per direction in 2D select the 3D kernel
    of 4 points. *)
Theorem kernel_exists_for_six_pairs :
  forall dim Q1D : Z,
    0 <= dim -> 0 <= Q1D < 16 ->
    (forall d q,
       kernel dim Q1D = Some (d, q) <->
       (d = dim /\ q = Q1D /\ (dim = 2 \/ dim = 3) /\ (Q1D = 4 \/ Q1D = 6 \/ Q1D = 8))) /\
    kernel 2 20 = Some (3, 4).
Proof.
  intros dim Q1D Hd HQ. split; [|reflexivity].
  intros d q. unfold kernel. rewrite kernel_id_sum by assumption.
  unfold qupdate, lookup.
  repeat match goal with
         | |- context [(?k =? ?x)] =>
             destruct (Z.eqb_spec k x)
         end;
    (split; [intros H; try discriminate; injection H as <- <-; lia
            |intros (-> & -> & H1 & H2); try lia; f_equal; f_equal; lia]).
Qed.

End DispatchFacts.

(** ** Boundary types and material parameters accepted by [main] *)

Module SetupFacts.
Import Setup.

(** Largest boundary type the first switch accepts. *)
Definition largest_type (dim : nat) : Z := if (dim =? 2)%nat then 3%Z else 6%Z.

Lemma essential_switch_accepts dim id :
  (0 < id)%Z ->
  (essential_switch dim id <> None <-> (id <= largest_type dim)%Z).
Proof.
  intros Hid. unfold essential_switch, largest_type.
  destruct (dim =? 2)%nat.
  - destruct id as [|p|p]; try lia.
    destruct p as [[p|p|]|[p|p|]|]; cbn; split; intros H; try lia; try congruence;
      destruct p; try lia; try congruence.
  - destruct id as [|p|p]; try lia.
    destruct p as [[[p|p|]|[p|p|]|]|[[p|p|]|[p|p|]|]|];
      cbn; split; intros H; try lia; try congruence;
      destruct p; try lia; try congruence.
Qed.

(** X15.  The set-up of the boundary conditions goes through exactly when
    every boundary type of the list is either not positive (a free
    boundary) or one of 1, 2, 3 in 2D and one of 1 to 6 otherwise; any other
    type ends the program with "Unknown boundary type".  Type 7, which the
    comments list for the 3D switch, is not accepted: its case has no
    [break] and runs into the default. *)
Theorem boundary_types_accepted :
  forall (dim : nat) (bc_id : list Z),
    (essential_loop dim bc_id <> None <->
     Forall (fun id => (id <= 0)%Z \/ (1 <= id <= largest_type dim)%Z) bc_id) /\
    (forall r, essential_loop dim bc_id = Some r -> length r = length bc_id) /\
    essential_loop dim [7%Z] = None.
Proof.
  intros dim bc_id. split; [|split].
  - induction bc_id as [|id rest IH]; [cbn; split; [constructor|discriminate]|].
    cbn [essential_loop].
    destruct (Z.ltb_spec 0 id) as [Hpos|Hnp].
    + pose proof (essential_switch_accepts dim id Hpos) as Hs.
      destruct (essential_switch dim id) as [cs|].
      * destruct (essential_loop dim rest) as [r|].
        -- split; [intros _|discriminate].
           constructor; [right; split; [lia|]; apply (proj1 Hs); discriminate|].
           apply IH. discriminate.
        -- split; [congruence|]. intros H. inversion H; subst.
           apply IH. assumption.
      * split; [congruence|]. intros H. inversion H as [|? ? Hid _]; subst.
        destruct Hid as [Hid|Hid]; [lia|]. exfalso. apply (proj2 Hs); [lia|reflexivity].
    + destruct (essential_loop dim rest) as [r|].
      * split; [intros _|discriminate].
        constructor; [left; lia|]. apply IH. discriminate.
      * split; [congruence|]. intros H. inversion H; subst. apply IH. assumption.
  - induction bc_id as [|id rest IH]; intros r.
    + cbn. intros H. now injection H as <-.
    + cbn [essential_loop].
      destruct (0 <? id)%Z; [destruct (essential_switch dim id)|];
        destruct (essential_loop dim rest) as [r'|]; try discriminate;
        intros H; injection H as <-; cbn; f_equal; now apply IH.
  - unfold essential_loop, essential_switch. cbn. now destruct (dim =? 2)%nat.
Qed.

(** X16.  For every boundary type the first switch accepts in 2D and in 3D,
    the components whose dofs it marks as essential are the components to
    which the second switch gives the prescribed velocity, except for type
    6 in 3D: there the dofs of y and z are marked as essential, while x and
    z receive the velocity. *)
Theorem essential_and_prescribed_components :
  forall (dim : nat) (id : Z) (calls : list Component),
    dim = 2%nat \/ dim = 3%nat ->
    essential_switch dim id = Some calls ->
    (id <> 6%Z -> prescribed_switch dim id = Some (components_of dim calls)) /\
    (id = 6%Z ->
     components_of dim calls = [1%nat; 2%nat] /\
     prescribed_switch dim id = Some [0%nat; 2%nat]).
Proof.
  intros dim id calls Hdim H.
  destruct Hdim as [-> | ->]; cbn in H.
  - destruct id as [|p|p]; try discriminate.
    destruct p as [[p|p|]|[p|p|]|]; try discriminate;
      injection H as <-; split; intros E; try discriminate; try congruence;
      reflexivity.
  - destruct id as [|p|p]; try discriminate.
    destruct p as [[[p|p|]|[p|p|]|]|[[p|p|]|[p|p|]|]|]; try discriminate;
      injection H as <-; split; intros E; try discriminate; try congruence;
      try reflexivity; split; reflexivity.
Qed.

(** X17.  A material parameter is accepted exactly when one value is given
    or as many values as the mesh has materials.  The vector that results
    has one entry per material: the single value everywhere, or the value
    given for the material; entries beyond the list are never read.  A list
    that is longer than the number of materials is refused, not cut. *)
Theorem material_list_expansion :
  forall (n : nat) (vec : list float),
    (Setup.expand n vec = None <-> (length vec <> 1 /\ length vec <> n)%nat) /\
    (forall v, Setup.expand n vec = Some v ->
       length v = n /\
       forall i, (i < n)%nat ->
         exists k, (k < length vec)%nat /\ (k = 0 \/ k = i)%nat /\
                   nth_error v i = nth_error vec k) /\
    (length vec = n -> (n <> 1)%nat -> Setup.expand n vec = Some vec).
Proof.
  intros n vec. unfold Setup.expand.
  destruct (Nat.eqb_spec (length vec) 1) as [H1|H1].
  - split; [split; [discriminate|lia]|]. split; [|lia].
    intros v H. injection H as <-. split; [apply repeat_length|].
    intros i Hi. exists 0%nat. split; [lia|]. split; [now left|].
    destruct vec as [|x [|y r]]; try discriminate. cbn [nth nth_error].
    rewrite nth_error_repeat by exact Hi. reflexivity.
  - destruct (Nat.eqb_spec (length vec) n) as [Hn|Hn]; cbn [negb].
    + split; [split; [discriminate|lia]|]. split.
      * intros v H. injection H as <-. split; [now rewrite length_map, length_seq|].
        intros i Hi. exists i. split; [lia|]. split; [now right|].
        rewrite nth_error_map, nth_error_seq.
        destruct (Nat.ltb_spec i n) as [_|]; [|lia]. cbn.
        symmetry. apply nth_error_nth'. lia.
      * intros _ _. f_equal. subst n. clear H1.
        apply nth_error_ext. intros i.
        rewrite nth_error_map, nth_error_seq.
        destruct (Nat.ltb_spec i (length vec)) as [L|L]; cbn.
        -- symmetry. now apply nth_error_nth'.
        -- symmetry. now apply nth_error_None.
    + split; [split; [intros _; lia|reflexivity]|]. split; [discriminate|lia].
Qed.

End SetupFacts.

(** ** The Frobenius norm of the partial-assembly kernel *)

Module NormFacts.
Import DblFacts.
Section Facts.

Variable cfg : Config.

(** An entry the scan for the largest magnitude passes over. *)
Definition skipped (x : float) : Prop := is_zero x = true \/ is_nan x = true.

Lemma abs_skipped x : skipped x -> Dbl.gt (Dbl.fabs x) 0.0 = false.
Proof.
  intros H. unfold Dbl.gt, Dbl.fabs.
  destruct (0.0 <? abs x) eqn:E; [|reflexivity]. exfalso.
  apply pos_SF in E. rewrite abs_spec in E.
  destruct H as [H|H].
  - apply is_zero_SF in H. destruct (Prim2SF x); cbn in *; try contradiction.
  - rewrite is_nan_SF in H. destruct (Prim2SF x); cbn in *; try discriminate.
    contradiction.
Qed.

Lemma scan_skipped (f : nat -> float) l :
  (forall i, In i l -> skipped (f i)) ->
  fold_left (fun m i => let entry := Dbl.fabs (f i) in
                        if Dbl.gt entry m then entry else m) l 0.0 = 0.0.
Proof.
  induction l as [|i l IH]; intros H; [reflexivity|].
  cbn [fold_left]. cbv zeta.
  rewrite abs_skipped by (apply H; now left).
  apply IH. intros j Hj. apply H. now right.
Qed.

(** X18.  [FNorm] of a matrix whose entries are zeros or NaNs is [0.0]:
    the scan for the largest magnitude passes over a NaN as it does over a
    zero, and the norm is returned before any division.  The vorticity
    coefficient of a point with such a velocity gradient is therefore
    [1.0], as for a gradient that vanishes, also when every entry of the
    gradient is NaN. *)
Theorem FNorm_passes_over_NaN :
  forall (A : Mat),
    (forall i, (i < dim cfg * dim cfg)%nat -> skipped (PA.flat cfg A i)) ->
    PA.SFNorm cfg A = (0.0, 0.0) /\
    PA.FNorm cfg A = 0.0 /\
    (forall pt, PA.sgrad_v0 cfg pt = A -> PA.vorticity_coeff_of cfg pt = 1.0).
Proof.
  intros A H.
  assert (Hs : PA.SFNorm cfg A = (0.0, 0.0)).
  { unfold PA.SFNorm. cbv zeta.
    rewrite (scan_skipped (PA.flat cfg A)).
    - reflexivity.
    - intros i Hi. apply H. apply in_seq in Hi. lia. }
  assert (Hf : PA.FNorm cfg A = 0.0).
  { unfold PA.FNorm. rewrite Hs. reflexivity. }
  split; [exact Hs|]. split; [exact Hf|].
  intros pt Hpt. unfold PA.vorticity_coeff_of.
  destruct (use_vorticity cfg); [|reflexivity].
  cbv zeta. rewrite Hpt, Hf. reflexivity.
Qed.

End Facts.
End NormFacts.

(** ** Reading a list of the parameter file *)

Module ListsFacts.
Import Lists.

(** A character that [strip] keeps and that does not end a token. *)
Definition plain (c : ascii) : bool :=
  negb (Ascii.eqb c "["%char) && negb (Ascii.eqb c "]"%char)
  && negb (Ascii.eqb c " "%char) && negb (Ascii.eqb c ","%char).

Definition word (tok : text) : Prop := tok <> [] /\ forallb plain tok = true.

(** The list as the parameter file gives it: the items between square
    brackets, separated by a comma and a space. *)
Fixpoint items (toks : list text) : text :=
  match toks with
  | [] => []
  | [tok] => tok
  | tok :: rest => tok ++ ","%char :: " "%char :: items rest
  end.

Definition written (toks : list text) : text := "["%char :: items toks ++ ["]"%char].

Fixpoint joined (toks : list text) : text :=
  match toks with
  | [] => []
  | [tok] => tok
  | tok :: rest => tok ++ ","%char :: joined rest
  end.

Lemma strip_app a b : strip (a ++ b) = strip a ++ strip b.
Proof. unfold strip, remove_char. now rewrite !filter_app. Qed.

Lemma strip_plain tok : forallb plain tok = true -> strip tok = tok.
Proof.
  induction tok as [|c tok IH]; [reflexivity|].
  cbn [forallb]. intros H. apply andb_prop in H. destruct H as [Hc Ht].
  change (c :: tok) with ([c] ++ tok). rewrite strip_app, (IH Ht). f_equal.
  unfold plain in Hc.
  apply andb_prop in Hc. destruct Hc as [Hc H4].
  apply andb_prop in Hc. destruct Hc as [Hc H3].
  apply andb_prop in Hc. destruct Hc as [H1 H2].
  unfold strip, remove_char. cbn [filter]. rewrite H1. cbn [filter].
  rewrite H2. cbn [filter]. rewrite H3. reflexivity.
Qed.

Lemma strip_items toks :
  Forall word toks -> strip (items toks) = joined toks.
Proof.
  induction toks as [|tok rest IH]; intros H; [reflexivity|].
  inversion H as [|? ? [_ Hp] Hrest]; subst.
  destruct rest as [|tok' rest']; [now apply strip_plain|].
  change (items (tok :: tok' :: rest'))
    with (tok ++ [","%char; " "%char] ++ items (tok' :: rest')).
  rewrite !strip_app, (strip_plain tok Hp), (IH Hrest). reflexivity.
Qed.

Lemma getline_word tok : forall rest acc fresh,
  forallb plain tok = true ->
  getline_loop (tok ++ rest) acc fresh
  = getline_loop rest (rev tok ++ acc) (match tok with [] => fresh | _ => false end).
Proof.
  induction tok as [|c tok IH]; intros rest acc fresh H; [reflexivity|].
  cbn [forallb] in H. apply andb_prop in H. destruct H as [Hc Ht].
  cbn [app getline_loop].
  assert (Hcomma : Ascii.eqb c ","%char = false).
  { unfold plain in Hc. apply andb_prop in Hc. destruct Hc as [_ Hc].
    now destruct (Ascii.eqb c ","%char). }
  rewrite Hcomma, (IH rest (c :: acc) false Ht).
  cbn [rev]. rewrite <- app_assoc. cbn [app]. now destruct tok.
Qed.

Lemma getline_joined toks :
  Forall word toks -> getline_loop (joined toks) [] true = toks.
Proof.
  induction toks as [|tok rest IH]; intros H; [reflexivity|].
  inversion H as [|? ? [Hne Hp] Hrest]; subst.
  destruct rest as [|tok' rest'].
  - cbn [joined]. rewrite <- (app_nil_r tok) at 1.
    rewrite (getline_word tok [] [] true Hp). cbn [getline_loop].
    destruct tok; [contradiction|]. now rewrite app_nil_r, rev_involutive.
  - change (joined (tok :: tok' :: rest'))
      with (tok ++ ","%char :: joined (tok' :: rest')).
    rewrite (getline_word tok _ [] true Hp). cbn [getline_loop].
    change (Ascii.eqb ","%char ","%char) with true. cbv iota.
    rewrite app_nil_r, rev_involutive. apply f_equal. now apply IH.
Qed.

(** X19.  A list written in the parameter file as words between square
    brackets, separated by a comma and a space, is read back as these
    words, in order: brackets and spaces are dropped and the commas
    separate the tokens.  The empty list ["[]"] gives no token, and a comma
    after the last word adds none.  A word is not empty and holds no
    bracket, space or comma. *)
Theorem written_list_is_read_back :
  forall (toks : list text),
    Forall word toks ->
    tokens (written toks) = toks /\
    (toks <> [] -> tokens ("["%char :: items toks ++ [","%char; "]"%char]) = toks).
Proof.
  intros toks H. unfold tokens, written.
  change ("["%char :: items toks ++ ["]"%char])
    with (["["%char] ++ items toks ++ ["]"%char]).
  change ("["%char :: items toks ++ [","%char; "]"%char])
    with (["["%char] ++ items toks ++ [","%char; "]"%char]).
  rewrite !strip_app, (strip_items toks H).
  change (strip ["["%char]) with (@nil ascii).
  change (strip ["]"%char]) with (@nil ascii).
  change (strip [","%char; "]"%char]) with [","%char].
  cbn [app]. rewrite app_nil_r.
  split; [now apply getline_joined|].
  intros Hne.
  assert (G : forall ts, Forall word ts -> ts <> [] ->
            getline_loop (joined ts ++ [","%char]) [] true = ts).
  { clear. induction ts as [|tok rest IH]; intros H Hne; [contradiction|].
    inversion H as [|? ? [Hn Hp] Hrest]; subst.
    destruct rest as [|tok' rest'].
    - cbn [joined]. rewrite (getline_word tok _ [] true Hp). cbn [getline_loop].
      change (Ascii.eqb ","%char ","%char) with true. cbv iota.
      now rewrite app_nil_r, rev_involutive.
    - change (joined (tok :: tok' :: rest') ++ [","%char])
        with ((tok ++ ","%char :: joined (tok' :: rest')) ++ [","%char]).
      rewrite <- app_assoc. cbn [app].
      rewrite (getline_word tok _ [] true Hp). cbn [getline_loop].
      change (Ascii.eqb ","%char ","%char) with true. cbv iota.
      rewrite app_nil_r, rev_involutive. apply f_equal.
      apply IH; [exact Hrest|discriminate]. }
  now apply G.
Qed.

End ListsFacts.

(** ** Remeshing after the set-up of the weak zone *)

Module RemeshFacts.
Import Remesh.

Lemma set_loop (f : nat -> float) n : forall (z : Data) j,
  fold_left (fun S i => set S i (f i)) (seq 0 n) z j
  = if (j <? n)%nat then f j else z j.
Proof.
  induction n as [|n IH]; intros z j; [reflexivity|].
  rewrite seq_S, fold_left_app. cbn [fold_left Nat.add]. unfold set at 1.
  rewrite IH.
  destruct (Nat.eqb_spec j n) as [->|Hne].
  - destruct (Nat.ltb_spec n (S n)); [reflexivity|lia].
  - destruct (Nat.ltb_spec j n), (Nat.ltb_spec j (S n)); try lia; reflexivity.
Qed.

Lemma split_entry dim n s c i :
  split dim n s c i
  = if ((c <? handled dim) && (i <? n))%nat then s (i + n * c)%nat else 0.0.
Proof.
  unfold split. destruct (c <? handled dim)%nat; [|reflexivity].
  cbn [andb]. apply (set_loop (fun i => s (i + n * c)%nat)).
Qed.

(** The writes of one value of [i]. *)
Lemma inner_loop (S : nat -> Data) n i k : forall (s : Data),
  (0 < n)%nat ->
  (forall c, (c < k)%nat ->
     fold_left (fun s c => set s (i + n * c)%nat (S c i)) (seq 0 k) s (i + n * c)%nat
     = S c i) /\
  (forall j, (forall c, (c < k)%nat -> j <> (i + n * c)%nat) ->
     fold_left (fun s c => set s (i + n * c)%nat (S c i)) (seq 0 k) s j = s j).
Proof.
  intros s Hn. induction k as [|k [IH1 IH2]]; [split; [lia|reflexivity]|].
  rewrite seq_S, fold_left_app. cbn [fold_left Nat.add]. split.
  - intros c Hc. unfold set at 1.
    destruct (Nat.eqb_spec (i + n * c) (i + n * k)) as [E|E].
    + assert (c = k) by nia. now subst.
    + apply IH1. assert (c <> k) by (intros ->; lia). lia.
  - intros j Hj. unfold set at 1.
    destruct (Nat.eqb_spec j (i + n * k)) as [E|E].
    + exfalso. apply (Hj k); [lia|exact E].
    + apply IH2. intros c Hc. apply Hj. lia.
Qed.

Lemma outer_loop (S : nat -> Data) n k m : forall (s : Data),
  (0 < n)%nat -> (m <= n)%nat ->
  let r := fold_left
             (fun s i => fold_left (fun s c => set s (i + n * c)%nat (S c i)) (seq 0 k) s)
             (seq 0 m) s in
  (forall i c, (i < m)%nat -> (c < k)%nat -> r (i + n * c)%nat = S c i) /\
  (forall j, (forall i c, (i < m)%nat -> (c < k)%nat -> j <> (i + n * c)%nat) ->
     r j = s j).
Proof.
  intros s Hn. induction m as [|m IH]; intros Hm r; subst r;
    [split; [lia|reflexivity]|].
  destruct (IH ltac:(lia)) as [IH1 IH2]. clear IH.
  rewrite seq_S, fold_left_app. cbn [fold_left Nat.add].
  set (r := fold_left _ (seq 0 m) s) in *.
  destruct (inner_loop S n m k r Hn) as [I1 I2]. split.
  - intros i c Hi Hc.
    destruct (Nat.eq_dec i m) as [->|Hne]; [now apply I1|].
    rewrite I2; [apply IH1; lia|].
    intros c' Hc' E.
    assert (Hin : (i < n)%nat) by lia. assert (Hmn : (m < n)%nat) by lia.
    assert (c = c') by nia. subst c'. lia.
  - intros j Hj. rewrite I2; [apply IH2|].
    + intros i c Hi Hc. apply Hj; lia.
    + intros c Hc. apply Hj; lia.
Qed.

(** X20.  The set-up of the weak zone tests [dim = 2], an assignment: from
    there on the file-scope [dim] is 2 for a mesh of any dimension, and the
    branch for 3D is never taken.  The remeshing step, which asks
    [dim == 2], therefore remaps three stress components: entry [i] of
    component [c < 3] of the stress becomes entry [i] of the remapped
    component (the component holds the entries [i + n*c] of the stress), and
    every entry from [3*n] on, the components 4 to 6 of a 3D mesh, is left
    as it was.  With [dim] equal to 3 the same step remaps six
    components, and a remapping that changes nothing gives the stress
    back. *)
Theorem remeshing_remaps_three_stress_components :
  forall (Remapping : Data -> Data) (n : nat) (s_gf : Data)
         (mesh_dim : Z) (weak_x weak_y weak_z : float),
    (0 < n)%nat ->
    let dim := fst (weak_zone mesh_dim weak_x weak_y weak_z) in
    dim = 2%Z /\
    snd (weak_zone mesh_dim weak_x weak_y weak_z) = [weak_x; weak_y] /\
    (forall c i, (c < 3)%nat ->
       split dim n s_gf c i = if (i <? n)%nat then s_gf (i + n * c)%nat else 0.0) /\
    (forall c i, (c < 3)%nat -> (i < n)%nat ->
       remap_stress Remapping dim n s_gf (i + n * c)%nat
       = Remapping (split dim n s_gf c) i) /\
    (forall j, (3 * n <= j)%nat -> remap_stress Remapping dim n s_gf j = s_gf j) /\
    (forall c i, (c < 6)%nat -> (i < n)%nat ->
       remap_stress Remapping 3 n s_gf (i + n * c)%nat
       = Remapping (split 3 n s_gf c) i) /\
    (forall d j, remap_stress (fun S => S) d n s_gf j = s_gf j).
Proof.
  intros R n s mesh_dim wx wy wz Hn dim.
  assert (Hw : forall d,
            (forall c i, (c < handled d)%nat -> (i < n)%nat ->
               remap_stress R d n s (i + n * c)%nat = R (split d n s c) i) /\
            (forall j, (handled d * n <= j)%nat -> remap_stress R d n s j = s j)).
  { intros d. unfold remap_stress, merge.
    destruct (outer_loop (remap R d (split d n s)) n (handled d) n s Hn (le_n n))
      as [O1 O2]. split.
    - intros c i Hc Hi. rewrite O1 by assumption. unfold remap.
      destruct (Nat.ltb_spec c (handled d)) as [_|]; [reflexivity|lia].
    - intros j Hj. apply O2. intros i c Hi Hc E. nia. }
  split; [reflexivity|]. split; [reflexivity|].
  split.
  { intros c i Hc. rewrite split_entry. change (handled dim) with 3%nat.
    destruct (Nat.ltb_spec c 3) as [_|]; [reflexivity|lia]. }
  split; [intros c i Hc Hi; now apply (proj1 (Hw 2%Z))|].
  split; [intros j Hj; now apply (proj2 (Hw 2%Z))|].
  split; [intros c i Hc Hi; now apply (proj1 (Hw 3%Z))|].
  intros d j. unfold remap_stress, merge.
  destruct (outer_loop (remap (fun S => S) d (split d n s)) n (handled d) n s Hn (le_n n))
    as [O1 O2].
  destruct (Nat.ltb_spec j (handled d * n)) as [Hlt|Hge].
  - assert (Hj : j = (j mod n + n * (j / n))%nat)
      by (rewrite Nat.add_comm; apply Nat.div_mod_eq).
    assert (Hi : (j mod n < n)%nat) by (apply Nat.mod_upper_bound; lia).
    assert (Hc : (j / n < handled d)%nat)
      by (apply Nat.Div0.div_lt_upper_bound; lia).
    rewrite Hj at 1. rewrite O1 by assumption.
    unfold remap. destruct (Nat.ltb_spec (j / n) (handled d)) as [_|]; [|lia].
    rewrite split_entry.
    destruct (Nat.ltb_spec (j / n) (handled d)) as [_|]; [|lia].
    destruct (Nat.ltb_spec (j mod n) n) as [_|]; [|lia].
    cbn [andb]. now rewrite <- Hj.
  - apply O2. intros i c Hi Hc E. nia.
Qed.

End RemeshFacts.

(** * Concrete runs

    Small meshes on which the definitions are evaluated: one zone with one
    quadrature point and one moving node, unit weight and unit reference
    measure, a gamma-law gas with [gamma = 2]. *)

Module Runs.

(** An equation of state for the runs: the gamma law that the
    partial-assembly kernel inlines, [P = (gamma - 1) R E] and
    [S = sqrt(gamma (gamma - 1) E)]. *)
Definition ideal_gas (gamma rho e pmod : float) : float * float :=
  ((gamma - 1.0) * rho * e, PrimFloat.sqrt (gamma * (gamma - 1.0) * e)).

Definition eye : Mat := fun i j => if (i =? j)%nat then 1 else 0.

(** A quadrature point of a two-dimensional zone with the identity as
    inverse Jacobian: determinant, smallest singular value, energy, velocity
    gradient with its Frobenius norm and smallest eigenvalue, and the stress
    component [sxx] of the state. *)
Definition mk_pt (detJ sv e : float) (gradv : Mat) (sxx gn eig0 : float) : QPoint :=
  mkQPoint detJ eye sv 1 1 e gradv gradv sxx 0 0 0 0 0 gn eig0 1 1.

(** The segment from the origin to the node [x], of reference length 1,
    with velocity [v] at the node and energy [e]: the Jacobian is the 1 x 1
    matrix [x], which is also its determinant and its singular value. *)
Definition segment (nodes : Vector) (S : BlockVector) : list Zone :=
  let x := nth 0 nodes 0 in
  let v := nth 0 (blk_v S) 0 in
  let e := nth 0 (blk_e S) 0 in
  [mkZone 2 1 1
     [mkQPoint x (DenseMatrix.const (1 / x)) x 1 1 e
               (DenseMatrix.const (v / x)) (DenseMatrix.const v)
               0 0 0 0 0 0 (abs (v / x)) (v / x) (abs x) 1]].

(** The square with the same node on its diagonal: the Jacobian is [x]
    times the identity. *)
Definition square (nodes : Vector) (S : BlockVector) : list Zone :=
  let x := nth 0 nodes 0 in
  let v := nth 0 (blk_v S) 0 in
  let e := nth 0 (blk_e S) 0 in
  [mkZone 2 1 1
     [mkQPoint (x * x) (DenseMatrix.Set_ (1 / x) eye) (abs x) 1 1 e
               (DenseMatrix.Set_ (v / x) eye) (DenseMatrix.Set_ v eye)
               (nth 0 (blk_sig S) 0) 0 0 0 0 0
               (abs (v / x) * PrimFloat.sqrt 2) (v / x) (abs x) 1]].

(** Full assembly, order 1, CFL factor 0.5, no source. *)
Definition cfg_fa (d : nat) (visc : bool) : Config :=
  mkConfig d 1 1 0.5 visc false false 0.

(** Collaborators of the runs: the force operator applied to the ones gives
    [force], the mass solves are the identity, the stress-rate projection
    gives [42.0], and [ResetQuadratureData()] clears the freshness flag. *)
Definition mf_with (zones : Vector -> BlockVector -> list Zone) (force : Vector)
    : Collaborators :=
  mkCollaborators ideal_gas zones (fun S => zones (blk_x S) S) (DenseMatrix.const 0)
    (fun _ _ => force) (fun _ _ => [0.0]) (fun _ _ _ => [0.0]) (fun _ _ _ => [0.0])
    (fun rhs => rhs) (fun _ rhs => rhs) (fun _ => [0.0]) (fun _ => [0.0])
    (fun v => v) (fun v => v) (fun _ _ _ => [42.0]) (Hydro.set_current false) 1.

Definition mf_run : Collaborators := mf_with segment [0.0].

(** Node at [x] with velocity [v], energy [e], stress [7.0]. *)
Definition state (x v e : float) : BlockVector := mkBlockVector [x] [v] [e] [7.0].

(** An operator with a stale cache that holds the estimate [est]. *)
Definition op_of (S : BlockVector) (est : float) : Oper :=
  mkOper (mkQuadratureData 1 est []) false false false (blk_x S) Unassembled
         (mkDiag infinity 0 0) 0.

(** The solver before its first step on the state [S]. *)
Definition rk_of (S : BlockVector) : RK2Avg :=
  mkRK2Avg [0.0] (mkBlockVector [0.0] [0.0] [0.0] [0.0]) S.

(** Stand-ins for the classes of [main] that the sources do not hold: an
    operator that answers every call with the estimate [toy_est] it was
    built with and counts the calls of [ResetQuadratureData()]; a solver
    that moves the nodes by [dt] times the velocity and advances [t] by
    [dt]; a return mapping and a mesh optimiser that change nothing; a
    [TMOPUpdate] that copies [S] to [S_old]. *)
Record Toy : Type := mkToy { toy_est : float; toy_resets : nat }.

Definition toy : Driver.Members Toy :=
  Driver.mkMembers
    (fun o => o)
    (fun o S t dt =>
       (o,
        mkMainState (zip_with (fun x v => x + dt * v) (x_gf S) (v_gf S))
                    (v_gf S) (e_gf S) (s_gf S) (x_ini_gf S),
        t + dt, dt))
    (fun o _ _ => (o, toy_est o))
    (fun o _ _ => (o, 1.0))
    (fun o => mkToy (toy_est o) (S (toy_resets o)))
    (fun o S _ => (o, S))
    (fun o => o)
    (fun o s p _ => (o, s, p))
    (fun o f => (o, f))
    (fun r => Driver.mkRefs (Driver.r_objects r) (Driver.r_cur r)
                            (f_S (Driver.r_cur r)) (Driver.r_n_p_gf r)
                            (Driver.r_flattening r))
    (fun o => o).

Lemma toy_advances : DriverFacts.Step_advances toy.
Proof. intros o S t dt. split; reflexivity. Qed.

(** Final time [tf], no bound on the number of passes, both checkpoints on,
    and remeshing at every pass when [remeshing] is set. *)
Definition param_of (tf : float) (remeshing : bool) : Params :=
  mkParams tf (-1) true true false false false remeshing 1 0 false.

Definition param_run : Params := param_of 100 false.

(** Node at [x] with velocity [v], energy 8, stress [7.0]. *)
Definition main_state (x v : float) : MainState :=
  mkMainState [x] [v] [8.0] [7.0] [x].

(** The loop before its first pass, [ti = 1], [t = 0], with an operator
    that will answer [est]. *)
Definition loop_of (S : MainState) (est dt0 : float) : Loop Toy :=
  mkLoop (mkToy est 0)
         (mkFields S [0.0] [0.0]) (mkFields S [0.0] [0.0]) [0.0] [0.0]
         0 dt0 0 0 1 1.0e-100 1 0 false false [].

(** *** The rate evaluator *)

(** C1 (failing input).  On the square with the node at 1, velocity 0.5,
    and a rate whose stress block holds [7.0], [Mult] returns the stress
    block [7.0] untouched; a stage of [RK2AvgSolver::Step] on the same input
    stores the projected stress rate, [42.0] here. *)
Lemma Mult_run_leaves_stress_rate :
  let cfg := cfg_fa 2 false in
  let mf := mf_with square [0.0] in
  let S := state 1 0.5 8 in
  let dS := mkBlockVector [0.0] [0.0] [0.0] [7.0] in
  blk_sig (snd (Hydro.Mult cfg mf S dS 1 (op_of S infinity))) = [7.0] /\
  blk_x (snd (Hydro.Mult cfg mf S dS 1 (op_of S infinity))) = [0.5] /\
  blk_sig (snd (Hydro.stage cfg mf (blk_v S) S dS 1 (op_of S infinity))) = [42.0].
Proof. vm_compute. repeat split. Qed.

(** C6 (instance).  Two evaluations of the rate, then a third on a cache
    that an explicit refresh has made current: the kernel has run on the one
    zone once per evaluation, and the refresh of a current cache returns the
    operator as it is. *)
Lemma freshness_run :
  let cfg := cfg_fa 1 false in
  let S := state 1 0.5 8 in
  let dS := mkBlockVector [0.0] [0.0] [0.0] [0.0] in
  let op1 := fst (Hydro.Mult cfg mf_run S dS 1 (op_of S infinity)) in
  let op2 := fst (Hydro.Mult cfg mf_run S dS 1 op1) in
  let op3 := Hydro.UpdateQuadratureData cfg mf_run S 1 op2 in
  quad_tstep op1 = 1%Z /\ quad_tstep op2 = 2%Z /\ quad_tstep op3 = 3%Z /\
  Hydro.UpdateQuadratureData cfg mf_run S 1 op3 = op3 /\
  quad_tstep (fst (Hydro.Mult cfg mf_run S dS 1 op3)) = 3%Z.
Proof.
  intros cfg S dS op1 op2 op3.
  destruct (HydroFacts.freshness_flag_one_refresh cfg mf_run S S (blk_v S) dS dS 1 1
              (op_of S infinity)) as (_ & _ & _ & _ & _ & _ & H1 & H2).
  destruct (HydroFacts.freshness_flag_one_refresh cfg mf_run S S (blk_v S) dS dS 1 1 op3)
    as (Hcur & _ & _ & _ & _ & _ & H3 & _).
  split; [exact H1|]. split; [exact H2|]. split; [reflexivity|].
  split; [apply Hcur; reflexivity|exact H3].
Defined.

(** *** The driver *)



(** C5 (instance).  A step of [1.0E-38] that the operator answers with the
    estimate 0 is rejected; the halved dt is below the floor: the run aborts
    after the VisIt and the ParaView checkpoint. *)
Lemma abort_run :
  let l := DriverFacts.stepped toy param_run (loop_of (main_state 1 0) 0 1.0E-38) in
  match Driver.time_step_control toy param_run l with
  | Aborted l' => saved l' = [VisitSave 1 1.0E-38; ParaviewSave 1 1.0E-38]
  | _ => False
  end.
Proof.
  intros l.
  destruct (DriverFacts.abort_below_floor_after_flush Toy toy param_run l)
    as [[H _] [Hs _]].
  destruct H as [l' Hl']; [repeat split; vm_compute; reflexivity|].
  rewrite Hl'. destruct (Hs l' Hl') as [_ ->]. vm_compute. reflexivity.
Defined.

(** *** The stable-dt estimate *)

(** C3 (counterexample).  The node at 1 moves with velocity -16 in a gas of
    sound speed 4; the dt is 0.0625.  The stages of the step meet the bounds
    0.125 (node at 1) and 0.0625 (node at 0.5); the step ends with the node
    at 0: the Jacobian of the state it returns is the 1 x 1 matrix [0], its
    determinant is zero, not positive, and the inverse rate [4/0 + ...] is
    NaN.  The estimate is 0.0625, not zero.  A driver whose operator
    answers 0.0625 to a step of 0.0625 accepts the step; and a driver that
    has optimised the mesh in the pass accepts a step whose estimate is
    zero. *)
Lemma zero_determinant_step_accepted :
  let cfg := cfg_fa 1 false in
  let S := state 1 (-16) 8 in
  let st := Hydro.RK2AvgSolver_Step cfg mf_run (rk_of S) (op_of S infinity) S 0 0.0625 in
  let est := snd (Hydro.GetTimeStepEstimate cfg mf_run (st_S st) 0.0625 [] (st_oper st)) in
  (map (fun z => map detJ (points z))
       (EstimateFacts.visited cfg mf_run (blk_x (st_S st)) (st_S st))
   = [[0]] /\
   (0 <=? 0) = true /\
   est = 0.0625 /\ is_zero est = false) /\
  match Driver.iteration toy param_run (loop_of (main_state 1 (-16)) 0.0625 0.0625) with
  | Accepted l' => dt l' = 0.0625 /\ t l' = 0.0625 /\ x_gf (f_S (cur l')) = [0]
  | _ => False
  end /\
  match Driver.iteration toy (param_of 100 true) (loop_of (main_state 1 (-32)) 0 0.0625) with
  | Accepted l' => dt l' = 0.0625 /\ t l' = 0.0625 /\ x_gf (f_S (cur l')) = [-1]
  | _ => False
  end.
Proof. vm_compute. repeat split. Qed.

(** C3 (instance).  With velocity -32 the step ends with the node at -1:
    the determinant is negative and the estimate is a zero, with 0.25 from
    another rank.  A driver whose operator answers zero repeats the
    step. *)
Lemma negative_determinant_run :
  let cfg := cfg_fa 1 false in
  let S := state 1 (-32) 8 in
  let st := Hydro.RK2AvgSolver_Step cfg mf_run (rk_of S) (op_of S infinity) S 0 0.0625 in
  let l := loop_of (main_state 1 (-32)) 0 0.0625 in
  blk_x (st_S st) = [-1] /\
  is_zero (snd (Hydro.GetTimeStepEstimate cfg mf_run (st_S st) 0.0625 [0.25] (st_oper st)))
  = true /\
  exists l',
    Driver.iteration toy param_run l = Repeated l' \/
    Driver.iteration toy param_run l = Aborted l'.
Proof.
  intros cfg S st l.
  destruct (EstimateFacts.negative_determinant_forces_rejection cfg mf_run) as [HA HB].
  split; [vm_compute; reflexivity|]. split.
  - apply (HA (rk_of S) (op_of S infinity) S 0 0.0625 [0.25]).
    + intros op; reflexivity.
    + reflexivity.
    + split; reflexivity.
    + repeat constructor.
    + discriminate.
    + right. right. vm_compute. eexists _, _.
      split; [left; reflexivity|]. split; [left; reflexivity|reflexivity].
  - destruct (HB Toy toy param_run l eq_refl eq_refl) as [Hrej _].
    apply Hrej. reflexivity.
Defined.



(** *** Points without a rate *)

Definition pt_cold : QPoint := mk_pt 1 1 0 (DenseMatrix.const 0) 0 0 0.
Definition pt_hot : QPoint := mk_pt 1 1 8 (DenseMatrix.const 0) 0 0 0.
Definition pt_inverted : QPoint := mk_pt (-1) 1 8 (DenseMatrix.const 0) 0 0 0.
Definition zone_cold : Zone := mkZone 2 1 1 [pt_cold; pt_inverted].

(** C9 (counterexample).  A point with zero sound speed and zero viscosity
    coefficient, in a batch that also holds an inverted point: the running
    minimum, 1 before the point, is 0 after it. *)
Lemma zero_rate_point_in_inverted_batch :
  let cfg := cfg_fa 2 false in
  let m := FA.batch_min_detJ [zone_cold] in
  is_zero (FA.sound_speed_of ideal_gas zone_cold pt_cold) = true /\
  is_zero (FA.visc_coeff_of cfg ideal_gas 1 zone_cold pt_cold) = true /\
  (m <? 0) = true /\
  FA.point_estimate cfg ideal_gas 1 m zone_cold pt_cold 1 = 0 /\
  (FA.point_estimate cfg ideal_gas 1 m zone_cold pt_cold 1 =? 1) = false.
Proof. vm_compute. repeat split. Qed.

(** C9 (instance).  The same point in a batch without inversion keeps the
    running minimum 0.75 in both kernels, and its zero velocity gradient
    gives the vorticity coefficient 1; a point with sound speed 4 and no
    viscosity lowers the minimum to the elastic bound 0.125. *)
Lemma zero_rate_run :
  let cfg := cfg_fa 2 false in
  (1 <? 0) = false /\ (detJ pt_cold <? 0) = false /\
  FA.vorticity_coeff_of (mkConfig 2 1 1 0.5 true true false 0) pt_cold = 1 /\
  FA.point_estimate cfg ideal_gas 1 1 zone_cold pt_cold 0.75 = 0.75 /\
  PA.point_estimate cfg 1 zone_cold pt_cold 0.75 = 0.75 /\
  FA.point_estimate cfg ideal_gas 1 1 zone_cold pt_hot 0.75 = 0.125.
Proof.
  intros cfg.
  destruct (GuardFacts.zero_rate_leaves_estimate (mkConfig 2 1 1 0.5 true true false 0)
              ideal_gas 1 1 zone_cold pt_cold 0.75 eq_refl eq_refl)
    as (_ & _ & _ & _ & Hvort).
  split; [reflexivity|]. split; [reflexivity|]. split; [apply Hvort; reflexivity|].
  destruct (GuardFacts.zero_rate_leaves_estimate cfg ideal_gas 1 1 zone_cold pt_cold 0.75
              eq_refl eq_refl) as (Hfa & _ & Hpa & _).
  destruct (GuardFacts.zero_rate_leaves_estimate cfg ideal_gas 1 1 zone_cold pt_hot 0.75
              eq_refl eq_refl) as (_ & Hel & _).
  split; [apply Hfa; reflexivity|]. split; [apply Hpa; reflexivity|].
  destruct (Hel eq_refl eq_refl) as [_ ->]. vm_compute. reflexivity.
Defined.

(** *** The flux tensors *)

(** The stress rate as the specification words it: [2 mu] times the strain
    rate minus its isotropic part scaled by [2 mu / dim]; and the stress for
    the force assembly: [-p] times the identity plus the viscous term. *)
Definition spec_deviatoric_rate (d : nat) (mu_ : float) (srate : Mat) : Mat :=
  fun i j => 2 * mu_ * srate i j
             - 2 * mu_ / Dbl.of_int d * DenseMatrix.Trace d srate * eye i j.

Definition spec_stress (p visc : float) (gradv : Mat) : Mat :=
  fun i j => - p * eye i j + visc * gradv i j.

(** Uniaxial stretching [[1 0] [0 0]] and a rigid rotation [[0 1] [-1 0]]. *)
Definition stretch : Mat :=
  fun i j => match i, j with 0%nat, 0%nat => 1 | _, _ => 0 end.

Definition rotation : Mat :=
  fun i j => match i, j with 0%nat, 1%nat => 1 | 1%nat, 0%nat => -1 | _, _ => 0 end.

Definition pt_stretch : QPoint := mk_pt 1 1 8 stretch 0 1 0.
Definition pt_rotate : QPoint := mk_pt 1 1 8 rotation 1 (PrimFloat.sqrt 2) (-1).
Definition zone_of (pt : QPoint) : Zone := mkZone 2 1 1 [pt].

(** Collaborators that sample the one zone [z] whatever the state, on both
    paths, with 5 in the array [tau0] of the partial-assembly kernel. *)
Definition mf_zone (z : Zone) : Collaborators :=
  mkCollaborators ideal_gas (fun _ _ => [z]) (fun _ => [z]) (DenseMatrix.const 5)
    (fun _ _ => [0.0]) (fun _ _ => [0.0]) (fun _ _ _ => [0.0]) (fun _ _ _ => [0.0])
    (fun rhs => rhs) (fun _ rhs => rhs) (fun _ => [0.0]) (fun _ => [0.0])
    (fun v => v) (fun v => v) (fun _ _ _ => [42.0]) (Hydro.set_current false) 1.

(** Partial assembly in 2D. *)
Definition cfg_pa : Config := mkConfig 2 1 1 0.5 true false true 0.

(** The entry of the cache for the one point, after a refresh from the
    operator [op_of S infinity], whose [h0] is 1. *)
Definition refreshed (cfg : Config) (pt : QPoint) : option PointFlux :=
  let S := state 1 0.5 8 in
  TensorFacts.cached
    (qdata (Hydro.refresh cfg (mf_zone (zone_of pt)) S 1 (op_of S infinity)))
    0 0.

(** C7 (counterexample).  Unit Lame parameters, unit scale
    [rho * weight * detJ], strain rate [[1 0] [0 0]], no stress in the
    state, pressure 8.  The rate the refresh leaves in the cache has the
    diagonal [3, 1], trace 4, where the deviatoric rate described has
    [1, -1], trace 0; the stress flux in the cache has [0] at (1,1), where
    [-p] plus the viscous term is [-8]. *)
Lemma written_rate_is_not_deviatoric :
  let cfg := cfg_fa 2 true in
  let z := zone_of pt_stretch in
  let srate := FA.srate_of pt_stretch in
  let p := FA.p_of ideal_gas z pt_stretch in
  let visc := FA.visc_coeff_of cfg ideal_gas 1 z pt_stretch in
  match refreshed cfg pt_stretch with
  | Some fl =>
      (tauJiT fl 0%nat 0%nat = 3 /\ tauJiT fl 1%nat 1%nat = 1) /\
      (spec_deviatoric_rate 2 1 srate 0%nat 0%nat = 1 /\
       spec_deviatoric_rate 2 1 srate 1%nat 1%nat = -1) /\
      (p = 8 /\ visc = 2) /\
      (stressJiT fl 1%nat 1%nat = 0 /\
       spec_stress p visc (sgrad_v pt_stretch) 1%nat 1%nat = -8) /\
      (stressJiT fl 0%nat 0%nat = 2 /\
       spec_stress p visc (sgrad_v pt_stretch) 0%nat 0%nat = -6)
  | None => False
  end.
Proof. vm_compute. repeat split. Qed.

(** C7 (instance).  The same point through the two kernels: entry (0,0) of
    the stress-rate flux in the cache is [2 + 1 = 3] after the
    full-assembly loop and zero after the partial-assembly kernel, whose
    stress has [-8 + 2 = -6] there. *)
Lemma stretch_flux_run :
  let z := zone_of pt_stretch in
  (exists fl, refreshed (cfg_fa 2 true) pt_stretch = Some fl /\
              tauJiT fl 0%nat 0%nat = 3) /\
  (exists fl, refreshed cfg_pa pt_stretch = Some fl /\
              tauJiT fl 0%nat 0%nat = 0) /\
  PA.stress_of cfg_pa 1 z pt_stretch 0%nat 0%nat = -6.
Proof.
  intros z. unfold refreshed.
  destruct (TensorFacts.flux_tensors_written (cfg_fa 2 true) (mf_zone z)
              (state 1 0.5 8) 1 (op_of (state 1 0.5 8) infinity) 0 0 0 0) as [Hfa _].
  destruct (Hfa z pt_stretch eq_refl) as (fl & Hc & Hf & _).
  destruct (TensorFacts.flux_tensors_written cfg_pa (mf_zone z)
              (state 1 0.5 8) 1 (op_of (state 1 0.5 8) infinity) 0 0 0 0) as [Hpa _].
  destruct (Hpa z pt_stretch eq_refl) as (fl' & Hc' & _ & Hp).
  destruct (Hf eq_refl) as (Ht & _).
  destruct (Hp eq_refl) as (_ & Hs & Hz).
  split; [exists fl; split; [exact Hc|rewrite (Ht eq_refl); vm_compute; reflexivity]|].
  split; [exists fl'; split; [exact Hc'|exact Hz]|].
  exact (eq_trans Hs eq_refl).
Defined.



(** *** Damping *)



End Runs.

(** * Further runs: the operator between resets, the last pass, indices *)

Module MoreRuns.

(** X2 (instance).  A trial step from a stale cache on the segment: the
    kernel has run on the one zone twice after the step and three times
    after the estimate. *)
Lemma step_cost_run :
  let cfg := Runs.cfg_fa 1 false in
  let S := Runs.state 1 0.5 8 in
  let st := Hydro.RK2AvgSolver_Step cfg Runs.mf_run (Runs.rk_of S) (Runs.op_of S infinity) S 0 1 in
  HydroFacts.reset_clears_flag Runs.mf_run /\
  quad_tstep (st_oper st) = 2%Z /\
  quad_tstep (fst (Hydro.GetTimeStepEstimate cfg Runs.mf_run (st_S st) 1 [] (st_oper st)))
  = 3%Z.
Proof.
  intros cfg S st.
  assert (Hreset : HydroFacts.reset_clears_flag Runs.mf_run) by (intros op; reflexivity).
  split; [exact Hreset|].
  destruct (OperatorFacts.kernel_runs_per_step cfg Runs.mf_run (Runs.rk_of S)
              (Runs.op_of S infinity) S 0 1 [] Hreset) as (H1 & _ & H3 & _).
  split; [exact H1|exact H3].
Defined.

(** X3 (instance).  On the segment with the node at 1, velocity 0.5 and
    energy 8, an estimate of 1 in the cache: the evaluation and the estimate
    that follow do not raise it, with another rank contributing 0.25. *)
Lemma estimate_shrinks_run :
  let cfg := Runs.cfg_fa 1 false in
  let S := Runs.state 1 0.5 8 in
  let dS := mkBlockVector [0.0] [0.0] [0.0] [0.0] in
  let op := Runs.op_of S 1 in
  (cfl cfg <? 0) = false /\ DblFacts.ge0 (EstimateFacts.est_of op) /\
  Forall DblFacts.ge0 [0.25] /\
  (1 <? EstimateFacts.est_of (fst (Hydro.Mult cfg Runs.mf_run S dS 1 op))) = false /\
  (1 <? snd (Hydro.GetTimeStepEstimate cfg Runs.mf_run S 1 [0.25] op)) = false.
Proof.
  intros cfg S dS op.
  assert (Hc : (cfl cfg <? 0) = false) by reflexivity.
  assert (He : DblFacts.ge0 (EstimateFacts.est_of op)) by (split; reflexivity).
  assert (Ho : Forall DblFacts.ge0 [0.25]) by (repeat constructor).
  split; [exact Hc|]. split; [exact He|]. split; [exact Ho|].
  destruct (OperatorFacts.estimate_never_grows cfg Runs.mf_run S dS 1 [0.25] op Hc He
              ltac:(discriminate) Ho) as (_ & (_ & H2) & _ & (_ & H4)).
  split; [exact H2|exact H4].
Defined.

(** X4 (instance).  One evaluation on the segment from a stale cache. *)
Lemma one_force_matrix_run :
  let cfg := Runs.cfg_fa 1 false in
  let S := Runs.state 1 0.5 8 in
  let dS := mkBlockVector [0.0] [0.0] [0.0] [0.0] in
  let op := Runs.op_of S infinity in
  let op' := fst (Hydro.Mult cfg Runs.mf_run S dS 1 op) in
  p_assembly cfg = false /\ qdata_is_current op = false /\
  Force op' = Assembled [1] (qdata op') /\ forcemat_is_assembled op' = true.
Proof.
  intros cfg S dS op op'.
  destruct (OperatorFacts.Mult_assembles_one_force_matrix cfg Runs.mf_run S dS 1 op
              eq_refl eq_refl) as (H1 & H2 & H3 & _).
  split; [reflexivity|]. split; [reflexivity|].
  split; [|exact H2]. fold op' in H1, H3. rewrite H3. exact H1.
Defined.

(** X5 (instance).  The node moves from 1 to 1.5 with dt 1, which reaches
    the final time 1; the operator answers 0.125, below dt, and the step is
    rejected.  The loop ends: [last_step] is set, at time 0. *)
Lemma rejected_last_step_run :
  let param := Runs.param_of 1 false in
  let l := Runs.loop_of (Runs.main_state 1 0.5) 0.125 1 in
  (steps l + 1 <? max_tsteps param)%Z = false /\
  (t_final param <=? t l + dt l) = true /\
  match Driver.iteration Runs.toy param l with
  | Repeated l' => last_step l' = true /\ t l' = 0
  | _ => False
  end.
Proof.
  intros param l.
  split; [reflexivity|]. split; [reflexivity|].
  pose proof (LoopFacts.last_pass_is_not_retried Runs.Toy Runs.toy param l
                eq_refl (or_introl eq_refl)) as H.
  destruct (Driver.iteration Runs.toy param l) as [l'|l'|l'] eqn:E.
  - vm_compute in E. discriminate.
  - destruct H as (H1 & _ & H3 & _). split; [exact H1|exact H3].
  - vm_compute in E. discriminate.
Defined.

(** X7 (instance).  A loop at time 0 with dt [+infinity] and final time
    100: the pass takes the step 100 and is the last. *)
Lemma unbounded_step_run :
  let l := Runs.loop_of (Runs.main_state 1 0.5) infinity infinity in
  dt l = infinity /\ is_finite (t l) = true /\
  is_nan (t_final Runs.param_run) = false /\
  dt (Driver.begin_step Runs.toy Runs.param_run l) = 100 /\
  last_step (Driver.begin_step Runs.toy Runs.param_run l) = true /\
  dt (DriverFacts.stepped Runs.toy Runs.param_run l) = 100.
Proof.
  intros l.
  split; [reflexivity|]. split; [reflexivity|]. split; [reflexivity|].
  destruct (LoopFacts.unbounded_step_is_clipped_to_the_end Runs.Toy Runs.toy
              Runs.param_run l eq_refl eq_refl eq_refl)
    as (H1 & H2 & _ & H4).
  split; [exact H1|]. split; [exact H2|exact (H4 Runs.toy_advances)].
Defined.


(** X9 (instance).  Two zones with four points per direction. *)
Lemma kernel_points_run :
  (0 <= 2)%Z /\ (0 < 4)%Z /\
  IndexFacts.covers_once
    (fun x : Z * Z * Z =>
       let '(e, qx, qy) := x in (0 <= e < 2 /\ 0 <= qx < 4 /\ 0 <= qy < 4)%Z)
    (fun x => let '(e, qx, qy) := x in
              Layout.eq_index (4 * 4) e (Layout.q_2D 4 qx qy))
    (2 * (4 * 4))%Z.
Proof.
  assert (H1 : (0 <= 2)%Z) by lia. assert (H2 : (0 < 4)%Z) by lia.
  split; [exact H1|]. split; [exact H2|].
  exact (proj1 (IndexFacts.kernel_visits_each_point_once 2 4 H1 H2)).
Defined.

(** X10 (instance).  The flux tensor of two zones with sixteen points in 2D. *)
Lemma flux_offsets_run :
  (0 < 2)%Z /\ (0 <= 2)%Z /\ (0 <= 16)%Z /\
  IndexFacts.covers_once
    (fun x : Z * Z * Z =>
       let '(eq, gd, vd) := x in (0 <= eq < 16 * 2 /\ 0 <= gd < 2 /\ 0 <= vd < 2)%Z)
    (fun x => let '(eq, gd, vd) := x in Layout.flux_offset 2 2 16 eq gd vd)
    (16 * 2 * 2 * 2)%Z.
Proof.
  assert (H1 : (0 < 2)%Z) by lia. assert (H2 : (0 <= 2)%Z) by lia.
  assert (H3 : (0 <= 16)%Z) by lia.
  split; [exact H1|]. split; [exact H2|]. split; [exact H3|].
  exact (IndexFacts.flux_offsets_cover_the_tensor 2 2 16 H1 H2 H3).
Defined.

(** X11 (instance).  Two zones of four dofs in 2D: the last entry of the
    fourth component goes to entry 31 of [dsig]. *)
Lemma stress_scatter_run :
  ((2 = 2 \/ 2 = 3) /\ 0 <= 2 /\ 0 <= 4)%Z /\
  Layout.stress_rate_components 2 = 4%Z /\
  (3 * (2 * 4) <= Layout.dof_loc 2 4 3 1 3 < (3 + 1) * (2 * 4))%Z.
Proof.
  assert (H1 : (2 = 2 \/ 2 = 3)%Z) by (left; reflexivity).
  assert (H2 : (0 <= 2)%Z) by lia. assert (H3 : (0 <= 4)%Z) by lia.
  split; [auto|].
  destruct (IndexFacts.stress_rate_scatter_is_one_to_one 2 2 4 H1 H2 H3) as (Hc & _ & Hb).
  split; [exact Hc|]. apply Hb; lia.
Defined.

(** X12 (instance).  Two zones of four dofs in 2D, 18 position dofs: the
    stress block of the rate is [44, 76); the fourth component of the first
    dof lands on entry 68, and entry 75, the last of the block, receives the
    last dof of the second zone of the fourth component. *)
Lemma stress_block_run :
  let j := (Layout.dsig_base 18 (2 * 4) + Layout.dof_loc 2 4 3 0 0)%Z in
  j = 68%Z /\
  (Layout.at_ 3 (Layout.block_offsets 2 18 (2 * 4)) <= j
   < Layout.at_ 4 (Layout.block_offsets 2 18 (2 * 4)))%Z /\
  exists c e i : Z,
    (Layout.dsig_base 18 (2 * 4) + Layout.dof_loc 2 4 c e i = 75)%Z.
Proof.
  intros j.
  destruct (IndexFacts.stress_rate_fills_the_stress_block 2 2 4 18
              (or_introl eq_refl) ltac:(lia) ltac:(lia)) as (_ & Hin & Hon).
  split; [reflexivity|].
  split; [apply (Hin 3 0 0)%Z; cbn; lia|].
  destruct (Hon 75%Z) as (c & e & i & _ & _ & _ & E); [cbn; lia|].
  exists c, e, i. exact E.
Defined.

(** X13 (instance).  A 3D mesh with 81 position dofs and 16 energy dofs:
    [main] gives the stress block 96 entries, [TMOPUpdate] 48. *)
Lemma TMOPUpdate_layout_run :
  let m := Layout.main_offset 3 81 16 in
  let u := Layout.main_offset (fst (Remesh.weak_zone 3 0 0 0)) 81 16 in
  (Layout.at_ 4 m - Layout.at_ 3 m = 96)%Z /\
  (Layout.at_ 4 u - Layout.at_ 3 u = 48)%Z /\
  (Layout.at_ 5 u < Layout.at_ 5 m)%Z.
Proof.
  intros m u.
  destruct (IndexFacts.TMOPUpdate_lays_out_three_stress_components 3 81 16 0 0 0)
    as (_ & H1 & H2 & _ & _ & H5).
  split; [exact H1|]. split; [exact H2|].
  exact (proj2 (H5 eq_refl ltac:(lia))).
Defined.

(** X14 (instance).  2D with four points per direction. *)
Lemma kernel_choice_run :
  (0 <= 2)%Z /\ (0 <= 4 < 16)%Z /\ Dispatch.kernel 2 4 = Some (2%Z, 4%Z).
Proof.
  assert (H1 : (0 <= 2)%Z) by lia. assert (H2 : (0 <= 4 < 16)%Z) by lia.
  split; [exact H1|]. split; [exact H2|].
  apply (proj1 (DispatchFacts.kernel_exists_for_six_pairs 2 4 H1 H2)).
  repeat split; auto.
Defined.

(** X16 (instance).  Type 6 in 3D. *)
Lemma boundary_type_6_run :
  Setup.essential_switch 3 6 = Some [Some 1%nat; Some 2%nat] /\
  Setup.components_of 3 [Some 1%nat; Some 2%nat] = [1%nat; 2%nat] /\
  Setup.prescribed_switch 3 6 = Some [0%nat; 2%nat].
Proof.
  split; [reflexivity|].
  exact (proj2 (SetupFacts.essential_and_prescribed_components 3 6
                  [Some 1%nat; Some 2%nat] (or_intror eq_refl) eq_refl) eq_refl).
Defined.

(** X18 (instance).  A 2D velocity gradient of NaNs. *)
Lemma FNorm_NaN_run :
  let cfg := Runs.cfg_fa 2 true in
  (forall i, (i < 2 * 2)%nat ->
     NormFacts.skipped (PA.flat cfg (DenseMatrix.const nan) i)) /\
  PA.FNorm cfg (DenseMatrix.const nan) = 0.0.
Proof.
  intros cfg.
  assert (H : forall i, (i < dim cfg * dim cfg)%nat ->
                NormFacts.skipped (PA.flat cfg (DenseMatrix.const nan) i))
    by (intros i _; right; reflexivity).
  split; [exact H|].
  exact (proj1 (proj2 (NormFacts.FNorm_passes_over_NaN cfg (DenseMatrix.const nan) H))).
Defined.

(** X19 (instance).  The boundary types of the shipped parameter file. *)
Lemma bc_ids_run :
  let one := ["1"%char] in
  let zero := ["0"%char] in
  Forall ListsFacts.word [one; one; zero; zero] /\
  Lists.tokens
    ["["%char; "1"%char; ","%char; " "%char; "1"%char; ","%char; " "%char;
     "0"%char; ","%char; " "%char; "0"%char; "]"%char]
  = [one; one; zero; zero].
Proof.
  intros one zero.
  assert (H : Forall ListsFacts.word [one; one; zero; zero])
    by (repeat constructor; discriminate).
  split; [exact H|].
  exact (proj1 (ListsFacts.written_list_is_read_back [one; one; zero; zero] H)).
Defined.

(** X20 (instance).  One dof per zone component, a mesh of dimension 3, a
    remapping that adds 1: the entry of the first component is remapped,
    the entry of the fourth is not. *)
Lemma remesh_run :
  let R : Remesh.Data -> Remesh.Data := fun S i => S i + 1 in
  let s : Remesh.Data := fun j => if (j =? 3)%nat then 7 else 5 in
  let dim := fst (Remesh.weak_zone 3 0 0 0) in
  (0 < 1)%nat /\ dim = 2%Z /\
  Remesh.remap_stress R dim 1 s 0%nat = 6 /\
  Remesh.remap_stress R dim 1 s 3%nat = 7.
Proof.
  intros R s dim.
  assert (H1 : (0 < 1)%nat) by lia.
  destruct (RemeshFacts.remeshing_remaps_three_stress_components R 1 s 3 0 0 0 H1)
    as (Hd & _ & _ & Hc & Hr & _).
  split; [exact H1|]. split; [exact Hd|]. split.
  - assert (H3 : (0 < 3)%nat) by lia.
    exact (eq_trans (Hc 0%nat 0%nat H3 H1) eq_refl).
  - apply (Hr 3%nat). lia.
Defined.

End MoreRuns.
